(** * A shallow embedding of llmproxy-go's request capture and tape engine

    Go values are modelled as follows:
    - [time.Time] is a [Z] count of nanoseconds since 0001-01-01T00:00:00Z,
      so the zero time is [0] and [Before]/[After] are [<]/[>] on instants;
    - [time.Duration] is a [Z] count of nanoseconds;
    - Go [int] is [Z]; [RequestStatus] is the Go [int] it is declared as;
    - [[]byte] is [list byte]; Go [string] is a Rocq [string] of bytes;
    - [map[string][]string] is a [gmap string (list string)] (a nil map is
      the empty map);
    - [float64] is the exact value of a finite double ([F64] below).
    Pointers ([*LLMRequest]) are locations in an explicit heap where the code
    shares or mutates them. *)

From Stdlib Require Import ZArith List String Ascii Strings.Byte Bool Lia Sorting.Sorted.
From stdpp Require Import base gmap strings list.

Import ListNotations.
Open Scope Z_scope.

(** ** Text helpers *)

Definition is_digit (c : ascii) : bool :=
  let n := nat_of_ascii c in Nat.leb 48 n && Nat.leb n 57.

Definition digit_val (c : ascii) : Z := Z.of_nat (nat_of_ascii c) - 48.

Fixpoint take_digits (l : list ascii) : list ascii * list ascii :=
  match l with
  | c :: r => if is_digit c then let '(d, r') := take_digits r in (c :: d, r')
              else ([], l)
  | [] => ([], [])
  end.

Fixpoint digits_value (acc : Z) (l : list ascii) : Z :=
  match l with [] => acc | c :: r => digits_value (acc * 10 + digit_val c) r end.

Fixpoint ndigits_go (fuel : nat) (m : Z) : Z :=
  match fuel with
  | O => 1
  | S k => if m <? 10 then 1 else 1 + ndigits_go k (m / 10)
  end.

(** Number of decimal digits of [m > 0]. *)
Definition ndigits (m : Z) : Z := ndigits_go (Z.to_nat (Z.log2 m + 1)) m.

Fixpoint Z_digits_go (fuel : nat) (n : Z) (acc : list ascii) : list ascii :=
  match fuel with
  | O => acc
  | S k =>
      let acc' := ascii_of_nat (Z.to_nat (48 + n mod 10)) :: acc in
      if n <? 10 then acc' else Z_digits_go k (n / 10) acc'
  end.

(** Decimal digits of [n >= 0] ([strconv.Itoa] without the sign). *)
Definition Z_digits (n : Z) : list ascii := Z_digits_go (Z.to_nat (ndigits n)) n [].

(** [strconv.Itoa]. *)
Definition Itoa (n : Z) : list ascii :=
  if n <? 0 then "-"%char :: Z_digits (- n) else Z_digits n.

(** ** Sorting ([sort.Slice]).  For up to twelve elements [sort.Slice]
    is an insertion sort, which is what is modelled; for longer slices Go
    may order elements with equal keys differently, with the same sorted
    result otherwise. *)
Fixpoint insert_by {A} (less : A -> A -> bool) (x : A) (l : list A) : list A :=
  match l with
  | [] => [x]
  | y :: r => if less x y then x :: l else y :: insert_by less x r
  end.

Definition sort_by {A} (less : A -> A -> bool) (l : list A) : list A :=
  fold_left (fun acc x => insert_by less x acc) l [].

(** ** [float64] ([strconv.ParseFloat], [strconv.AppendFloat])

    A finite IEEE-754 double is kept as its exact value
    [(-1)^f_neg * f_mant * 2^f_exp] with [f_mant] odd, or [f_mant = 0] and
    [f_exp = 0] (the sign of a zero is kept, as Go keeps it). *)

Record F64 := mkF64 { f_neg : bool; f_mant : Z; f_exp : Z }.

Definition f64_zero : F64 := mkF64 false 0 0.

Definition f64_eqb (f g : F64) : bool :=
  Bool.eqb (f_neg f) (f_neg g) && (f_mant f =? f_mant g) && (f_exp f =? f_exp g).

Fixpoint canon_go (fuel : nat) (m e : Z) : Z * Z :=
  match fuel with
  | O => (m, e)
  | S k => if m =? 0 then (0, 0)
           else if Z.even m then canon_go k (m / 2) (e + 1) else (m, e)
  end.

Definition f64_canon (neg : bool) (m e : Z) : F64 :=
  let '(m', e') := canon_go 64 m e in mkF64 neg m' e'.

(** Rounding of [n / d] to the nearest integer, ties to even. *)
Definition round_div_even (n d : Z) : Z :=
  let q := n / d in
  let r := n mod d in
  if 2 * r <? d then q else if d <? 2 * r then q + 1
  else if Z.even q then q else q + 1.

(** [N >= D * 2^k] and [N >= D * 10^k], for any sign of [k]. *)
Definition ge_pow2 (N D k : Z) : bool :=
  if 0 <=? k then D * 2 ^ k <=? N else D <=? N * 2 ^ (- k).
Definition ge_pow10 (N D k : Z) : bool :=
  if 0 <=? k then D * 10 ^ k <=? N else D <=? N * 10 ^ (- k).

(** The double nearest to [(-1)^neg * m * 10^e10] (ties to even), or
    [None] when it rounds beyond the largest finite double ([ErrRange]).
    Values of at least [10^309] overflow and values below [10^-324] round
    to zero, which the two guards decide without computing the power. *)
Definition f64_of_dec (neg : bool) (m e10 : Z) : option F64 :=
  if m =? 0 then Some (mkF64 neg 0 0) else
  let nd := ndigits m in
  if 309 <=? e10 + nd - 1 then None
  else if e10 + nd <? -324 then Some (mkF64 neg 0 0)
  else
    let N := if 0 <=? e10 then m * 10 ^ e10 else m in
    let D := if 0 <=? e10 then 1 else 10 ^ (- e10) in
    let k0 := Z.log2 N - Z.log2 D in
    let k := if ge_pow2 N D k0 then k0 else k0 - 1 in
    let E := Z.max (k - 52) (-1074) in
    let M := round_div_even (N * 2 ^ Z.max (- E) 0) (D * 2 ^ Z.max E 0) in
    let '(M', E') := if M =? 2 ^ 53 then (2 ^ 52, E + 1) else (M, E) in
    if 971 <? E' then None else Some (f64_canon neg M' E').

(** [strconv.ParseFloat(s, 64)] on the text of a JSON number literal. *)
Definition ParseFloat (s : list ascii) : option F64 :=
  let '(neg, s1) := match s with "-"%char :: r => (true, r) | _ => (false, s) end in
  let '(ip, s2) := take_digits s1 in
  let '(fp, s3) := match s2 with "."%char :: r => take_digits r | _ => ([], s2) end in
  let ex :=
    match s3 with
    | [] => Some 0
    | e :: r =>
        if (Ascii.eqb e "e" || Ascii.eqb e "E")%bool then
          let '(eneg, r1) :=
            match r with
            | "-"%char :: r' => (true, r')
            | "+"%char :: r' => (false, r')
            | _ => (false, r)
            end in
          match take_digits r1 with
          | ((_ :: _) as ed, []) =>
              Some (if eneg then - digits_value 0 ed else digits_value 0 ed)
          | _ => None
          end
        else None
    end in
  match ip, ex with
  | _ :: _, Some x =>
      f64_of_dec neg (digits_value 0 (ip ++ fp)) (x - Z.of_nat (length fp))
  | _, _ => None
  end.


(** |f| as a ratio [N / D]. *)
Definition f64_ratio (f : F64) : Z * Z :=
  if 0 <=? f_exp f then (f_mant f * 2 ^ f_exp f, 1) else (f_mant f, 2 ^ (- f_exp f)).

(** [floor(log10(N / D))] for [N, D > 0]. *)
Definition floor_log10 (N D : Z) : Z :=
  let t0 := ndigits N - ndigits D in
  if ge_pow10 N D t0 then t0 else t0 - 1.

(** The shortest decimal [C * 10^ex] that [ParseFloat] maps back to the
    positive double [N / D]; among the candidates of that length the nearest
    one, ties to an even last digit (the digits of [strconv]'s shortest
    formatting, [prec = -1]).  Seventeen digits always suffice. *)
Fixpoint shortest_go (fuel : nat) (p : Z) (target : F64) (N D t : Z) : Z * Z :=
  let sh := p - 1 - t in
  let num := if 0 <=? sh then N * 10 ^ sh else N in
  let den := if 0 <=? sh then D else D * 10 ^ (- sh) in
  let lo := num / den in
  let hi := if num mod den =? 0 then lo else lo + 1 in
  let ex := t + 1 - p in
  let ok c := match f64_of_dec false c ex with
              | Some g => f64_eqb g target | None => false end in
  let pick :=
    if lo =? hi then (if ok lo then Some lo else None)
    else match ok lo, ok hi with
         | true, true =>
             let r := num - lo * den in
             if 2 * r <? den then Some lo else if den <? 2 * r then Some hi
             else if Z.even lo then Some lo else Some hi
         | true, false => Some lo
         | false, true => Some hi
         | false, false => None
         end in
  match pick, fuel with
  | Some c, _ => (c, ex)
  | None, O => (lo, ex)
  | None, S k => shortest_go k (p + 1) target N D t
  end.

Fixpoint strip_zeros (fuel : nat) (c ex : Z) : Z * Z :=
  match fuel with
  | O => (c, ex)
  | S k => if (c mod 10 =? 0) && (0 <? c) then strip_zeros k (c / 10) (ex + 1) else (c, ex)
  end.

(** Shortest digits [ds] and decimal point position [dp] of a nonzero
    double: its value is [0.ds * 10^dp]. *)
Definition shortest_digits (f : F64) : list ascii * Z :=
  let '(N, D) := f64_ratio f in
  let t := floor_log10 N D in
  let '(c, ex) := shortest_go 16 1 (mkF64 false (f_mant f) (f_exp f)) N D t in
  let '(c', ex') := strip_zeros 20 c ex in
  let ds := Z_digits c' in
  (ds, Z.of_nat (length ds) + ex').

Definition digit_at (ds : list ascii) (j : Z) : ascii :=
  if (0 <=? j) && (j <? Z.of_nat (length ds)) then nth (Z.to_nat j) ds "0"%char
  else "0"%char.

(** [strconv]'s [fmtF] with the shortest precision. *)
Definition fmtF (ds : list ascii) (dp : Z) : list ascii :=
  let nd := Z.of_nat (length ds) in
  let intpart :=
    if 0 <? dp then map (digit_at ds) (map Z.of_nat (seq 0 (Z.to_nat dp)))
    else ["0"%char] in
  let prec := Z.max (nd - dp) 0 in
  let frac :=
    if 0 <? prec then
      "."%char :: map (fun i => digit_at ds (dp + Z.of_nat i)) (seq 0 (Z.to_nat prec))
    else [] in
  intpart ++ frac.

(** [strconv]'s [fmtE] with the shortest precision. *)
Definition fmtE (ds : list ascii) (dp : Z) : list ascii :=
  let mant := match ds with
              | d :: (_ :: _) as rest => d :: "."%char :: rest
              | _ => ds
              end in
  let ex := dp - 1 in
  let sgn := if ex <? 0 then "-"%char else "+"%char in
  let a := Z.abs ex in
  let dig n := ascii_of_nat (Z.to_nat (48 + n)) in
  let exps := if a <? 10 then ["0"%char; dig a]
              else if a <? 100 then [dig (a / 10); dig (a mod 10)]
              else [dig (a / 100); dig ((a / 10) mod 10); dig (a mod 10)] in
  mant ++ "e"%char :: sgn :: exps.

(** The clean-up of [floatEncoder]: [e-09] becomes [e-9]. *)
Definition clean_exp (b : list ascii) : list ascii :=
  match rev b with
  | d :: "0"%char :: "-"%char :: "e"%char :: r => rev r ++ ["e"; "-"; d]%char
  | _ => b
  end.

Definition f64_1e_6 : F64 :=
  match f64_of_dec false 1 (-6) with Some f => f | None => f64_zero end.

(** [floatEncoder] of [encoding/json] for a [float64]. *)
Definition encodeFloat (f : F64) : list ascii :=
  let sgn := if f_neg f then ["-"%char] else [] in
  if f_mant f =? 0 then sgn ++ ["0"%char] else
  let '(N, D) := f64_ratio f in
  let '(N6, D6) := f64_ratio f64_1e_6 in
  let use_e := (N * D6 <? N6 * D) || (10 ^ 21 * D <=? N) in
  let '(ds, dp) := shortest_digits f in
  sgn ++ (if use_e then clean_exp (fmtE ds dp) else fmtF ds dp).

(** ** Data model ([types.go], [tape.go]) *)

Abbreviation Time := Z (only parsing).
Abbreviation Duration := Z (only parsing).
Abbreviation Float64 := F64 (only parsing).
Abbreviation Header := (gmap string (list string)) (only parsing).

(** [type RequestStatus int] with its [iota] constants. *)
Definition StatusPending : Z := 0.
Definition StatusComplete : Z := 1.
Definition StatusError : Z := 2.

(** [type LLMRequest struct] (the later declaration in [types.go], with
    [TTFT], [CachedResponse], [ProxyName] and [ProxyListen]). *)
Record LLMRequest := mkLLMRequest {
  ID : Z;
  Method : string;
  Path : string;
  Host : string;
  URL : string;
  Model : string;
  Status : Z;
  StatusCode : Z;
  StartTime : Time;
  Duration_ : Duration;
  TTFT : Duration;
  RequestHeaders : Header;
  ResponseHeaders : Header;
  RequestBody : list byte;
  ResponseBody : list byte;
  RequestSize : Z;
  ResponseSize : Z;
  IsStreaming : bool;
  EstimatedInputTokens : Z;
  InputTokens : Z;
  OutputTokens : Z;
  ProviderID : string;
  Cost : Float64;
  CachedResponse : bool;
  ProxyName : string;
  ProxyListen : string
}.

(** The Go zero value [LLMRequest{}]. *)
Definition zeroLLMRequest : LLMRequest :=
  mkLLMRequest 0 "" "" "" "" "" 0 0 0 0 0 ∅ ∅ [] [] 0 0 false 0 0 0 "" f64_zero
    false "" "".

(** [type TapeRequestData struct] in [tape.go]. *)
Record TapeRequestData := mkTapeRequestData {
  td_ID : Z;
  td_Method : string;
  td_Path : string;
  td_Host : string;
  td_URL : string;
  td_Model : string;
  td_Status : Z;
  td_StatusCode : Z;
  td_StartTime : Time;
  td_Duration : Duration;
  td_RequestHeaders : Header;
  td_ResponseHeaders : Header;
  td_RequestBody : list byte;
  td_ResponseBody : list byte;
  td_RequestSize : Z;
  td_ResponseSize : Z;
  td_IsStreaming : bool;
  td_EstimatedInputTokens : Z;
  td_InputTokens : Z;
  td_OutputTokens : Z;
  td_ProviderID : string;
  td_Cost : Float64
}.

Definition zeroTapeRequestData : TapeRequestData :=
  mkTapeRequestData 0 "" "" "" "" "" 0 0 0 0 ∅ ∅ [] [] 0 0 false 0 0 0 "" f64_zero.

(** [requestToTapeData] in [tape.go]. *)
Definition requestToTapeData (req : LLMRequest) : TapeRequestData :=
  {| td_ID := ID req;
     td_Method := Method req;
     td_Path := Path req;
     td_Host := Host req;
     td_URL := URL req;
     td_Model := Model req;
     td_Status := Status req;
     td_StatusCode := StatusCode req;
     td_StartTime := StartTime req;
     td_Duration := Duration_ req;
     td_RequestHeaders := RequestHeaders req;
     td_ResponseHeaders := ResponseHeaders req;
     td_RequestBody := RequestBody req;
     td_ResponseBody := ResponseBody req;
     td_RequestSize := RequestSize req;
     td_ResponseSize := ResponseSize req;
     td_IsStreaming := IsStreaming req;
     td_EstimatedInputTokens := EstimatedInputTokens req;
     td_InputTokens := InputTokens req;
     td_OutputTokens := OutputTokens req;
     td_ProviderID := ProviderID req;
     td_Cost := Cost req |}.

(** [tapeDataToRequest] in [tape.go] (the pointer it returns is allocated by
    the callers of this function in the heap models below). *)
Definition tapeDataToRequest (data : TapeRequestData) : LLMRequest :=
  {| ID := td_ID data;
     Method := td_Method data;
     Path := td_Path data;
     Host := td_Host data;
     URL := td_URL data;
     Model := td_Model data;
     Status := td_Status data;
     StatusCode := td_StatusCode data;
     StartTime := td_StartTime data;
     Duration_ := td_Duration data;
     TTFT := 0;
     RequestHeaders := td_RequestHeaders data;
     ResponseHeaders := td_ResponseHeaders data;
     RequestBody := td_RequestBody data;
     ResponseBody := td_ResponseBody data;
     RequestSize := td_RequestSize data;
     ResponseSize := td_ResponseSize data;
     IsStreaming := td_IsStreaming data;
     EstimatedInputTokens := td_EstimatedInputTokens data;
     InputTokens := td_InputTokens data;
     OutputTokens := td_OutputTokens data;
     ProviderID := td_ProviderID data;
     Cost := td_Cost data;
     CachedResponse := false;
     ProxyName := "";
     ProxyListen := "" |}.

(** ** The cache store ([cache.go]) *)

(** [type CacheEntry struct]. *)
Record CacheEntry := mkCacheEntry {
  ce_ResponseBody : list byte;
  ce_ResponseHeaders : Header;
  ce_StatusCode : Z;
  ce_Duration : Duration;
  ce_CreatedAt : Time
}.

(** [type MemoryCache struct]: the [sync.Map] from keys to
    [memoryCacheEntry{entry, expiresAt}], and the TTL.  [time.Now()] is the
    explicit argument [now] of each operation. *)
Record MemoryCache := mkMemoryCache {
  mc_data : gmap string (CacheEntry * Time);
  mc_ttl : Duration
}.

(** [MemoryCache.Get(key)], returning [( *CacheEntry, bool)]: a miss is
    [None]; an expired entry is deleted. *)
Definition MemoryCache_Get (now : Time) (c : MemoryCache) (key : string)
    : option CacheEntry * MemoryCache :=
  match mc_data c !! key with
  | None => (None, c)
  | Some (entry, expiresAt) =>
      if Z.ltb expiresAt now  (* time.Now().After(entry.expiresAt) *)
      then (None, mkMemoryCache (delete key (mc_data c)) (mc_ttl c))
      else (Some entry, c)
  end.

(** [MemoryCache.Set(key, entry)]. *)
Definition MemoryCache_Set (now : Time) (c : MemoryCache) (key : string)
    (entry : CacheEntry) : MemoryCache :=
  mkMemoryCache (<[key := (entry, now + mc_ttl c)]> (mc_data c)) (mc_ttl c).

(** One tick of the [cleanup] goroutine: every entry with
    [now.After(entry.expiresAt)] is deleted. *)
Definition MemoryCache_sweep (now : Time) (c : MemoryCache) : MemoryCache :=
  mkMemoryCache (filter (fun kv => ~ (kv.2.2 < now)) (mc_data c)) (mc_ttl c).

Definition MemoryCache_sweeps (ticks : list Time) (c : MemoryCache) : MemoryCache :=
  fold_left (fun c' now => MemoryCache_sweep now c') ticks c.

(** ** The capturing handler of [createProxyHandler] ([proxy.go])

    One captured request, from the moment its [LLMRequest] is registered
    (status [StatusPending], [request_start] written) until both the handler
    goroutine and the disconnect-watcher goroutine have finished.  The two
    goroutines and the client are interleaved by a schedule of actions. *)

(** The two cases of the watcher's [select]. *)
Inductive WatchCase := CaseCtxDone | CaseCancelDone.

(** Where the watcher goroutine is: created but not yet run ([WStart]),
    blocked in [select] ([WParked]), woken on a case, or finished. *)
Inductive WatcherPc := WStart | WParked | WWoken (c : WatchCase) | WDone.

(** Where the handler goroutine is, after [go func() { select ... }()]:
    [MServe] is [proxy.ServeHTTP(recorder, r)], [MClose] is
    [close(cancelDone)], [MCheck] is [if r.Context().Err() != nil { return }]
    and the TTFT bookkeeping, [MFinalize] the call of [finalize]. *)
Inductive MainPc := MServe | MClose | MCheck | MFinalize | MReturned.

(** Which goroutine ran the body of [finalizeOnce.Do]. *)
Inductive Finalizer := ByHandler | ByWatcher.

(** What the handler has computed before the watcher starts, and what the
    upstream round trip produces. *)
Record HandlerEnv := mkHandlerEnv {
  he_cachedEntry : option CacheEntry;   (* [cacheHit && cachedEntry != nil] *)
  he_isStreaming : bool;
  he_skipCache : bool;
  he_cacheKey : string;
  he_startTime : Time;
  he_upStatus : Z;                      (* [recorder.statusCode] *)
  he_upHeaders : Header;                (* [recorder.Header()] *)
  he_upBody : list byte;                (* [recorder.body.Bytes()] *)
  he_upDecompressed : list byte;        (* [decompressIfNeeded(...)] *)
  he_firstWrite : option Time;          (* [recorder.firstWriteTime] *)
  he_tapeWriter : bool;                 (* [tapeWriter != nil] *)
  he_program : bool                     (* [program != nil] *)
}.

Record HState := mkHState {
  hs_clock : Time;
  hs_ctxDone : bool;                    (* [r.Context().Done()] is closed *)
  hs_cancelDone : bool;                 (* [cancelDone] is closed *)
  hs_once : bool;                       (* [finalizeOnce] has fired *)
  hs_main : MainPc;
  hs_watch : WatcherPc;
  hs_req : LLMRequest;
  hs_cacheWrites : list (string * CacheEntry);  (* [cache.Set] calls *)
  hs_tokenJobs : list (list byte);      (* [go extractTokenUsage(req, body)] *)
  hs_tape : list TapeRequestData;       (* [WriteRequestComplete] payloads *)
  hs_notified : nat;                    (* [requestUpdatedMsg] sends *)
  hs_finalizedBy : list Finalizer       (* runs of the [Once] body *)
}.

Definition set_response (r : LLMRequest) (dur : Duration) (sc : Z)
    (hdrs : Header) (body : list byte) (size : Z) : LLMRequest :=
  {| ID := ID r; Method := Method r; Path := Path r; Host := Host r;
     URL := URL r; Model := Model r; Status := Status r; StatusCode := sc;
     StartTime := StartTime r; Duration_ := dur; TTFT := TTFT r;
     RequestHeaders := RequestHeaders r; ResponseHeaders := hdrs;
     RequestBody := RequestBody r; ResponseBody := body;
     RequestSize := RequestSize r; ResponseSize := size;
     IsStreaming := IsStreaming r;
     EstimatedInputTokens := EstimatedInputTokens r;
     InputTokens := InputTokens r; OutputTokens := OutputTokens r;
     ProviderID := ProviderID r; Cost := Cost r;
     CachedResponse := CachedResponse r; ProxyName := ProxyName r;
     ProxyListen := ProxyListen r |}.

Definition set_status (r : LLMRequest) (st : Z) : LLMRequest :=
  {| ID := ID r; Method := Method r; Path := Path r; Host := Host r;
     URL := URL r; Model := Model r; Status := st; StatusCode := StatusCode r;
     StartTime := StartTime r; Duration_ := Duration_ r; TTFT := TTFT r;
     RequestHeaders := RequestHeaders r; ResponseHeaders := ResponseHeaders r;
     RequestBody := RequestBody r; ResponseBody := ResponseBody r;
     RequestSize := RequestSize r; ResponseSize := ResponseSize r;
     IsStreaming := IsStreaming r;
     EstimatedInputTokens := EstimatedInputTokens r;
     InputTokens := InputTokens r; OutputTokens := OutputTokens r;
     ProviderID := ProviderID r; Cost := Cost r;
     CachedResponse := CachedResponse r; ProxyName := ProxyName r;
     ProxyListen := ProxyListen r |}.

Definition set_ttft (r : LLMRequest) (d : Duration) : LLMRequest :=
  {| ID := ID r; Method := Method r; Path := Path r; Host := Host r;
     URL := URL r; Model := Model r; Status := Status r;
     StatusCode := StatusCode r;
     StartTime := StartTime r; Duration_ := Duration_ r; TTFT := d;
     RequestHeaders := RequestHeaders r; ResponseHeaders := ResponseHeaders r;
     RequestBody := RequestBody r; ResponseBody := ResponseBody r;
     RequestSize := RequestSize r; ResponseSize := ResponseSize r;
     IsStreaming := IsStreaming r;
     EstimatedInputTokens := EstimatedInputTokens r;
     InputTokens := InputTokens r; OutputTokens := OutputTokens r;
     ProviderID := ProviderID r; Cost := Cost r;
     CachedResponse := CachedResponse r; ProxyName := ProxyName r;
     ProxyListen := ProxyListen r |}.

(** The closure [finalize] of [createProxyHandler]: the body of
    [finalizeOnce.Do], run by goroutine [who]. *)
Definition finalize (env : HandlerEnv) (who : Finalizer) (statusCode : Z)
    (respHeaders : Header) (responseBody : list byte) (responseSize : Z)
    (s : HState) : HState :=
  if hs_once s then s else
  let dur := hs_clock s - he_startTime env in
  let req1 := set_response (hs_req s) dur statusCode respHeaders responseBody
                responseSize in
  let ok := bool_decide (200 <= statusCode < 300) in
  let req2 := set_status req1 (if ok then StatusComplete else StatusError) in
  let writes :=
    if ok && negb (he_isStreaming env) && negb (he_skipCache env)
    then hs_cacheWrites s ++
           [(he_cacheKey env,
             mkCacheEntry responseBody respHeaders statusCode dur (hs_clock s))]
    else hs_cacheWrites s in
  let jobs :=
    if bool_decide (0 < length responseBody)%nat
    then hs_tokenJobs s ++ [responseBody] else hs_tokenJobs s in
  let tape :=
    if he_tapeWriter env then hs_tape s ++ [requestToTapeData req2]
    else hs_tape s in
  let notified :=
    if he_program env then S (hs_notified s) else hs_notified s in
  mkHState (hs_clock s) (hs_ctxDone s) (hs_cancelDone s) true (hs_main s)
    (hs_watch s) req2 writes jobs tape notified (hs_finalizedBy s ++ [who]).

(** Scheduler actions: a step of the handler goroutine, a step of the
    watcher goroutine (with the case its [select] picks when it first runs
    and more than one case is ready), the client cancelling the inbound
    context, and the passing of time. *)
Inductive HAction := AMain | AWatch (c : WatchCase) | ACancel | ATick (d : N).

Definition with_main (s : HState) (pc : MainPc) : HState :=
  mkHState (hs_clock s) (hs_ctxDone s) (hs_cancelDone s) (hs_once s) pc
    (hs_watch s) (hs_req s) (hs_cacheWrites s) (hs_tokenJobs s) (hs_tape s)
    (hs_notified s) (hs_finalizedBy s).

Definition with_watch (s : HState) (pc : WatcherPc) : HState :=
  mkHState (hs_clock s) (hs_ctxDone s) (hs_cancelDone s) (hs_once s)
    (hs_main s) pc (hs_req s) (hs_cacheWrites s) (hs_tokenJobs s) (hs_tape s)
    (hs_notified s) (hs_finalizedBy s).

Definition case_ready (s : HState) (c : WatchCase) : bool :=
  match c with
  | CaseCtxDone => hs_ctxDone s
  | CaseCancelDone => hs_cancelDone s
  end.

(** A channel being closed wakes a watcher parked in [select] on that case. *)
Definition wake (w : WatcherPc) (c : WatchCase) : WatcherPc :=
  match w with WParked => WWoken c | _ => w end.

Definition hstep (env : HandlerEnv) (s : HState) (a : HAction)
    : option HState :=
  match a with
  | ATick d =>
      Some (mkHState (hs_clock s + Z.of_N d) (hs_ctxDone s) (hs_cancelDone s)
              (hs_once s) (hs_main s) (hs_watch s) (hs_req s)
              (hs_cacheWrites s) (hs_tokenJobs s) (hs_tape s) (hs_notified s)
              (hs_finalizedBy s))
  | ACancel =>
      if hs_ctxDone s then None else
      Some (mkHState (hs_clock s) true (hs_cancelDone s) (hs_once s)
              (hs_main s) (wake (hs_watch s) CaseCtxDone) (hs_req s)
              (hs_cacheWrites s) (hs_tokenJobs s) (hs_tape s) (hs_notified s)
              (hs_finalizedBy s))
  | AMain =>
      match hs_main s with
      | MServe => Some (with_main s MClose)
      | MClose =>
          let s1 :=
            mkHState (hs_clock s) (hs_ctxDone s) true (hs_once s) (hs_main s)
              (wake (hs_watch s) CaseCancelDone) (hs_req s) (hs_cacheWrites s)
              (hs_tokenJobs s) (hs_tape s) (hs_notified s) (hs_finalizedBy s) in
          Some (with_main s1
                  (match he_cachedEntry env with
                   | Some _ => MFinalize | None => MCheck end))
      | MCheck =>
          if hs_ctxDone s then Some (with_main s MReturned) else
          let s1 :=
            match he_firstWrite env with
            | Some t =>
                mkHState (hs_clock s) (hs_ctxDone s) (hs_cancelDone s)
                  (hs_once s) (hs_main s) (hs_watch s)
                  (set_ttft (hs_req s) (t - he_startTime env))
                  (hs_cacheWrites s) (hs_tokenJobs s) (hs_tape s)
                  (hs_notified s) (hs_finalizedBy s)
            | None => s
            end in
          Some (with_main s1 MFinalize)
      | MFinalize =>
          let s1 :=
            match he_cachedEntry env with
            | Some e =>
                finalize env ByHandler (ce_StatusCode e) (ce_ResponseHeaders e)
                  (ce_ResponseBody e) (Z.of_nat (length (ce_ResponseBody e))) s
            | None =>
                finalize env ByHandler (he_upStatus env) (he_upHeaders env)
                  (he_upDecompressed env) (Z.of_nat (length (he_upBody env))) s
            end in
          Some (with_main s1 MReturned)
      | MReturned => None
      end
  | AWatch c =>
      match hs_watch s with
      | WStart =>
          if case_ready s CaseCtxDone || case_ready s CaseCancelDone then
            (if case_ready s c then Some (with_watch s (WWoken c)) else None)
          else Some (with_watch s WParked)
      | WParked => None
      | WWoken CaseCtxDone =>
          Some (with_watch (finalize env ByWatcher 499 ∅ [] 0 s) WDone)
      | WWoken CaseCancelDone => Some (with_watch s WDone)
      | WDone => None
      end
  end.

Fixpoint hrun (env : HandlerEnv) (s : HState) (sched : list HAction)
    : option HState :=
  match sched with
  | [] => Some s
  | a :: rest =>
      match hstep env s a with
      | Some s' => hrun env s' rest
      | None => None
      end
  end.

(** The state right after [go func() { select ... }()]: the record [req0]
    was registered as [StatusPending]; the handler is about to serve from
    the cache (hit) or to forward upstream (miss). *)
Definition hinit (env : HandlerEnv) (req0 : LLMRequest) : HState :=
  mkHState (he_startTime env) false false false
    (match he_cachedEntry env with Some _ => MClose | None => MServe end)
    WStart (set_status req0 StatusPending) [] [] [] O [].

(** A schedule has run to completion when both goroutines are finished. *)
Definition hfinished (s : HState) : bool :=
  match hs_main s, hs_watch s with MReturned, WDone => true | _, _ => false end.

(** ** UTF-8 ([unicode/utf8]) *)

Definition byte_val (c : ascii) : Z := Z.of_nat (nat_of_ascii c).
Definition chr (n : Z) : ascii := ascii_of_nat (Z.to_nat n).

Definition in_range (lo hi : Z) (c : ascii) : bool := (lo <=? byte_val c) && (byte_val c <=? hi).

(** [utf8.DecodeRune]: the rune and its width, or [None] for an invalid
    or truncated encoding (Go returns [(RuneError, 1)]). *)
Definition DecodeRune (l : list ascii) : option (Z * nat) :=
  let cont c := in_range 128 191 c in
  let v c := byte_val c in
  match l with
  | [] => None
  | b0 :: r =>
      let x := v b0 in
      if x <? 128 then Some (x, 1%nat)
      else if (194 <=? x) && (x <=? 223) then
        match r with
        | b1 :: _ => if cont b1 then Some ((x - 192) * 64 + (v b1 - 128), 2%nat) else None
        | _ => None
        end
      else if (224 <=? x) && (x <=? 239) then
        let lo := if x =? 224 then 160 else 128 in
        let hi := if x =? 237 then 159 else 191 in
        match r with
        | b1 :: b2 :: _ =>
            if in_range lo hi b1 && cont b2
            then Some (((x - 224) * 64 + (v b1 - 128)) * 64 + (v b2 - 128), 3%nat)
            else None
        | _ => None
        end
      else if (240 <=? x) && (x <=? 244) then
        let lo := if x =? 240 then 144 else 128 in
        let hi := if x =? 244 then 143 else 191 in
        match r with
        | b1 :: b2 :: b3 :: _ =>
            if in_range lo hi b1 && cont b2 && cont b3
            then Some ((((x - 240) * 64 + (v b1 - 128)) * 64 + (v b2 - 128)) * 64
                       + (v b3 - 128), 4%nat)
            else None
        | _ => None
        end
      else None
  end.

(** [utf8.EncodeRune] (surrogates and out-of-range runes encode [U+FFFD]). *)
Definition EncodeRune (r : Z) : list ascii :=
  let r := if ((55296 <=? r) && (r <=? 57343)) || (1114111 <? r) || (r <? 0)
           then 65533 else r in
  if r <? 128 then [chr r]
  else if r <? 2048 then [chr (192 + r / 64); chr (128 + r mod 64)]
  else if r <? 65536 then
    [chr (224 + r / 4096); chr (128 + (r / 64) mod 64); chr (128 + r mod 64)]
  else [chr (240 + r / 262144); chr (128 + (r / 4096) mod 64);
        chr (128 + (r / 64) mod 64); chr (128 + r mod 64)].

(** ** [time.Time] from RFC 3339 text ([time/format_rfc3339.go], [time.Parse])

    An instant is the number of nanoseconds since 0001-01-01T00:00:00Z; the
    zone a parsed time carries only affects how it prints. *)

Definition is_leap (y : Z) : bool :=
  (Z.eqb (y mod 4) 0 && negb (Z.eqb (y mod 100) 0)) || Z.eqb (y mod 400) 0.

(** [daysIn]. *)
Definition daysIn (m y : Z) : Z :=
  if m =? 2 then (if is_leap y then 29 else 28)
  else if (m =? 4) || (m =? 6) || (m =? 9) || (m =? 11) then 30 else 31.

(** Days from 0001-01-01 to the given proleptic Gregorian date. *)
Definition days_from_civil (y m d : Z) : Z :=
  let y := if m <=? 2 then y - 1 else y in
  let era := y / 400 in
  let yoe := y - era * 400 in
  let doy := (153 * (if 2 <? m then m - 3 else m + 9) + 2) / 5 + d - 1 in
  let doe := yoe * 365 + yoe / 4 - yoe / 100 + doy in
  era * 146097 + doe - 719468 + 719162.

(** [time.Date(year, month, day, hour, min, sec, nsec, UTC)] for in-range
    fields, shifted by a zone offset in seconds. *)
Definition mk_time (y mo d h mi s ns off : Z) : Z :=
  ((days_from_civil y mo d * 86400 + h * 3600 + mi * 60 + s) - off) * 1000000000 + ns.

(** [parseUint] of [parseRFC3339]: a decimal field within a range. *)
Definition parseUint (s : list ascii) (lo hi : Z) : option Z :=
  if forallb is_digit s && negb (Nat.eqb (length s) 0) then
    let x := digits_value 0 s in
    if (lo <=? x) && (x <=? hi) then Some x else None
  else None.

Definition slice (l : list ascii) (i j : nat) : list ascii := firstn (j - i) (skipn i l).

Definition at_is (l : list ascii) (i : nat) (c : ascii) : bool :=
  match nth_error l i with Some x => Ascii.eqb x c | None => false end.

(** [parseNanoseconds] on a fraction [.ddd...] of [n] bytes: at most nine
    digits count. *)
Definition parseNanoseconds (s : list ascii) (n : nat) : Z :=
  let n := Nat.min n 10 in
  digits_value 0 (slice s 1 n) * 10 ^ (10 - Z.of_nat n).

(** The optional fractional second: its nanoseconds and the rest. *)
Definition parse_frac (commaOK : bool) (s : list ascii) : Z * list ascii :=
  match s with
  | c :: d :: _ =>
      if (Ascii.eqb c "." || (commaOK && Ascii.eqb c ","))%bool && is_digit d then
        let n := (1 + length (fst (take_digits (tl s))))%nat in
        (parseNanoseconds s n, skipn n s)
      else (0, s)
  | _ => (0, s)
  end.

(** [parseRFC3339], the fast path. *)
Definition parseRFC3339 (s : list ascii) : option Z :=
  if Nat.ltb (length s) 19 then None else
  match parseUint (slice s 0 4) 0 9999, parseUint (slice s 5 7) 1 12 with
  | Some year, Some month =>
      match parseUint (slice s 8 10) 1 (daysIn month year),
            parseUint (slice s 11 13) 0 23, parseUint (slice s 14 16) 0 59,
            parseUint (slice s 17 19) 0 59 with
      | Some day, Some hour, Some min, Some sec =>
          if at_is s 4 "-" && at_is s 7 "-" && at_is s 10 "T" && at_is s 13 ":"
             && at_is s 16 ":" then
            let '(nsec, z) := parse_frac false (skipn 19 s) in
            let t off := Some (mk_time year month day hour min sec nsec off) in
            match z with
            | ["Z"%char] => t 0
            | [sg; _; _; c; _; _] =>
                match parseUint (slice z 1 3) 0 23, parseUint (slice z 4 6) 0 59 with
                | Some hr, Some mm =>
                    if (Ascii.eqb sg "-" || Ascii.eqb sg "+")%bool && Ascii.eqb c ":" then
                      t (if Ascii.eqb sg "-" then - ((hr * 60 + mm) * 60)
                         else (hr * 60 + mm) * 60)
                    else None
                | _, _ => None
                end
            | _ => None
            end
          else None
      | _, _, _, _ => None
      end
  | _, _ => None
  end.

(** [time.Parse(time.RFC3339, s)], the fallback: the layout
    [2006-01-02T15:04:05Z07:00] also takes a one-digit hour, a fraction
    after a comma, and zone offsets up to [24:60]. *)
Definition parse_layout_RFC3339 (s : list ascii) : option Z :=
  let hour_len := if (match nth_error s 12 with Some c => is_digit c | None => false end)
                  then 2%nat else 1%nat in
  let h_end := (11 + hour_len)%nat in
  if Nat.ltb (length s) (h_end + 6) then None else
  match parseUint (slice s 0 4) 0 9999, parseUint (slice s 5 7) 1 12,
        parseUint (slice s 8 10) 1 31, parseUint (slice s 11 h_end) 0 23,
        parseUint (slice s (h_end + 1) (h_end + 3)) 0 59,
        parseUint (slice s (h_end + 4) (h_end + 6)) 0 59 with
  | Some year, Some month, Some day, Some hour, Some min, Some sec =>
      if at_is s 4 "-" && at_is s 7 "-" && at_is s 10 "T" && at_is s h_end ":"
         && at_is s (h_end + 3) ":" && (day <=? daysIn month year) then
        let '(nsec, z) := parse_frac true (skipn (h_end + 6) s) in
        let t off := Some (mk_time year month day hour min sec nsec off) in
        match z with
        | ["Z"%char] => t 0
        | [sg; _; _; c; _; _] =>
            match parseUint (slice z 1 3) 0 24, parseUint (slice z 4 6) 0 60 with
            | Some hr, Some mm =>
                if (Ascii.eqb sg "-" || Ascii.eqb sg "+")%bool && Ascii.eqb c ":" then
                  t (if Ascii.eqb sg "-" then - ((hr * 60 + mm) * 60)
                     else (hr * 60 + mm) * 60)
                else None
            | _, _ => None
            end
        | _ => None
        end
      else None
  | _, _, _, _, _, _ => None
  end.

(** [parseStrictRFC3339] (its extra checks are disabled in Go 1.22). *)
Definition parseStrictRFC3339 (s : list ascii) : option Z :=
  match parseRFC3339 s with
  | Some t => Some t
  | None => parse_layout_RFC3339 s
  end.

(** [time.Time]'s [UnmarshalJSON] on the raw text of a JSON value. *)
Definition Time_UnmarshalJSON (cur : Z) (raw : list ascii) : option Z :=
  if List.list_eq_dec ascii_dec raw (list_ascii_of_string "null") then Some cur else
  match raw with
  | q :: (_ :: _) as rest =>
      if Ascii.eqb q "034"%char && Ascii.eqb (List.last rest q) "034"%char
      then parseStrictRFC3339 (removelast rest)
      else None
  | _ => None
  end.

(** ** JSON text ([encoding/json])

    [json.Unmarshal] first checks that its input is one JSON value (with
    surrounding white space only) and then decodes it into the Go value
    following the Go type; this is modelled as a parse into [JValue]
    followed by one decoder per Go type.  Numbers keep their literal text,
    strings are unquoted, and object members keep the raw text of their
    value, which [json.RawMessage] and [time.Time]'s [UnmarshalJSON]
    receive.  The model follows Go 1.22. *)

Module Json.

Inductive JValue :=
| JNull
| JBool (b : bool)
| JNum (lit : list ascii)
| JStr (s : string)
| JArr (l : list JValue)
| JObj (kv : list (string * list ascii * JValue)).

Definition is_ws (c : ascii) : bool :=
  match nat_of_ascii c with 32 | 9 | 10 | 13 => true | _ => false end%nat.

Fixpoint skip_ws (l : list ascii) : list ascii :=
  match l with c :: r => if is_ws c then skip_ws r else l | [] => [] end.

(** The number grammar [-?(0|[1-9][0-9]* )(.[0-9]+)?([eE][+-]?[0-9]+)?]:
    the literal and the rest of the input. *)
Definition lex_number (l : list ascii) : option (list ascii * list ascii) :=
  let '(sgn, l1) := match l with "-"%char :: r => (["-"%char], r) | _ => ([], l) end in
  let int_part :=
    match l1 with
    | "0"%char :: r => Some (["0"%char], r)
    | c :: _ => if is_digit c then Some (take_digits l1) else None
    | [] => None
    end in
  match int_part with
  | None => None
  | Some (ip, l2) =>
      let frac :=
        match l2 with
        | "."%char :: r =>
            match take_digits r with
            | ([], _) => None
            | (ds, r') => Some ("."%char :: ds, r')
            end
        | _ => Some ([], l2)
        end in
      match frac with
      | None => None
      | Some (fp, l3) =>
          let exp :=
            match l3 with
            | e :: r =>
                if (Ascii.eqb e "e" || Ascii.eqb e "E")%bool then
                  let '(es, r1) :=
                    match r with
                    | "+"%char :: r' => (["+"%char], r')
                    | "-"%char :: r' => (["-"%char], r')
                    | _ => ([], r)
                    end in
                  match take_digits r1 with
                  | ([], _) => None
                  | (ds, r2) => Some (e :: es ++ ds, r2)
                  end
                else Some ([], l3)
            | [] => Some ([], l3)
            end in
          match exp with
          | None => None
          | Some (ep, l4) => Some (sgn ++ ip ++ fp ++ ep, l4)
          end
      end
  end.

Definition hex_val (c : ascii) : option Z :=
  let n := byte_val c in
  if (48 <=? n) && (n <=? 57) then Some (n - 48)
  else if (97 <=? n) && (n <=? 102) then Some (n - 87)
  else if (65 <=? n) && (n <=? 70) then Some (n - 55)
  else None.

(** [getu4]: the value of [\uXXXX] at the head of the input. *)
Definition getu4 (l : list ascii) : option Z :=
  match l with
  | "\"%char :: "u"%char :: a :: b :: c :: d :: _ =>
      match hex_val a, hex_val b, hex_val c, hex_val d with
      | Some a, Some b, Some c, Some d => Some (((a * 16 + b) * 16 + c) * 16 + d)
      | _, _, _, _ => None
      end
  | _ => None
  end.

Definition is_surrogate (r : Z) : bool := (55296 <=? r) && (r <? 57344).

(** [utf16.DecodeRune] on a surrogate pair, [U+FFFD] otherwise. *)
Definition utf16_decode (r1 r2 : Z) : Z :=
  if (55296 <=? r1) && (r1 <? 56320) && (56320 <=? r2) && (r2 <? 57344)
  then (r1 - 55296) * 1024 + (r2 - 56320) + 65536
  else 65533.

Definition quote : ascii := "034"%char.
Definition backslash : ascii := "092"%char.

(** Scanning and unquoting of a string literal after its opening quote
    ([checkValid]'s string states and [unquote]): the unquoted bytes and
    the input after the closing quote. *)
Fixpoint lex_string (fuel : nat) (l acc : list ascii) : option (list ascii * list ascii) :=
  match fuel with
  | O => None
  | S f =>
      match l with
      | [] => None
      | c :: r =>
          if Ascii.eqb c quote then Some (rev acc, r)
          else if Ascii.eqb c backslash then
            match r with
            | [] => None
            | e :: r' =>
                let n := byte_val e in
                if (n =? 34) || (n =? 92) || (n =? 47) then lex_string f r' (e :: acc)
                else if n =? 98 then lex_string f r' (chr 8 :: acc)
                else if n =? 102 then lex_string f r' (chr 12 :: acc)
                else if n =? 110 then lex_string f r' (chr 10 :: acc)
                else if n =? 114 then lex_string f r' (chr 13 :: acc)
                else if n =? 116 then lex_string f r' (chr 9 :: acc)
                else if n =? 117 then
                  match getu4 l with
                  | None => None
                  | Some rr =>
                      let r6 := skipn 6 l in
                      if is_surrogate rr then
                        match getu4 r6 with
                        | Some rr1 =>
                            let dec := utf16_decode rr rr1 in
                            if dec =? 65533
                            then lex_string f r6 (rev (EncodeRune 65533) ++ acc)
                            else lex_string f (skipn 6 r6) (rev (EncodeRune dec) ++ acc)
                        | None => lex_string f r6 (rev (EncodeRune 65533) ++ acc)
                        end
                      else lex_string f r6 (rev (EncodeRune rr) ++ acc)
                  end
                else None
            end
          else if byte_val c <? 32 then None
          else if byte_val c <? 128 then lex_string f r (c :: acc)
          else
            match DecodeRune l with
            | Some (_, n) => lex_string f (skipn n l) (rev (firstn n l) ++ acc)
            | None => lex_string f r (rev (EncodeRune 65533) ++ acc)
            end
      end
  end.

Definition lex_string_top (r : list ascii) : option (string * list ascii) :=
  match lex_string (S (length r)) r [] with
  | Some (s, r') => Some (string_of_list_ascii s, r')
  | None => None
  end.

Fixpoint pv (fuel : nat) (l : list ascii) {struct fuel} : option (JValue * list ascii) :=
  match fuel with
  | O => None
  | S f =>
      match l with
      | "{"%char :: r =>
          match skip_ws r with
          | "}"%char :: r' => Some (JObj [], r')
          | r' => pmembers f r' []
          end
      | "["%char :: r =>
          match skip_ws r with
          | "]"%char :: r' => Some (JArr [], r')
          | r' => pelems f r' []
          end
      | "t"%char :: "r"%char :: "u"%char :: "e"%char :: r => Some (JBool true, r)
      | "f"%char :: "a"%char :: "l"%char :: "s"%char :: "e"%char :: r => Some (JBool false, r)
      | "n"%char :: "u"%char :: "l"%char :: "l"%char :: r => Some (JNull, r)
      | c :: r =>
          if Ascii.eqb c quote then
            match lex_string_top r with
            | Some (s, r') => Some (JStr s, r')
            | None => None
            end
          else
            match lex_number l with
            | Some (lit, r') => Some (JNum lit, r')
            | None => None
            end
      | [] => None
      end
  end
with pmembers (fuel : nat) (l : list ascii) (acc : list (string * list ascii * JValue))
  {struct fuel} : option (JValue * list ascii) :=
  match fuel with
  | O => None
  | S f =>
      match l with
      | c :: r =>
          if Ascii.eqb c quote then
            match lex_string_top r with
            | Some (k, r1) =>
                match skip_ws r1 with
                | ":"%char :: r2 =>
                    let r2' := skip_ws r2 in
                    match pv f r2' with
                    | Some (v, r3) =>
                        let raw := firstn (length r2' - length r3) r2' in
                        let acc' := (k, raw, v) :: acc in
                        match skip_ws r3 with
                        | ","%char :: r4 => pmembers f (skip_ws r4) acc'
                        | "}"%char :: r4 => Some (JObj (rev acc'), r4)
                        | _ => None
                        end
                    | None => None
                    end
                | _ => None
                end
            | None => None
            end
          else None
      | [] => None
      end
  end
with pelems (fuel : nat) (l : list ascii) (acc : list JValue)
  {struct fuel} : option (JValue * list ascii) :=
  match fuel with
  | O => None
  | S f =>
      match pv f l with
      | Some (v, r) =>
          match skip_ws r with
          | ","%char :: r' => pelems f (skip_ws r') (v :: acc)
          | "]"%char :: r' => Some (JArr (rev (v :: acc)), r')
          | _ => None
          end
      | None => None
      end
  end.

(** The validity check and parse done by [json.Unmarshal]: one value with
    surrounding white space only ([Unmarshal(nil)] is an error too). *)
Definition parse (l : list ascii) : option JValue :=
  let l' := skip_ws l in
  match pv (2 * length l' + 2) l' with
  | Some (v, r) => match skip_ws r with [] => Some v | _ => None end
  | None => None
  end.

Definition parse_string (s : string) : option JValue := parse (list_ascii_of_string s).

(** *** Field names: exact match first, then [foldName] of Go 1.22's
    [fold.go], which maps each rune [r] to [ToUpper(ToLower(r))].  The four
    runes beyond ASCII that fold to an ASCII letter are U+0130 and U+0131
    (to [I]), U+017F (to [S]) and U+212A (to [K]); a key with any other
    non-ASCII rune matches no ASCII field name, which is [None] here. *)
Fixpoint fold_go (fuel : nat) (l : list ascii) : option (list ascii) :=
  match fuel with
  | O => Some []
  | S f =>
      match l with
      | [] => Some []
      | c :: r =>
          let n := byte_val c in
          if n <? 128 then
            let c' := if (97 <=? n) && (n <=? 122) then chr (n - 32) else c in
            option_map (cons c') (fold_go f r)
          else
            match DecodeRune l with
            | Some (rr, w) =>
                let up := if (rr =? 304) || (rr =? 305) then Some "I"%char
                          else if rr =? 383 then Some "S"%char
                          else if rr =? 8490 then Some "K"%char else None in
                match up with
                | Some c' => option_map (cons c') (fold_go f (skipn w l))
                | None => None
                end
            | None => None
            end
      end
  end.

Definition foldName (s : string) : option (list ascii) :=
  let l := list_ascii_of_string s in fold_go (length l) l.

(** The field a JSON key selects among the (ASCII) JSON names of a struct. *)
Definition lookup_field (names : list string) (k : string) : option string :=
  if existsb (String.eqb k) names then Some k
  else match foldName k with
       | None => None
       | Some fk =>
           find (fun n => match foldName n with
                          | Some fn => if List.list_eq_dec ascii_dec fn fk then true else false
                          | None => false
                          end) names
       end.

(** A struct decoder ([decodeState.object]) updates, member by member, the
    field the key selects and skips unknown keys; any member that does not
    decode makes [json.Unmarshal] fail.  As the fields are independent, the
    final value of a field is the fold of its decoder over the members that
    select it, in order, which is what [field_fold] computes; a struct
    decoder below combines its fields with the option monad, and [null]
    leaves the struct as it is. *)
Definition field_fold {A} (names : list string) (name : string)
    (dec : A -> list ascii -> JValue -> option A)
    (cur : A) (kv : list (string * list ascii * JValue)) : option A :=
  fold_left (fun acc '(k, raw, jv) =>
    match acc with
    | None => None
    | Some a => if bool_decide (lookup_field names k = Some name)
                then dec a raw jv else Some a
    end) kv (Some cur).

(** *** Scalars ([literalStore]); [null] leaves the value as it is. *)
Definition dec_string (cur : string) (v : JValue) : option string :=
  match v with JNull => Some cur | JStr s => Some s | _ => None end.

Definition dec_bool (cur : bool) (v : JValue) : option bool :=
  match v with JNull => Some cur | JBool b => Some b | _ => None end.

(** [strconv.ParseInt(lit, 10, 64)] on a JSON number literal. *)
Definition ParseInt (lit : list ascii) : option Z :=
  let '(neg, ds) := match lit with "-"%char :: r => (true, r) | _ => (false, lit) end in
  if forallb is_digit ds && negb (Nat.eqb (length ds) 0) then
    let x := if neg then - digits_value 0 ds else digits_value 0 ds in
    if (- 2 ^ 63 <=? x) && (x <? 2 ^ 63) then Some x else None
  else None.

Definition dec_int (cur : Z) (v : JValue) : option Z :=
  match v with JNull => Some cur | JNum lit => ParseInt lit | _ => None end.

Definition dec_float (cur : F64) (v : JValue) : option F64 :=
  match v with JNull => Some cur | JNum lit => ParseFloat lit | _ => None end.

(** *** [[]byte]: base64 text ([base64.StdEncoding.Decode], which skips
    [\r] and [\n] and wants the padding) or an array of numbers. *)
Definition b64_val (c : ascii) : option Z :=
  let n := byte_val c in
  if (65 <=? n) && (n <=? 90) then Some (n - 65)
  else if (97 <=? n) && (n <=? 122) then Some (n - 71)
  else if (48 <=? n) && (n <=? 57) then Some (n + 4)
  else if n =? 43 then Some 62
  else if n =? 47 then Some 63
  else None.

Definition byte_of_Z (n : Z) : byte :=
  match Byte.of_N (Z.to_N (n mod 256)) with Some b => b | None => x00 end.

Fixpoint b64_decode (l : list ascii) : option (list byte) :=
  match l with
  | [] => Some []
  | a :: b :: c :: d :: r =>
      match b64_val a, b64_val b with
      | Some va, Some vb =>
          let b0 := byte_of_Z (va * 4 + vb / 16) in
          if Ascii.eqb c "=" then
            if Ascii.eqb d "=" then (match r with [] => Some [b0] | _ => None end)
            else None
          else match b64_val c with
               | None => None
               | Some vc =>
                   let b1 := byte_of_Z ((vb mod 16) * 16 + vc / 4) in
                   if Ascii.eqb d "=" then (match r with [] => Some [b0; b1] | _ => None end)
                   else match b64_val d with
                        | None => None
                        | Some vd =>
                            option_map (fun t => b0 :: b1 :: byte_of_Z ((vc mod 4) * 64 + vd) :: t)
                              (b64_decode r)
                        end
               end
      | _, _ => None
      end
  | _ => None
  end.

Definition StdEncoding_Decode (s : string) : option (list byte) :=
  b64_decode (filter (fun c => negb (Ascii.eqb c "010"%char || Ascii.eqb c "013"%char))
                (list_ascii_of_string s)).

(** A [uint8] element: [strconv.ParseUint] and the 8-bit overflow check. *)
Definition dec_uint8 (cur : byte) (v : JValue) : option byte :=
  match v with
  | JNull => Some cur
  | JNum lit =>
      if forallb is_digit lit && negb (Nat.eqb (length lit) 0) then
        let x := digits_value 0 lit in
        if x <? 256 then Some (byte_of_Z x) else None
      else None
  | _ => None
  end.

(** A slice decoded in place ([decodeState.array]): element [i] is decoded
    into the current element [i] when there is one, into the zero value
    otherwise; [null] is the nil slice ([None]), [[]] an empty one.
    (Elements past the length but within the capacity of a slice that is
    decoded twice are not modelled: they start from the zero value.) *)
Definition dec_slice {T} (dec : T -> JValue -> option T) (zero : T)
    (cur : option (list T)) (v : JValue) : option (option (list T)) :=
  match v with
  | JNull => Some None
  | JArr l =>
      let old := match cur with Some o => o | None => [] end in
      let fix go (i : nat) (l : list JValue) : option (list T) :=
        match l with
        | [] => Some []
        | x :: r =>
            match dec (nth i old zero) x, go (S i) r with
            | Some y, Some ys => Some (y :: ys)
            | _, _ => None
            end
        end in
      option_map Some (go O l)
  | _ => None
  end.

Definition dec_bytes (cur : list byte) (v : JValue) : option (list byte) :=
  match v with
  | JNull => Some []
  | JStr s => StdEncoding_Decode s
  | JArr _ =>
      match dec_slice dec_uint8 x00 (Some cur) v with
      | Some (Some l) => Some l
      | Some None => Some []
      | None => None
      end
  | _ => None
  end.

(** [map[string][]string]: each member is decoded into a fresh [[]string]
    and stored, merging into the current map; [null] is the nil map. *)
Definition dec_header (cur : gmap string (list string)) (v : JValue)
    : option (gmap string (list string)) :=
  match v with
  | JNull => Some ∅
  | JObj kv =>
      fold_left (fun acc '(k, _, jv) =>
        match acc, dec_slice dec_string "" None jv with
        | Some m, Some vs => Some (<[k := match vs with Some l => l | None => [] end]> m)
        | _, _ => None
        end) kv (Some cur)
  | _ => None
  end.

(** *** [interface{}] ([decodeState.valueInterface]): JSON numbers become
    [float64], objects [map[string]interface{}] (the last duplicate key
    wins) and arrays [[]interface{}]; the value is built afresh. *)
Inductive GoAny :=
| ANil
| ABool (b : bool)
| AFloat (f : F64)
| AString (s : string)
| ASlice (l : list GoAny)
| AMap (kv : list (string * GoAny)).

Fixpoint assoc_set {A} (k : string) (a : A) (l : list (string * A)) : list (string * A) :=
  match l with
  | [] => [(k, a)]
  | (k', a') :: r => if String.eqb k k' then (k, a) :: r else (k', a') :: assoc_set k a r
  end.

Fixpoint dec_any (v : JValue) : option GoAny :=
  match v with
  | JNull => Some ANil
  | JBool b => Some (ABool b)
  | JNum lit => option_map AFloat (ParseFloat lit)
  | JStr s => Some (AString s)
  | JArr l =>
      let fix go l := match l with
                      | [] => Some []
                      | x :: r => match dec_any x, go r with
                                  | Some y, Some ys => Some (y :: ys)
                                  | _, _ => None
                                  end
                      end in
      option_map ASlice (go l)
  | JObj kv =>
      let fix go (acc : list (string * GoAny)) kv :=
        match kv with
        | [] => Some acc
        | (k, _, x) :: r => match dec_any x with
                            | Some y => go (assoc_set k y acc) r
                            | None => None
                            end
        end in
      option_map AMap (go [] kv)
  end.

End Json.

(** ** Decoding the tape's types ([tape.go]) *)

Import Json.

(** [type TapeEvent struct]; [Data] is a [json.RawMessage], the raw text of
    the member's value ([[]] when absent, i.e. nil). *)
Record TapeEvent := mkTapeEvent {
  ev_Timestamp : Time;
  ev_Type : string;
  ev_Sequence : Z;
  ev_Data : list ascii
}.

Definition zeroTapeEvent : TapeEvent := mkTapeEvent 0 "" 0 [].

Definition EventSessionStart : string := "session_start".
Definition EventRequestStart : string := "request_start".
Definition EventRequestUpdate : string := "request_update".
Definition EventRequestComplete : string := "request_complete".
Definition EventSessionEnd : string := "session_end".

Definition dec_time (c : Time) (raw : list ascii) (_ : JValue) : option Time :=
  Time_UnmarshalJSON c raw.
Definition dec_str (c : string) (_ : list ascii) (j : JValue) : option string := dec_string c j.
Definition dec_i (c : Z) (_ : list ascii) (j : JValue) : option Z := dec_int c j.
Definition dec_b (c : bool) (_ : list ascii) (j : JValue) : option bool := dec_bool c j.
Definition dec_f (c : F64) (_ : list ascii) (j : JValue) : option F64 := dec_float c j.

Definition TapeEvent_names : list string := ["timestamp"; "type"; "seq"; "data"].

Definition dec_TapeEvent (cur : TapeEvent) (v : JValue) : option TapeEvent :=
  match v with
  | JNull => Some cur
  | JObj kv =>
      let ff {A} n (d : A -> list ascii -> JValue -> option A) c :=
        field_fold TapeEvent_names n d c kv in
      ts ← ff "timestamp" dec_time (ev_Timestamp cur);
      ty ← ff "type" dec_str (ev_Type cur);
      sq ← ff "seq" dec_i (ev_Sequence cur);
      d ← ff "data" (fun _ raw _ => Some raw) (ev_Data cur);
      Some (mkTapeEvent ts ty sq d)
  | _ => None
  end.

(** [json.Unmarshal(line, &event)] into a fresh [TapeEvent]. *)
Definition Unmarshal_TapeEvent (l : list ascii) : option TapeEvent :=
  v ← parse l; dec_TapeEvent zeroTapeEvent v.

(** [type TapeSessionData struct]. *)
Record TapeSessionData := mkTapeSessionData {
  ts_ListenAddr : string;
  ts_TargetURL : string;
  ts_StartTime : Time;
  ts_Version : string
}.

Definition zeroTapeSessionData : TapeSessionData := mkTapeSessionData "" "" 0 "".

Definition TapeSessionData_names : list string :=
  ["listen_addr"; "target_url"; "start_time"; "version"].

Definition dec_TapeSessionData (cur : TapeSessionData) (v : JValue)
    : option TapeSessionData :=
  match v with
  | JNull => Some cur
  | JObj kv =>
      let ff {A} n (d : A -> list ascii -> JValue -> option A) c :=
        field_fold TapeSessionData_names n d c kv in
      la ← ff "listen_addr" dec_str (ts_ListenAddr cur);
      tu ← ff "target_url" dec_str (ts_TargetURL cur);
      st ← ff "start_time" dec_time (ts_StartTime cur);
      ve ← ff "version" dec_str (ts_Version cur);
      Some (mkTapeSessionData la tu st ve)
  | _ => None
  end.

Definition Unmarshal_TapeSessionData (l : list ascii) : option TapeSessionData :=
  v ← parse l; dec_TapeSessionData zeroTapeSessionData v.

Definition TapeRequestData_names : list string :=
  ["id"; "method"; "path"; "host"; "url"; "model"; "status"; "status_code";
   "start_time"; "duration"; "request_headers"; "response_headers";
   "request_body"; "response_body"; "request_size"; "response_size";
   "is_streaming"; "estimated_input_tokens"; "input_tokens"; "output_tokens";
   "provider_id"; "cost"].

Definition dec_TapeRequestData (cur : TapeRequestData) (v : JValue)
    : option TapeRequestData :=
  match v with
  | JNull => Some cur
  | JObj kv =>
      let ff {A} n (d : A -> list ascii -> JValue -> option A) c :=
        field_fold TapeRequestData_names n d c kv in
      id ← ff "id" dec_i (td_ID cur);
      me ← ff "method" dec_str (td_Method cur);
      pa ← ff "path" dec_str (td_Path cur);
      ho ← ff "host" dec_str (td_Host cur);
      ur ← ff "url" dec_str (td_URL cur);
      mo ← ff "model" dec_str (td_Model cur);
      st ← ff "status" dec_i (td_Status cur);
      sc ← ff "status_code" dec_i (td_StatusCode cur);
      t0 ← ff "start_time" dec_time (td_StartTime cur);
      du ← ff "duration" dec_i (td_Duration cur);
      qh ← ff "request_headers" (fun c _ j => dec_header c j) (td_RequestHeaders cur);
      rh ← ff "response_headers" (fun c _ j => dec_header c j) (td_ResponseHeaders cur);
      qb ← ff "request_body" (fun c _ j => dec_bytes c j) (td_RequestBody cur);
      rb ← ff "response_body" (fun c _ j => dec_bytes c j) (td_ResponseBody cur);
      qs ← ff "request_size" dec_i (td_RequestSize cur);
      rs ← ff "response_size" dec_i (td_ResponseSize cur);
      is ← ff "is_streaming" dec_b (td_IsStreaming cur);
      ei ← ff "estimated_input_tokens" dec_i (td_EstimatedInputTokens cur);
      it ← ff "input_tokens" dec_i (td_InputTokens cur);
      ot ← ff "output_tokens" dec_i (td_OutputTokens cur);
      pr ← ff "provider_id" dec_str (td_ProviderID cur);
      co ← ff "cost" dec_f (td_Cost cur);
      Some (mkTapeRequestData id me pa ho ur mo st sc t0 du qh rh qb rb qs rs is
              ei it ot pr co)
  | _ => None
  end.

(** [json.Unmarshal(event.Data, &reqData)] into a fresh [TapeRequestData]. *)
Definition Unmarshal_TapeRequestData (l : list ascii) : option TapeRequestData :=
  v ← parse l; dec_TapeRequestData zeroTapeRequestData v.



(** ** Request bodies of the two API dialects ([types.go]) *)

(** [type ToolCallFunction struct]. *)
Record ToolCallFunction := mkToolCallFunction { tf_Name : string; tf_Arguments : string }.

(** [type ToolCall struct]. *)
Record ToolCall := mkToolCall {
  tc_ID : string;
  tc_Type : string;
  tc_Index : Z;
  tc_Function : ToolCallFunction
}.

(** [type OpenAIMessage struct]; a slice is [None] when nil. *)
Record OpenAIMessage := mkOpenAIMessage {
  om_Role : string;
  om_Content : GoAny;
  om_Name : string;
  om_ToolCalls : option (list ToolCall);
  om_ToolCallID : string
}.

(** [type OpenAIRequest struct]. *)
Record OpenAIRequest := mkOpenAIRequest {
  or_Model : string;
  or_Messages : option (list OpenAIMessage);
  or_Temperature : F64;
  or_MaxTokens : Z;
  or_Stream : bool
}.

(** [type AnthropicMessage struct]. *)
Record AnthropicMessage := mkAnthropicMessage { am_Role : string; am_Content : GoAny }.

(** [type AnthropicRequest struct]. *)
Record AnthropicRequest := mkAnthropicRequest {
  ar_Model : string;
  ar_Messages : option (list AnthropicMessage);
  ar_System : GoAny;
  ar_MaxTokens : Z;
  ar_Stream : bool;
  ar_Temperature : F64
}.

Definition zeroToolCall : ToolCall := mkToolCall "" "" 0 (mkToolCallFunction "" "").
Definition zeroOpenAIMessage : OpenAIMessage := mkOpenAIMessage "" ANil "" None "".
Definition zeroOpenAIRequest : OpenAIRequest := mkOpenAIRequest "" None f64_zero 0 false.
Definition zeroAnthropicMessage : AnthropicMessage := mkAnthropicMessage "" ANil.
Definition zeroAnthropicRequest : AnthropicRequest :=
  mkAnthropicRequest "" None ANil 0 false f64_zero.

Definition dec_ToolCallFunction (cur : ToolCallFunction) (v : JValue) : option ToolCallFunction :=
  match v with
  | JNull => Some cur
  | JObj kv =>
      let ff {A} n (d : A -> list ascii -> JValue -> option A) c :=
        field_fold ["name"; "arguments"] n d c kv in
      na ← ff "name" dec_str (tf_Name cur);
      ar ← ff "arguments" dec_str (tf_Arguments cur);
      Some (mkToolCallFunction na ar)
  | _ => None
  end.

Definition dec_ToolCall (cur : ToolCall) (v : JValue) : option ToolCall :=
  match v with
  | JNull => Some cur
  | JObj kv =>
      let ff {A} n (d : A -> list ascii -> JValue -> option A) c :=
        field_fold ["id"; "type"; "index"; "function"] n d c kv in
      id ← ff "id" dec_str (tc_ID cur);
      ty ← ff "type" dec_str (tc_Type cur);
      ix ← ff "index" dec_i (tc_Index cur);
      fn ← ff "function" (fun c _ j => dec_ToolCallFunction c j) (tc_Function cur);
      Some (mkToolCall id ty ix fn)
  | _ => None
  end.

Definition dec_OpenAIMessage (cur : OpenAIMessage) (v : JValue) : option OpenAIMessage :=
  match v with
  | JNull => Some cur
  | JObj kv =>
      let ff {A} n (d : A -> list ascii -> JValue -> option A) c :=
        field_fold ["role"; "content"; "name"; "tool_calls"; "tool_call_id"] n d c kv in
      ro ← ff "role" dec_str (om_Role cur);
      co ← ff "content" (fun _ _ j => dec_any j) (om_Content cur);
      na ← ff "name" dec_str (om_Name cur);
      tc ← ff "tool_calls" (fun c _ j => dec_slice dec_ToolCall zeroToolCall c j)
             (om_ToolCalls cur);
      ti ← ff "tool_call_id" dec_str (om_ToolCallID cur);
      Some (mkOpenAIMessage ro co na tc ti)
  | _ => None
  end.

Definition dec_OpenAIRequest (cur : OpenAIRequest) (v : JValue) : option OpenAIRequest :=
  match v with
  | JNull => Some cur
  | JObj kv =>
      let ff {A} n (d : A -> list ascii -> JValue -> option A) c :=
        field_fold ["model"; "messages"; "temperature"; "max_tokens"; "stream"] n d c kv in
      mo ← ff "model" dec_str (or_Model cur);
      ms ← ff "messages" (fun c _ j => dec_slice dec_OpenAIMessage zeroOpenAIMessage c j)
             (or_Messages cur);
      te ← ff "temperature" dec_f (or_Temperature cur);
      mt ← ff "max_tokens" dec_i (or_MaxTokens cur);
      st ← ff "stream" dec_b (or_Stream cur);
      Some (mkOpenAIRequest mo ms te mt st)
  | _ => None
  end.

Definition dec_AnthropicMessage (cur : AnthropicMessage) (v : JValue) : option AnthropicMessage :=
  match v with
  | JNull => Some cur
  | JObj kv =>
      let ff {A} n (d : A -> list ascii -> JValue -> option A) c :=
        field_fold ["role"; "content"] n d c kv in
      ro ← ff "role" dec_str (am_Role cur);
      co ← ff "content" (fun _ _ j => dec_any j) (am_Content cur);
      Some (mkAnthropicMessage ro co)
  | _ => None
  end.

Definition dec_AnthropicRequest (cur : AnthropicRequest) (v : JValue) : option AnthropicRequest :=
  match v with
  | JNull => Some cur
  | JObj kv =>
      let ff {A} n (d : A -> list ascii -> JValue -> option A) c :=
        field_fold ["model"; "messages"; "system"; "max_tokens"; "stream"; "temperature"]
          n d c kv in
      mo ← ff "model" dec_str (ar_Model cur);
      ms ← ff "messages" (fun c _ j => dec_slice dec_AnthropicMessage zeroAnthropicMessage c j)
             (ar_Messages cur);
      sy ← ff "system" (fun _ _ j => dec_any j) (ar_System cur);
      mt ← ff "max_tokens" dec_i (ar_MaxTokens cur);
      st ← ff "stream" dec_b (ar_Stream cur);
      te ← ff "temperature" dec_f (ar_Temperature cur);
      Some (mkAnthropicRequest mo ms sy mt st te)
  | _ => None
  end.

Definition Unmarshal_OpenAIRequest (l : list ascii) : option OpenAIRequest :=
  v ← parse l; dec_OpenAIRequest zeroOpenAIRequest v.

Definition Unmarshal_AnthropicRequest (l : list ascii) : option AnthropicRequest :=
  v ← parse l; dec_AnthropicRequest zeroAnthropicRequest v.


(** ** [json.Marshal] of the normalised requests ([encode.go]) *)

Definition hexdigit (n : Z) : ascii := nth (Z.to_nat n) (list_ascii_of_string "0123456789abcdef") "0"%char.

(** [htmlSafeSet]: printable ASCII except the double quote, the backslash
    and [<], [>], [&]. *)
Definition html_safe (b : Z) : bool :=
  (32 <=? b) && (b <? 128) && negb ((b =? 34) || (b =? 92) || (b =? 60) || (b =? 62) || (b =? 38)).

(** [appendString] with [escapeHTML] (Go 1.22). *)
Fixpoint enc_str_go (fuel : nat) (l : list ascii) : list ascii :=
  match fuel with
  | O => []
  | S f =>
      match l with
      | [] => []
      | c :: r =>
          let b := byte_val c in
          if b <? 128 then
            if html_safe b then c :: enc_str_go f r
            else (if (b =? 92) || (b =? 34) then [backslash; c]
                  else if b =? 8 then [backslash; "b"%char]
                  else if b =? 12 then [backslash; "f"%char]
                  else if b =? 10 then [backslash; "n"%char]
                  else if b =? 13 then [backslash; "r"%char]
                  else if b =? 9 then [backslash; "t"%char]
                  else [backslash; "u"%char; "0"%char; "0"%char; hexdigit (b / 16); hexdigit (b mod 16)])
                 ++ enc_str_go f r
          else
            match DecodeRune l with
            | None => backslash :: list_ascii_of_string "ufffd" ++ enc_str_go f r
            | Some (rr, w) =>
                if (rr =? 8232) || (rr =? 8233) then
                  backslash :: list_ascii_of_string "u202" ++ hexdigit (rr mod 16)
                    :: enc_str_go f (skipn w l)
                else firstn w l ++ enc_str_go f (skipn w l)
            end
      end
  end.

Definition encodeString (s : string) : list ascii :=
  let l := list_ascii_of_string s in quote :: enc_str_go (length l) l ++ [quote].

Definition encodeBool (b : bool) : list ascii :=
  list_ascii_of_string (if b then "true" else "false").

Definition jkey (k : string) : list ascii := quote :: list_ascii_of_string k ++ [quote; ":"%char].

Fixpoint join (sep : list ascii) (l : list (list ascii)) : list ascii :=
  match l with
  | [] => []
  | [x] => x
  | x :: r => x ++ sep ++ join sep r
  end.

(** An [interface{}] value; map keys are written in sorted order. *)
Fixpoint encodeAny (a : GoAny) : list ascii :=
  match a with
  | ANil => list_ascii_of_string "null"
  | ABool b => encodeBool b
  | AFloat f => encodeFloat f
  | AString s => encodeString s
  | ASlice l => "["%char :: join [","%char] (map encodeAny l) ++ ["]"%char]
  | AMap kv =>
      let enc := map (fun '(k, v) => (k, encodeAny v)) kv in
      let sorted := sort_by (fun x y => String.ltb (fst x) (fst y)) enc in
      "{"%char :: join [","%char] (map (fun '(k, v) => encodeString k ++ ":"%char :: v) sorted)
        ++ ["}"%char]
  end.

Definition encodeSlice {A} (enc : A -> list ascii) (s : option (list A)) : list ascii :=
  match s with
  | None => list_ascii_of_string "null"
  | Some l => "["%char :: join [","%char] (map enc l) ++ ["]"%char]
  end.

(** A struct: its fields in order, the omitted ones left out. *)
Definition encodeStruct (fields : list (option (string * list ascii))) : list ascii :=
  "{"%char :: join [","%char]
    (map (fun '(k, v) => jkey k ++ v) (omap (fun x => x) fields)) ++ ["}"%char].

Definition encodeToolCall (t : ToolCall) : list ascii :=
  encodeStruct
    [Some ("id", encodeString (tc_ID t)); Some ("type", encodeString (tc_Type t));
     if tc_Index t =? 0 then None else Some ("index", Itoa (tc_Index t));
     Some ("function", encodeStruct
                         [Some ("name", encodeString (tf_Name (tc_Function t)));
                          Some ("arguments", encodeString (tf_Arguments (tc_Function t)))])].

Definition encodeOpenAIMessage (m : OpenAIMessage) : list ascii :=
  encodeStruct
    [Some ("role", encodeString (om_Role m)); Some ("content", encodeAny (om_Content m));
     if String.eqb (om_Name m) "" then None else Some ("name", encodeString (om_Name m));
     match om_ToolCalls m with
     | Some ((_ :: _) as l) => Some ("tool_calls", encodeSlice encodeToolCall (Some l))
     | _ => None
     end;
     if String.eqb (om_ToolCallID m) "" then None
     else Some ("tool_call_id", encodeString (om_ToolCallID m))].

Definition encodeAnthropicMessage (m : AnthropicMessage) : list ascii :=
  encodeStruct
    [Some ("role", encodeString (am_Role m)); Some ("content", encodeAny (am_Content m))].

(** The anonymous [normalized] struct of the Anthropic branch. *)
Definition marshal_anthropic_normalized (req : AnthropicRequest) : list ascii :=
  encodeStruct
    [Some ("model", encodeString (ar_Model req));
     Some ("messages", encodeSlice encodeAnthropicMessage (ar_Messages req));
     match ar_System req with ANil => None | s => Some ("system", encodeAny s) end;
     Some ("max_tokens", Itoa (ar_MaxTokens req));
     Some ("stream", encodeBool (ar_Stream req))].

(** The anonymous [normalized] struct of the OpenAI branch. *)
Definition marshal_openai_normalized (req : OpenAIRequest) : list ascii :=
  encodeStruct
    [Some ("model", encodeString (or_Model req));
     Some ("messages", encodeSlice encodeOpenAIMessage (or_Messages req));
     Some ("temperature", encodeFloat (or_Temperature req));
     Some ("max_tokens", Itoa (or_MaxTokens req));
     Some ("stream", encodeBool (or_Stream req))].


(** ** [json.Marshal] of the tape payloads ([encode.go], [base64]) *)

(** [base64.StdEncoding.Encode]: three bytes to four letters of the
    standard alphabet, the last group padded with [=]. *)
Definition b64_alphabet : list ascii :=
  list_ascii_of_string "ABCDEFGHIJKLMNOPQRSTUVWXYZabcdefghijklmnopqrstuvwxyz0123456789+/".

Definition b64_char (n : Z) : ascii := nth (Z.to_nat n) b64_alphabet "A"%char.

Definition uint_of_byte (b : byte) : Z := Z.of_N (Byte.to_N b).

Fixpoint b64_encode (src : list byte) : list ascii :=
  match src with
  | [] => []
  | s0 :: s1 :: s2 :: r =>
      let val := Z.lor (Z.lor (Z.shiftl (uint_of_byte s0) 16) (Z.shiftl (uint_of_byte s1) 8))
                   (uint_of_byte s2) in
      b64_char (Z.land (Z.shiftr val 18) 63) :: b64_char (Z.land (Z.shiftr val 12) 63)
        :: b64_char (Z.land (Z.shiftr val 6) 63) :: b64_char (Z.land val 63) :: b64_encode r
  | [s0; s1] =>
      let val := Z.lor (Z.shiftl (uint_of_byte s0) 16) (Z.shiftl (uint_of_byte s1) 8) in
      [b64_char (Z.land (Z.shiftr val 18) 63); b64_char (Z.land (Z.shiftr val 12) 63);
       b64_char (Z.land (Z.shiftr val 6) 63); "="%char]
  | [s0] =>
      let val := Z.shiftl (uint_of_byte s0) 16 in
      [b64_char (Z.land (Z.shiftr val 18) 63); b64_char (Z.land (Z.shiftr val 12) 63);
       "="%char; "="%char]
  end.

(** [encodeByteSlice]: a non-nil [[]byte] as a quoted base64 string. *)
Definition encodeByteSlice (b : list byte) : list ascii := quote :: b64_encode b ++ [quote].

(** A [map[string][]string]: keys sorted, each value list an array of
    strings (the header value lists are taken to be non-nil). *)
Definition encodeHeader (h : Header) : list ascii :=
  let sorted := sort_by (fun x y => String.ltb (fst x) (fst y)) (map_to_list h) in
  "{"%char :: join [","%char]
    (map (fun '(k, vs) => encodeString k ++ ":"%char :: encodeSlice encodeString (Some vs)) sorted)
    ++ ["}"%char].

Section TapePayload.

(** [time.Time.MarshalJSON]: RFC 3339 with nanoseconds in the time's
    location, or an error for years outside [0..9999].  The location is not
    part of the model, so the encoding is a parameter. *)
Variable MarshalTime : Time -> option (list ascii).

(** The fields of [TapeRequestData] in declaration order, with the
    [omitempty] ones left out when empty. *)
Definition tape_fields (d : TapeRequestData) (start : list ascii)
    : list (option (string * list ascii)) :=
  [Some ("id", Itoa (td_ID d));
   Some ("method", encodeString (td_Method d));
   Some ("path", encodeString (td_Path d));
   Some ("host", encodeString (td_Host d));
   Some ("url", encodeString (td_URL d));
   Some ("model", encodeString (td_Model d));
   Some ("status", Itoa (td_Status d));
   Some ("status_code", Itoa (td_StatusCode d));
   Some ("start_time", start);
   Some ("duration", Itoa (td_Duration d));
   if decide (td_RequestHeaders d = ∅) then None
   else Some ("request_headers", encodeHeader (td_RequestHeaders d));
   if decide (td_ResponseHeaders d = ∅) then None
   else Some ("response_headers", encodeHeader (td_ResponseHeaders d));
   match td_RequestBody d with
   | [] => None
   | b => Some ("request_body", encodeByteSlice b)
   end;
   match td_ResponseBody d with
   | [] => None
   | b => Some ("response_body", encodeByteSlice b)
   end;
   Some ("request_size", Itoa (td_RequestSize d));
   Some ("response_size", Itoa (td_ResponseSize d));
   Some ("is_streaming", encodeBool (td_IsStreaming d));
   if td_EstimatedInputTokens d =? 0 then None
   else Some ("estimated_input_tokens", Itoa (td_EstimatedInputTokens d));
   if td_InputTokens d =? 0 then None else Some ("input_tokens", Itoa (td_InputTokens d));
   if td_OutputTokens d =? 0 then None else Some ("output_tokens", Itoa (td_OutputTokens d));
   if String.eqb (td_ProviderID d) "" then None
   else Some ("provider_id", encodeString (td_ProviderID d));
   if f_mant (td_Cost d) =? 0 then None else Some ("cost", encodeFloat (td_Cost d))].

(** [json.Marshal(data)] for a [TapeRequestData]; [None] is its error. *)
Definition Marshal_TapeRequestData (d : TapeRequestData) : option (list ascii) :=
  match MarshalTime (td_StartTime d) with
  | None => None
  | Some start => Some (encodeStruct (tape_fields d start))
  end.

(** The [dataJSON] that [WriteEvent] writes for [WriteRequestStart],
    [WriteRequestUpdate] and [WriteRequestComplete]: [json.Marshal] of
    [requestToTapeData(req)]; [None] when the marshalling fails and nothing
    is written. *)
Definition request_payload (req : LLMRequest) : option (list ascii) :=
  Marshal_TapeRequestData (requestToTapeData req).

End TapePayload.


(** ** [crypto/sha256] and [encoding/hex] *)

Module SHA256.

(** The primes below [n], by trial division. *)
Definition primes_below (n : nat) : list Z :=
  List.filter (fun k => forallb (fun d => negb (k mod d =? 0)) (map Z.of_nat (seq 2 (Z.to_nat k - 2))))
    (map Z.of_nat (seq 2 (n - 2))).

(** The largest [x] in [[lo, hi)] with [x ^ 3 <= n], by bisection. *)
Fixpoint icbrt_go (fuel : nat) (lo hi n : Z) : Z :=
  match fuel with
  | O => lo
  | S f =>
      if hi - lo <=? 1 then lo
      else let mid := (lo + hi) / 2 in
           if mid ^ 3 <=? n then icbrt_go f mid hi n else icbrt_go f lo mid n
  end.

Definition icbrt (n : Z) : Z := icbrt_go 256 0 (n + 1) n.

(** The round constants: the first 32 bits of the fractional parts of the
    cube roots of the first 64 primes. *)
Definition K : list Z :=
  Eval vm_compute in map (fun p => icbrt (p * 2 ^ 96) mod 2 ^ 32) (firstn 64 (primes_below 320)).

(** The initial hash value: the first 32 bits of the fractional parts of
    the square roots of the first 8 primes. *)
Definition H0 : list Z :=
  Eval vm_compute in map (fun p => Z.sqrt (p * 2 ^ 64) mod 2 ^ 32) (firstn 8 (primes_below 20)).

Definition w32 (x : Z) : Z := x mod 2 ^ 32.
Definition rotr (x n : Z) : Z := Z.lor (Z.shiftr x n) (w32 (Z.shiftl x (32 - n))).
Definition Ch (x y z : Z) : Z := Z.lxor (Z.land x y) (Z.land (Z.lxor x (2 ^ 32 - 1)) z).
Definition Maj (x y z : Z) : Z := Z.lxor (Z.lxor (Z.land x y) (Z.land x z)) (Z.land y z).
Definition S0 (x : Z) : Z := Z.lxor (Z.lxor (rotr x 2) (rotr x 13)) (rotr x 22).
Definition S1 (x : Z) : Z := Z.lxor (Z.lxor (rotr x 6) (rotr x 11)) (rotr x 25).
Definition s0 (x : Z) : Z := Z.lxor (Z.lxor (rotr x 7) (rotr x 18)) (Z.shiftr x 3).
Definition s1 (x : Z) : Z := Z.lxor (Z.lxor (rotr x 17) (rotr x 19)) (Z.shiftr x 10).

(** Big-endian words of a 64-byte block. *)
Fixpoint words (l : list Z) : list Z :=
  match l with
  | a :: b :: c :: d :: r => (((a * 256 + b) * 256 + c) * 256 + d) :: words r
  | _ => []
  end.

(** The message schedule [W[0..63]], built from the first sixteen words. *)
Fixpoint schedule (n : nat) (w : list Z) : list Z :=
  match n with
  | O => w
  | S k =>
      let t := length w in
      let W i := nth i w 0 in
      schedule k (w ++ [w32 (s1 (W (t - 2)%nat) + W (t - 7)%nat + s0 (W (t - 15)%nat) + W (t - 16)%nat)])
  end.

Definition round (st : list Z) (kw : Z * Z) : list Z :=
  match st with
  | [a; b; c; d; e; f; g; h] =>
      let t1 := w32 (h + S1 e + Ch e f g + fst kw + snd kw) in
      let t2 := w32 (S0 a + Maj a b c) in
      [w32 (t1 + t2); a; b; c; w32 (d + t1); e; f; g]
  | _ => st
  end.

Definition compress (h : list Z) (block : list Z) : list Z :=
  let w := schedule 48 (words block) in
  let st := fold_left round (combine K w) h in
  map (fun '(x, y) => w32 (x + y)) (combine h st).

Fixpoint blocks (fuel : nat) (l : list Z) : list (list Z) :=
  match fuel with
  | O => []
  | S f => match l with [] => [] | _ => firstn 64 l :: blocks f (skipn 64 l) end
  end.

Definition be_bytes (n : nat) (x : Z) : list Z :=
  map (fun i => (Z.shiftr x (8 * Z.of_nat (n - 1 - i))) mod 256) (seq 0 n).

(** [sha256.Sum256]. *)
Definition Sum256 (msg : list byte) : list byte :=
  let m := map (fun b => Z.of_N (Byte.to_N b)) msg in
  let L := length m in
  let padlen := ((119 - L mod 64) mod 64)%nat in
  let padded := m ++ [128] ++ repeat 0 padlen ++ be_bytes 8 (8 * Z.of_nat L) in
  let h := fold_left compress (blocks (length padded) padded) H0 in
  map byte_of_Z (flat_map (be_bytes 4) h).

End SHA256.

(** [hex.EncodeToString]. *)
Definition EncodeToString (b : list byte) : string :=
  string_of_list_ascii
    (flat_map (fun x => let n := Z.of_N (Byte.to_N x) in [hexdigit (n / 16); hexdigit (n mod 16)]) b).

(** ** The cache key ([GenerateCacheKey] in [cache.go]) *)

(** [isAnthropicEndpoint] in [proxy.go]: [strings.HasSuffix(path, "/v1/messages")]. *)
Definition isAnthropicEndpoint (path : string) : bool :=
  let suf := "/v1/messages"%string in
  (String.length suf <=? String.length path)%nat
  && String.eqb (substring (String.length path - String.length suf) (String.length suf) path) suf.

Definition bytes_of (l : list ascii) : list byte := map byte_of_ascii l.

Definition key_of (path : string) (data : list byte) : string :=
  path ++ ":" ++ EncodeToString (SHA256.Sum256 data).

Definition GenerateCacheKey (path : string) (requestBody : list byte) : string :=
  let body := map ascii_of_byte requestBody in
  if isAnthropicEndpoint path then
    match Unmarshal_AnthropicRequest body with
    | None => key_of path requestBody
    | Some req => key_of path (bytes_of (marshal_anthropic_normalized req))
    end
  else
    match Unmarshal_OpenAIRequest body with
    | None => key_of path requestBody
    | Some req => key_of path (bytes_of (marshal_openai_normalized req))
    end.

(** ** Loading a tape ([LoadTape] in [tape.go]) *)

(** The Go heap holding [LLMRequest] values: [*LLMRequest] pointers are
    locations below [st_next], and [new]/[&LLMRequest{...}] allocates at
    [st_next]. *)
Record Store := mkStore {
  st_heap : gmap N LLMRequest;
  st_next : N
}.

Definition alloc (r : LLMRequest) (σ : Store) : N * Store :=
  (st_next σ, mkStore (<[st_next σ := r]> (st_heap σ)) (N.succ (st_next σ))).

Definition deref (σ : Store) (l : N) : LLMRequest :=
  match st_heap σ !! l with Some r => r | None => zeroLLMRequest end.

(** [type TimelineEntry struct].  [Event] points at the element of
    [tape.Events] appended just before; events are never written after
    being appended, so the entry holds the event itself. *)
Record TimelineEntry := mkTimelineEntry {
  tl_Time : Time;
  tl_Event : TapeEvent;
  tl_Request : N
}.

(** [type Tape struct]. *)
Record Tape := mkTape {
  tp_FilePath : string;
  tp_Session : TapeSessionData;
  tp_Events : list TapeEvent;
  tp_Requests : list N;
  tp_RequestMap : gmap Z N;
  tp_Timeline : list TimelineEntry;
  tp_CurrentTime : Time;
  tp_StartTime : Time;
  tp_EndTime : Time;
  tp_Duration : Duration
}.

(** *** [bufio.Scanner] with [ScanLines], a 64 KiB buffer and a 10 MiB
    maximum token size.  The buffer grows by doubling up to the maximum;
    a line (the bytes before a newline, or before the end of the file) of
    [maxTokenSize] bytes or more fills it without a newline in sight, and
    [Scan] stops with [bufio.ErrTooLong], which is [None] here.  Tokens
    drop the newline and one trailing carriage return. *)
Definition maxTokenSize : N := 10485760.

Definition newline : ascii := "010"%char.

Definition dropCR (l : list ascii) : list ascii :=
  match rev l with "013"%char :: r => rev r | _ => l end.

Fixpoint scan_go (l cur : list ascii) (n : N) : option (list (list ascii)) :=
  match l with
  | [] => if N.eqb n 0 then Some [] else Some [dropCR (rev cur)]
  | c :: r =>
      if Ascii.eqb c newline then option_map (cons (dropCR (rev cur))) (scan_go r [] 0)
      else if N.leb maxTokenSize (n + 1) then None
      else scan_go r (c :: cur) (n + 1)
  end.

Definition scan_lines (file : list ascii) : option (list (list ascii)) := scan_go file [] 0.

(** [time.Time.Sub]: the difference, saturated to the [int64] range. *)
Definition Time_Sub (t u : Time) : Duration :=
  Z.max (- 2 ^ 63) (Z.min (2 ^ 63 - 1) (t - u)).

Definition emptyTape (filename : string) : Tape :=
  mkTape filename zeroTapeSessionData [] [] ∅ [] 0 0 0 0.

Definition set_events (t : Tape) (evs : list TapeEvent) : Tape :=
  mkTape (tp_FilePath t) (tp_Session t) evs (tp_Requests t) (tp_RequestMap t)
    (tp_Timeline t) (tp_CurrentTime t) (tp_StartTime t) (tp_EndTime t) (tp_Duration t).

Definition set_session (t : Tape) (sd : TapeSessionData) : Tape :=
  mkTape (tp_FilePath t) sd (tp_Events t) (tp_Requests t) (tp_RequestMap t)
    (tp_Timeline t) (tp_CurrentTime t) (ts_StartTime sd) (tp_EndTime t) (tp_Duration t).

Definition set_requests (t : Tape) (rs : list N) (m : gmap Z N) (tl : list TimelineEntry) : Tape :=
  mkTape (tp_FilePath t) (tp_Session t) (tp_Events t) rs m tl
    (tp_CurrentTime t) (tp_StartTime t) (tp_EndTime t) (tp_Duration t).

Definition set_end (t : Tape) (e : Time) (d : Duration) : Tape :=
  mkTape (tp_FilePath t) (tp_Session t) (tp_Events t) (tp_Requests t) (tp_RequestMap t)
    (tp_Timeline t) (tp_CurrentTime t) (tp_StartTime t) e d.

Definition set_current (t : Tape) (c : Time) : Tape :=
  mkTape (tp_FilePath t) (tp_Session t) (tp_Events t) (tp_Requests t) (tp_RequestMap t)
    (tp_Timeline t) c (tp_StartTime t) (tp_EndTime t) (tp_Duration t).

(** The body of the scan loop for one line. *)
Definition load_line (ts : Tape * Store) (line : list ascii) : Tape * Store :=
  let '(t, σ) := ts in
  match Unmarshal_TapeEvent line with
  | None => (t, σ)
  | Some event =>
      let t := set_events t (tp_Events t ++ [event]) in
      if String.eqb (ev_Type event) EventSessionStart then
        match Unmarshal_TapeSessionData (ev_Data event) with
        | Some sd => (set_session t sd, σ)
        | None => (t, σ)
        end
      else if (String.eqb (ev_Type event) EventRequestStart
               || String.eqb (ev_Type event) EventRequestUpdate
               || String.eqb (ev_Type event) EventRequestComplete)%bool then
        match Unmarshal_TapeRequestData (ev_Data event) with
        | Some reqData =>
            let req := tapeDataToRequest reqData in
            let '(l, rs, m, σ) :=
              match tp_RequestMap t !! td_ID reqData with
              | Some existing =>
                  (existing, tp_Requests t, tp_RequestMap t,
                   mkStore (<[existing := req]> (st_heap σ)) (st_next σ))
              | None =>
                  let '(l, σ) := alloc req σ in
                  (l, tp_Requests t ++ [l], <[td_ID reqData := l]> (tp_RequestMap t), σ)
              end in
            (set_requests t rs m (tp_Timeline t ++ [mkTimelineEntry (ev_Timestamp event) event l]), σ)
        | None => (t, σ)
        end
      else if String.eqb (ev_Type event) EventSessionEnd then
        (set_end t (ev_Timestamp event) (tp_Duration t), σ)
      else (t, σ)
  end.

Definition less_ID (σ : Store) (a b : N) : bool := ID (deref σ a) <? ID (deref σ b).
Definition less_Time (a b : TimelineEntry) : bool := tl_Time a <? tl_Time b.

(** [LoadTape] on the contents of the file; [None] is a returned error. *)
Definition LoadTape (filename : string) (file : list ascii) (σ : Store) : option (Tape * Store) :=
  match scan_lines file with
  | None => None
  | Some lines =>
      let '(t, σ) := fold_left load_line lines (emptyTape filename, σ) in
      let t :=
        if negb (tp_EndTime t =? 0) && negb (tp_StartTime t =? 0) then
          set_end t (tp_EndTime t) (Time_Sub (tp_EndTime t) (tp_StartTime t))
        else match List.last (map tl_Time (tp_Timeline t)) 0, tp_Timeline t with
             | e, _ :: _ => set_end t e (Time_Sub e (tp_StartTime t))
             | _, [] => t
             end in
      let t := set_requests t (sort_by (less_ID σ) (tp_Requests t)) (tp_RequestMap t)
                 (sort_by less_Time (tp_Timeline t)) in
      Some (set_current t (tp_StartTime t), σ)
  end.

(** ** Replay ([GetRequestsAtTime], [StepForward], [StepBackward]) *)

(** [GetRequestsAtTime]: the entries up to the first one after the target
    time are decoded again, each into a freshly allocated request, the last
    one per ID is kept, and the result is sorted by ID (the IDs in the map
    are distinct, so Go's random map order does not show). *)
Fixpoint replay (tl : list TimelineEntry) (target : Time) (states : gmap Z N) (σ : Store)
    : gmap Z N * Store :=
  match tl with
  | [] => (states, σ)
  | entry :: r =>
      if target <? tl_Time entry then (states, σ)
      else match Unmarshal_TapeRequestData (ev_Data (tl_Event entry)) with
           | Some reqData =>
               let req := tapeDataToRequest reqData in
               let '(l, σ) := alloc req σ in
               replay r target (<[ID req := l]> states) σ
           | None => replay r target states σ
           end
  end.

Definition GetRequestsAtTime (t : Tape) (targetTime : Time) (σ : Store) : list N * Store :=
  let '(states, σ) := replay (tp_Timeline t) targetTime ∅ σ in
  (sort_by (less_ID σ) (map snd (map_to_list states)), σ).

(** The loop of [StepForward], from index [i] on. *)
Fixpoint stepForward_loop (t : Tape) (i : nat) (l : list TimelineEntry) : Tape * bool :=
  match l with
  | [] => (t, false)
  | entry :: r =>
      if tp_CurrentTime t <? tl_Time entry
      then (set_current t (tl_Time entry), Nat.ltb i (length (tp_Timeline t) - 1))
      else stepForward_loop t (S i) r
  end.

(** [StepForward]: the receiver's new value and the result. *)
Definition StepForward (t : Tape) : Tape * bool :=
  stepForward_loop t O (tp_Timeline t).

(** The loop of [StepBackward]: the last entry before the current time,
    scanning until the first entry that is not. *)
Fixpoint stepBackward_loop (cur : Time) (lastBefore : option TimelineEntry)
    (l : list TimelineEntry) : option TimelineEntry :=
  match l with
  | entry :: r =>
      if tl_Time entry <? cur then stepBackward_loop cur (Some entry) r else lastBefore
  | [] => lastBefore
  end.

(** [StepBackward]. *)
Definition StepBackward (t : Tape) : Tape * bool :=
  match stepBackward_loop (tp_CurrentTime t) None (tp_Timeline t) with
  | Some e => (set_current t (tl_Time e), true)
  | None => (t, false)
  end.

(** ** Concrete requests for the handler schedules below *)

(** A captured chat-completions request, not yet answered. *)
Definition demo_req : LLMRequest :=
  set_response zeroLLMRequest 0 0 ∅ [] 0.

Definition demo_body : list byte := list_byte_of_string "{}".

(** A cache miss: the upstream answers [200] with body [{}]. *)
Definition env_miss : HandlerEnv :=
  mkHandlerEnv None false false "/v1/chat/completions:k" 0 200 ∅ demo_body
    demo_body (Some 5) true true.

(** A cache hit on an entry holding a [200] with body [{}]. *)
Definition env_hit : HandlerEnv :=
  mkHandlerEnv (Some (mkCacheEntry demo_body ∅ 200 7 0)) false false
    "/v1/chat/completions:k" 0 0 ∅ [] [] None true true.

(** The client cancels; the upstream call then returns; the handler closes
    [cancelDone]; only then does the watcher goroutine run its [select],
    with both cases ready, and pick [cancelDone]; the handler sees the
    cancelled context and returns. *)
Definition sched_cancel_race : list HAction :=
  [ACancel; AMain; AMain; AWatch CaseCancelDone; AWatch CaseCancelDone; AMain].

(** The client cancels during a cache hit; the handler closes [cancelDone]
    and finalizes with the cached response before the watcher runs. *)
Definition sched_hit_race : list HAction :=
  [ACancel; AMain; AMain; AWatch CaseCtxDone; AWatch CaseCtxDone].

(** The watcher wins: the client cancels, the watcher finalizes with 499. *)
Definition sched_watcher_wins : list HAction :=
  [ACancel; AWatch CaseCtxDone; AWatch CaseCtxDone; AMain; AMain; AMain].

(** ** Request records and the tape payload *)

(** The record [r] with the four fields that [TapeRequestData] does not
    declare replaced by the given values. *)
Definition with_unrecorded (r : LLMRequest) (ttft : Duration) (cached : bool)
    (name listen : string) : LLMRequest :=
  {| ID := ID r; Method := Method r; Path := Path r; Host := Host r;
     URL := URL r; Model := Model r; Status := Status r;
     StatusCode := StatusCode r; StartTime := StartTime r;
     Duration_ := Duration_ r; TTFT := ttft;
     RequestHeaders := RequestHeaders r; ResponseHeaders := ResponseHeaders r;
     RequestBody := RequestBody r; ResponseBody := ResponseBody r;
     RequestSize := RequestSize r; ResponseSize := ResponseSize r;
     IsStreaming := IsStreaming r;
     EstimatedInputTokens := EstimatedInputTokens r;
     InputTokens := InputTokens r; OutputTokens := OutputTokens r;
     ProviderID := ProviderID r; Cost := Cost r; CachedResponse := cached;
     ProxyName := name; ProxyListen := listen |}.

(** The record as the tape can hold it: the four undeclared fields at their
    zero values. *)
Definition drop_unrecorded (r : LLMRequest) : LLMRequest :=
  with_unrecorded r 0 false "" "".

(** A completed record: status code [200], body [{}] of two bytes. *)
Definition tape_demo_req : LLMRequest :=
  set_response zeroLLMRequest 0 200 ∅ demo_body 2.

(** [tape_demo_req] answered from the cache by the proxy [p1] on [:8080],
    with a first byte after 5 ns. *)
Definition tape_demo_proxied : LLMRequest :=
  with_unrecorded tape_demo_req 5 true "p1" ":8080".

(** [time.Time.MarshalJSON] on the zero [time.Time] in UTC, the start time
    of the records above; no other instant is covered. *)
Definition marshal_time_utc_zero (t : Time) : option (list ascii) :=
  if t =? 0 then Some (quote :: list_ascii_of_string "0001-01-01T00:00:00Z" ++ [quote])
  else None.

(** ** Concrete tape files *)

(** JSON text written with ['] for the double quote. *)
Definition jtext (s : string) : list ascii :=
  map (fun c => if Ascii.eqb c "'"%char then "034"%char else c) (list_ascii_of_string s).

Definition lines_file (ls : list string) : list ascii :=
  concat (map (fun s => jtext s ++ [newline]) ls).

Definition line_session_start : string :=
  "{'timestamp':'2024-01-01T00:00:00Z','type':'session_start','seq':0,"
  ++ "'data':{'listen_addr':':8080','start_time':'2024-01-01T00:00:00Z'}}".

(** A [request_*] line for request [1] with the given status at
    [2024-01-01T00:00:0<sec>Z]. *)
Definition line_request (ty : string) (seq : string) (sec : string) (status : string) : string :=
  "{'timestamp':'2024-01-01T00:00:0" ++ sec ++ "Z','type':'" ++ ty ++ "','seq':" ++ seq
  ++ ",'data':{'id':1,'method':'POST','path':'/v1/messages','status':" ++ status ++ "}}".

(** A well-formed tape: request 1 starts at 1 s, is updated at 2 s and
    completes at 2 s. *)
Definition tape_ordered : list ascii :=
  lines_file [line_session_start;
              line_request "request_start" "1" "1" "0";
              line_request "request_update" "2" "2" "0";
              line_request "request_complete" "3" "2" "1"].

(** A tape whose events for request 1 are not in lifecycle order along the
    time axis: its [request_complete] is stamped 1 s and its
    [request_start] 2 s. *)
Definition tape_complete_then_start : list ascii :=
  lines_file [line_session_start;
              line_request "request_complete" "1" "1" "1";
              line_request "request_start" "2" "2" "0"].

(** [2024-01-01T00:00:00Z] and the next two seconds, in nanoseconds since
    [0001-01-01T00:00:00Z]. *)
Definition t2024 : Time := 63839664000 * 1000000000.
Definition sec (n : Z) : Time := t2024 + n * 1000000000.

Definition empty_store : Store := mkStore ∅ 0.

(** ** Replay, described entry by entry *)

(** The entries [GetRequestsAtTime] visits: those before the first entry
    after the target time. *)
Fixpoint take_until (target : Time) (tl : list TimelineEntry) : list TimelineEntry :=
  match tl with
  | [] => []
  | e :: r => if target <? tl_Time e then [] else e :: take_until target r
  end.

(** The request snapshots of a list of entries that decode. *)
Fixpoint snapshots (tl : list TimelineEntry) : list TapeRequestData :=
  match tl with
  | [] => []
  | e :: r =>
      match Unmarshal_TapeRequestData (ev_Data (tl_Event e)) with
      | Some d => d :: snapshots r
      | None => snapshots r
      end
  end.

(** The last snapshot of request [id]. *)
Fixpoint last_snap (id : Z) (ds : list TapeRequestData) : option TapeRequestData :=
  match ds with
  | [] => None
  | d :: r =>
      match last_snap id r with
      | Some x => Some x
      | None => if td_ID d =? id then Some d else None
      end
  end.

(** Last write per ID wins. *)
Definition fold_snap (ds : list TapeRequestData) (m : gmap Z LLMRequest) : gmap Z LLMRequest :=
  fold_left (fun m d => <[td_ID d := tapeDataToRequest d]> m) ds m.

(** The lifecycle order: [Pending] before the terminal statuses. *)
Definition status_rank (s : Z) : Z := if s =? StatusPending then 0 else 1.

(** No snapshot of an ID is followed by a snapshot of the same ID of a
    lower rank. *)
Fixpoint snapshots_monotone (ds : list TapeRequestData) : bool :=
  match ds with
  | [] => true
  | d :: r =>
      forallb (fun d' => negb (td_ID d' =? td_ID d)
                         || (status_rank (td_Status d) <=? status_rank (td_Status d'))) r
      && snapshots_monotone r
  end.

(** The IDs and statuses [GetRequestsAtTime] returns, in order. *)
Definition statuses_at (t : Tape) (target : Time) (σ : Store) : list (Z * Z) :=
  let '(r, σ') := GetRequestsAtTime t target σ in
  map (fun l => (ID (deref σ' l), Status (deref σ' l))) r.

(** ** Tape files line by line *)

(** A line of [maxTokenSize] bytes [x]. *)
Definition long_line : list ascii := N.iter maxTokenSize (cons "x"%char) [].

(** The file made of the lines [ls], each ended by a newline, and a last
    line [last] with no newline after it. *)
Definition file_of_lines (ls : list (list ascii)) (last : list ascii) : list ascii :=
  concat (map (fun l => l ++ [newline]) ls) ++ last.

(** The lines that decode as a [TapeEvent], decoded. *)
Definition parsed_events (lines : list (list ascii)) : list TapeEvent :=
  flat_map (fun l => match Unmarshal_TapeEvent l with Some e => [e] | None => [] end) lines.

(** A line with no newline, shorter than [maxTokenSize]. *)
Definition short_line (l : list ascii) : bool :=
  forallb (fun c => negb (Ascii.eqb c newline)) l &&
  N.ltb (N.of_nat (length l)) maxTokenSize.

(** A session start, a line that is not JSON, and a request start. *)
Definition lines_with_garbage : list (list ascii) :=
  [jtext line_session_start; jtext "not a tape event";
   jtext (line_request "request_start" "1" "1" "0")].

(** ** Cache keys of concrete bodies *)

(** The fields of a decoded body that [GenerateCacheKey] copies into its
    [normalized] struct, per dialect. *)
Inductive NormalizedRequest :=
| NAnthropic (model : string) (messages : option (list AnthropicMessage))
    (system : GoAny) (max_tokens : Z) (stream : bool)
| NOpenAI (model : string) (messages : option (list OpenAIMessage))
    (temperature : F64) (max_tokens : Z) (stream : bool).

Definition normalize (path : string) (requestBody : list byte) : option NormalizedRequest :=
  let body := map ascii_of_byte requestBody in
  if isAnthropicEndpoint path then
    option_map (fun r => NAnthropic (ar_Model r) (ar_Messages r) (ar_System r)
                                    (ar_MaxTokens r) (ar_Stream r))
      (Unmarshal_AnthropicRequest body)
  else
    option_map (fun r => NOpenAI (or_Model r) (or_Messages r) (or_Temperature r)
                                 (or_MaxTokens r) (or_Stream r))
      (Unmarshal_OpenAIRequest body).

Definition body_of (s : string) : list byte :=
  list_byte_of_string (string_of_list_ascii (jtext s)).

(** Two chat-completions bodies whose one message differs only in its
    legacy [function_call] member. *)
Definition openai_body_weather : list byte :=
  body_of ("{'model':'gpt-4o','messages':[{'role':'assistant','content':null,"
           ++ "'function_call':{'name':'get_weather','arguments':'{}'}}]}").

Definition openai_body_time : list byte :=
  body_of ("{'model':'gpt-4o','messages':[{'role':'assistant','content':null,"
           ++ "'function_call':{'name':'get_time','arguments':'{}'}}]}").

(** Two messages bodies that differ in member order, key case, a member
    the message struct does not declare and the temperature. *)
Definition anthropic_body_plain : list byte :=
  body_of ("{'model':'claude','max_tokens':64,'system':'Be brief.',"
           ++ "'messages':[{'role':'user','content':'hi'}]}").

Definition anthropic_body_variant : list byte :=
  body_of ("{'Model':'claude','messages':[{'content':'hi','role':'user',"
           ++ "'cache_control':{'type':'ephemeral'}}],'system':'Be brief.',"
           ++ "'max_tokens':64,'temperature':0.5}").

(** ** Cache keys as JSON documents *)

(** Well-formed UTF-8: a sequence of runes [utf8.DecodeRune] accepts. *)
Inductive utf8_valid : list ascii -> Prop :=
| utf8_nil : utf8_valid []
| utf8_rune (l : list ascii) (rr : Z) (w : nat) :
    DecodeRune l = Some (rr, w) -> utf8_valid (skipn w l) -> utf8_valid l.

(** A JSON document as [encoding/json] writes it. *)
Inductive JDoc :=
| JDAtom (a : list ascii)
| JDStr (s : string)
| JDArr (l : list JDoc)
| JDObj (kv : list (string * JDoc)).

(** The text of a document: [json.Marshal]'s output for the value it stands for. *)
Fixpoint render (d : JDoc) : list ascii :=
  match d with
  | JDAtom a => a
  | JDStr s => encodeString s
  | JDArr l => "["%char :: join [","%char] (map render l) ++ ["]"%char]
  | JDObj kv =>
      "{"%char :: join [","%char] (map (fun '(k, v) => encodeString k ++ ":"%char :: render v) kv)
        ++ ["}"%char]
  end.

(** The characters that may follow a value inside an array or object. *)
Definition stop_char (c : ascii) : bool :=
  Ascii.eqb c ","%char || Ascii.eqb c "]"%char || Ascii.eqb c "}"%char.

Definition stop (r : list ascii) : Prop :=
  match r with [] => True | c :: _ => stop_char c = true end.

(** A literal (number, [true], [false], [null]): no quote, bracket or brace first, no separator inside. *)
Definition atom_ok (a : list ascii) : Prop :=
  match a with
  | [] => False
  | c :: _ => c <> quote /\ c <> "["%char /\ c <> "{"%char
  end /\ Forall (fun c => stop_char c = false) a.

(** Well-formed documents: valid UTF-8 strings and keys, literals as above. *)
Fixpoint doc_ok (d : JDoc) : Prop :=
  match d with
  | JDAtom a => atom_ok a
  | JDStr s => utf8_valid (list_ascii_of_string s)
  | JDArr l =>
      let fix all l := match l with [] => True | x :: r => doc_ok x /\ all r end in all l
  | JDObj kv =>
      let fix all kv := match kv with
                        | [] => True
                        | (k, x) :: r => utf8_valid (list_ascii_of_string k) /\ doc_ok x /\ all r
                        end in all kv
  end.

Section JDoc_ind'.
Variable P : JDoc -> Prop.
Hypothesis HA : forall a, P (JDAtom a).
Hypothesis HS : forall s, P (JDStr s).
Hypothesis HL : forall l, Forall P l -> P (JDArr l).
Hypothesis HO : forall kv, Forall (fun kd => P (snd kd)) kv -> P (JDObj kv).
Fixpoint JDoc_ind' (d : JDoc) : P d :=
  match d with
  | JDAtom a => HA a
  | JDStr s => HS s
  | JDArr l =>
      HL l ((fix go (l : list JDoc) : Forall P l := match l return Forall P l with
                         | [] => @List.Forall_nil _ _
                         | x :: r => @List.Forall_cons _ _ _ _ (JDoc_ind' x) (go r) end) l)
  | JDObj kv =>
      HO kv ((fix go (kv : list (string * JDoc)) : Forall (fun kd => P (snd kd)) kv :=
              match kv return Forall (fun kd => P (snd kd)) kv with
                           | [] => @List.Forall_nil _ _
                           | (k, x) :: r => @List.Forall_cons _ _ (k, x) r (JDoc_ind' x) (go r) end) kv)
  end.
End JDoc_ind'.

(** The characters of number literals and of [true], [false], [null]. *)
Definition char_fine (c : ascii) : Prop :=
  43 <= byte_val c <= 122 /\ byte_val c <> 44 /\ byte_val c <> 91 /\ byte_val c <> 93.

Definition digitc (c : ascii) : Prop := 48 <= byte_val c <= 57.

(** The range of the doubles [strconv.ParseFloat] returns. *)
Definition f64_ok (f : F64) : Prop := 0 <= f_mant f <= 2 ^ 56 /\ -1200 <= f_exp f <= 1200.

(** Parsed JSON values whose strings and keys are valid UTF-8. *)
Fixpoint jv_ok (v : JValue) : Prop :=
  match v with
  | JStr s => utf8_valid (list_ascii_of_string s)
  | JArr l => let fix all l := match l with [] => True | x :: r => jv_ok x /\ all r end in all l
  | JObj kv =>
      let fix all kv := match kv with
                        | [] => True
                        | (k, _, x) :: r => utf8_valid (list_ascii_of_string k) /\ jv_ok x /\ all r
                        end in all kv
  | _ => True
  end.

Definition kv_ok (kx : string * list ascii * JValue) : Prop :=
  utf8_valid (list_ascii_of_string (fst (fst kx))) /\ jv_ok (snd kx).

Section JValue_ind'.
Variable P : JValue -> Prop.
Hypothesis HN : P JNull.
Hypothesis HB : forall b, P (JBool b).
Hypothesis HNum : forall lit, P (JNum lit).
Hypothesis HS : forall s, P (JStr s).
Hypothesis HL : forall l, Forall P l -> P (JArr l).
Hypothesis HO : forall kv, Forall (fun kx => P (snd kx)) kv -> P (JObj kv).
Fixpoint JValue_ind' (v : JValue) : P v :=
  match v with
  | JNull => HN
  | JBool b => HB b
  | JNum lit => HNum lit
  | JStr s => HS s
  | JArr l =>
      HL l ((fix go (l : list JValue) : Forall P l := match l return Forall P l with
                         | [] => @List.Forall_nil _ _
                         | x :: r => @List.Forall_cons _ _ _ _ (JValue_ind' x) (go r) end) l)
  | JObj kv =>
      HO kv ((fix go (kv : list (string * list ascii * JValue))
                : Forall (fun kx => P (snd kx)) kv :=
              match kv return Forall (fun kx => P (snd kx)) kv with
              | [] => @List.Forall_nil _ _
              | (k, x) :: r => @List.Forall_cons _ _ (k, x) r (JValue_ind' x) (go r) end) kv)
  end.
End JValue_ind'.

Definition str_ok (s : string) : Prop := utf8_valid (list_ascii_of_string s).

(** Decoded [interface{}] values: valid strings and keys, doubles in range. *)
Fixpoint any_ok (a : GoAny) : Prop :=
  match a with
  | AFloat f => f64_ok f
  | AString s => str_ok s
  | ASlice l => let fix all l := match l with [] => True | x :: r => any_ok x /\ all r end in all l
  | AMap kv =>
      let fix all kv := match kv with
                        | [] => True
                        | (k, x) :: r => str_ok k /\ any_ok x /\ all r
                        end in all kv
  | _ => True
  end.

Definition opt_all {T} (Q : T -> Prop) (s : option (list T)) : Prop :=
  match s with Some l => Forall Q l | None => True end.

(** Decoded structs: their strings, [interface{}] values and doubles are as above. *)
Definition tcf_ok (f : ToolCallFunction) : Prop := str_ok (tf_Name f) /\ str_ok (tf_Arguments f).
Definition tc_ok (t : ToolCall) : Prop :=
  str_ok (tc_ID t) /\ str_ok (tc_Type t) /\ tcf_ok (tc_Function t).
Definition omsg_ok (m : OpenAIMessage) : Prop :=
  str_ok (om_Role m) /\ any_ok (om_Content m) /\ str_ok (om_Name m) /\
  opt_all tc_ok (om_ToolCalls m) /\ str_ok (om_ToolCallID m).
Definition amsg_ok (m : AnthropicMessage) : Prop := str_ok (am_Role m) /\ any_ok (am_Content m).
Definition oreq_ok (r : OpenAIRequest) : Prop :=
  str_ok (or_Model r) /\ opt_all omsg_ok (or_Messages r) /\ f64_ok (or_Temperature r).
Definition areq_ok (r : AnthropicRequest) : Prop :=
  str_ok (ar_Model r) /\ opt_all amsg_ok (ar_Messages r) /\ any_ok (ar_System r).

Section GoAny_ind'.
Variable P : GoAny -> Prop.
Hypothesis HN : P ANil.
Hypothesis HB : forall b, P (ABool b).
Hypothesis HF : forall f, P (AFloat f).
Hypothesis HS : forall s, P (AString s).
Hypothesis HL : forall l, Forall P l -> P (ASlice l).
Hypothesis HM : forall kv, Forall (fun kx => P (snd kx)) kv -> P (AMap kv).
Fixpoint GoAny_ind' (a : GoAny) : P a :=
  match a with
  | ANil => HN
  | ABool b => HB b
  | AFloat f => HF f
  | AString s => HS s
  | ASlice l =>
      HL l ((fix go (l : list GoAny) : Forall P l := match l return Forall P l with
                         | [] => @List.Forall_nil _ _
                         | x :: r => @List.Forall_cons _ _ _ _ (GoAny_ind' x) (go r) end) l)
  | AMap kv =>
      HM kv ((fix go (kv : list (string * GoAny)) : Forall (fun kx => P (snd kx)) kv :=
              match kv return Forall (fun kx => P (snd kx)) kv with
              | [] => @List.Forall_nil _ _
              | (k, x) :: r => @List.Forall_cons _ _ (k, x) r (GoAny_ind' x) (go r) end) kv)
  end.
End GoAny_ind'.

(** The document of an [interface{}] value, map members sorted by key as [encodeAny] writes them. *)
Fixpoint doc_any (a : GoAny) : JDoc :=
  match a with
  | ANil => JDAtom (list_ascii_of_string "null")
  | ABool b => JDAtom (encodeBool b)
  | AFloat f => JDAtom (encodeFloat f)
  | AString s => JDStr s
  | ASlice l => JDArr (map doc_any l)
  | AMap kv =>
      JDObj (sort_by (fun x y => String.ltb (fst x) (fst y))
               (map (fun '(k, v) => (k, doc_any v)) kv))
  end.

(** The document of a struct: its fields in order, the omitted ones left out. *)
Definition doc_struct (fields : list (option (string * JDoc))) : JDoc :=
  JDObj (omap (fun x => x) fields).

(** A slice: [null] when nil. *)
Definition doc_slice {A} (d : A -> JDoc) (s : option (list A)) : JDoc :=
  match s with
  | None => JDAtom (list_ascii_of_string "null")
  | Some l => JDArr (map d l)
  end.

(** The documents of the message structs, field for field as [encodeToolCall], [encodeOpenAIMessage] and [encodeAnthropicMessage] write them. *)
Definition doc_ToolCall (t : ToolCall) : JDoc :=
  doc_struct
    [Some ("id", JDStr (tc_ID t)); Some ("type", JDStr (tc_Type t));
     if tc_Index t =? 0 then None else Some ("index", JDAtom (Itoa (tc_Index t)));
     Some ("function", doc_struct
                         [Some ("name", JDStr (tf_Name (tc_Function t)));
                          Some ("arguments", JDStr (tf_Arguments (tc_Function t)))])].

Definition doc_OpenAIMessage (m : OpenAIMessage) : JDoc :=
  doc_struct
    [Some ("role", JDStr (om_Role m)); Some ("content", doc_any (om_Content m));
     if String.eqb (om_Name m) "" then None else Some ("name", JDStr (om_Name m));
     match om_ToolCalls m with
     | Some ((_ :: _) as l) => Some ("tool_calls", doc_slice doc_ToolCall (Some l))
     | _ => None
     end;
     if String.eqb (om_ToolCallID m) "" then None
     else Some ("tool_call_id", JDStr (om_ToolCallID m))].

Definition doc_AnthropicMessage (m : AnthropicMessage) : JDoc :=
  doc_struct [Some ("role", JDStr (am_Role m)); Some ("content", doc_any (am_Content m))].

(** The document of the [normalized] struct [GenerateCacheKey] marshals. *)
Definition doc_nreq (n : NormalizedRequest) : JDoc :=
  match n with
  | NAnthropic model messages system max_tokens stream =>
      doc_struct
        [Some ("model", JDStr model);
         Some ("messages", doc_slice doc_AnthropicMessage messages);
         match system with ANil => None | s => Some ("system", doc_any s) end;
         Some ("max_tokens", JDAtom (Itoa max_tokens));
         Some ("stream", JDAtom (encodeBool stream))]
  | NOpenAI model messages temperature max_tokens stream =>
      doc_struct
        [Some ("model", JDStr model);
         Some ("messages", doc_slice doc_OpenAIMessage messages);
         Some ("temperature", JDAtom (encodeFloat temperature));
         Some ("max_tokens", JDAtom (Itoa max_tokens));
         Some ("stream", JDAtom (encodeBool stream))]
  end.

(** A struct key that [encodeString] writes as [jkey] does. *)
Definition key_plain (x : option (string * JDoc)) : Prop :=
  match x with Some (k, _) => jkey k = encodeString k ++ [":"%char] | None => True end.

Definition field_ok (x : option (string * JDoc)) : Prop :=
  match x with Some (k, d) => str_ok k /\ doc_ok d | None => True end.

(** Normalized requests of decoded bodies. *)
Definition nreq_ok (n : NormalizedRequest) : Prop :=
  match n with
  | NAnthropic model messages system _ _ =>
      str_ok model /\ opt_all amsg_ok messages /\ any_ok system
  | NOpenAI model messages temperature _ _ =>
      str_ok model /\ opt_all omsg_ok messages /\ f64_ok temperature
  end.

(** A struct field that is absent or has key [k]. *)
Definition key_is (k : string) (x : option (string * JDoc)) : Prop :=
  match x with Some (k', _) => k' = k | None => True end.

(** What [json.Marshal] keeps of a message: role, content as a document, name, tool calls (nil as empty), tool-call id. *)
Definition omsg_view (m : OpenAIMessage) :=
  (om_Role m, doc_any (om_Content m), om_Name m,
   match om_ToolCalls m with Some l => l | None => [] end, om_ToolCallID m).

Definition amsg_view (m : AnthropicMessage) := (am_Role m, doc_any (am_Content m)).

(** The system prompt as [json.Marshal] keeps it: absent when nil. *)
Definition system_view (s : GoAny) : option JDoc :=
  match s with ANil => None | _ => Some (doc_any s) end.

(** Field-wise agreement of two normalized requests: same model, messages with the same views, same system (Anthropic) or same printed temperature (OpenAI), same max_tokens and stream. *)
Definition nreq_equiv (n1 n2 : NormalizedRequest) : Prop :=
  match n1, n2 with
  | NAnthropic mo1 ms1 sy1 mt1 st1, NAnthropic mo2 ms2 sy2 mt2 st2 =>
      mo1 = mo2 /\ option_map (map amsg_view) ms1 = option_map (map amsg_view) ms2 /\
      system_view sy1 = system_view sy2 /\ mt1 = mt2 /\ st1 = st2
  | NOpenAI mo1 ms1 te1 mt1 st1, NOpenAI mo2 ms2 te2 mt2 st2 =>
      mo1 = mo2 /\ option_map (map omsg_view) ms1 = option_map (map omsg_view) ms2 /\
      encodeFloat te1 = encodeFloat te2 /\ mt1 = mt2 /\ st1 = st2
  | _, _ => False
  end.

(** The bytes [GenerateCacheKey] hashes: [json.Marshal] of the normalized request when the body decodes, the body itself otherwise. *)
Definition hashed_data (path : string) (requestBody : list byte) : list byte :=
  let body := map ascii_of_byte requestBody in
  if isAnthropicEndpoint path then
    match Unmarshal_AnthropicRequest body with
    | None => requestBody
    | Some req => bytes_of (marshal_anthropic_normalized req)
    end
  else
    match Unmarshal_OpenAIRequest body with
    | None => requestBody
    | Some req => bytes_of (marshal_openai_normalized req)
    end.

(** A messages body that differs from [anthropic_body_plain] in its system prompt only. *)
Definition anthropic_body_system : list byte :=
  body_of ("{'model':'claude','max_tokens':64,'system':'Be thorough.',"
           ++ "'messages':[{'role':'user','content':'hi'}]}").

(** The heap cells a tape points at: its [Requests], its [RequestMap] and
    the [Request] of its timeline entries. *)
Definition tape_loc (t : Tape) (l : N) : Prop :=
  In l (tp_Requests t) \/ (exists id, tp_RequestMap t !! id = Some l) \/
  (exists e, In e (tp_Timeline t) /\ tl_Request e = l).

(** Timeline order. *)
Definition time_le (a b : TimelineEntry) : Prop := tl_Time a <= tl_Time b.

(** ** Invariants of the handler model *)

(** The single-fire latch: the [Once] body has run at most once, exactly
    when the latch is set, and the record left [StatusPending] exactly
    when it ran. *)
Definition once_inv (s : HState) : Prop :=
  (length (hs_finalizedBy s) <= 1)%nat /\
  (hs_once s = true <-> length (hs_finalizedBy s) = 1%nat) /\
  (Status (hs_req s) = StatusPending <-> hs_once s = false).

(** What the disconnect watcher's [finalize] leaves. *)
Definition watcher_result (s : HState) : Prop :=
  hs_finalizedBy s = [ByWatcher] /\ hs_ctxDone s = true /\
  StatusCode (hs_req s) = 499 /\ Status (hs_req s) = StatusError /\
  ResponseBody (hs_req s) = [] /\ ResponseHeaders (hs_req s) = ∅ /\
  ResponseSize (hs_req s) = 0 /\
  hs_cacheWrites s = [] /\ hs_tokenJobs s = [].

Definition watcher_inv (s : HState) : Prop :=
  once_inv s /\
  (hs_watch s = WWoken CaseCtxDone -> hs_ctxDone s = true) /\
  (hs_once s = false -> hs_cacheWrites s = [] /\ hs_tokenJobs s = []) /\
  (head (hs_finalizedBy s) = Some ByWatcher -> watcher_result s).

(** ** Endpoint predicates ([isLLMEndpoint] in [proxy.go]) *)

(** [strings.HasSuffix(s, suffix)]:
    [len(s) >= len(suffix) && s[len(s)-len(suffix):] == suffix]. *)
Definition HasSuffix (s suffix : string) : bool :=
  let l := list_ascii_of_string s in
  let x := list_ascii_of_string suffix in
  (length x <=? length l)%nat
  && (if List.list_eq_dec ascii_dec (skipn (length l - length x) l) x then true else false).

Definition llmPaths : list string :=
  ["/v1/chat/completions"; "/v1/completions"; "/v1/embeddings"; "/v1/messages";
   "/chat/completions"; "/completions"].

(** [isLLMEndpoint]: the loop over [llmPaths]. *)
Definition isLLMEndpoint (path : string) : bool :=
  existsb (fun p => HasSuffix path p) llmPaths.

(** ** Seeking ([SeekToTime] in [tape.go]) *)

Definition SeekToTime (t : Tape) (targetTime : Time) : Tape :=
  if targetTime <? tp_StartTime t then set_current t (tp_StartTime t)
  else if tp_EndTime t <? targetTime then set_current t (tp_EndTime t)
  else set_current t targetTime.

(** ** Token usage ([extractTokenUsage] in [proxy.go]) *)

(** *** [strings.TrimSpace], [strings.HasPrefix], [strings.TrimPrefix] and
    [strings.Split(s, "\n")] on byte strings *)

(** [asciiSpace] of [strings.go]. *)
Definition asciiSpace (c : ascii) : bool :=
  let n := byte_val c in
  (n =? 9) || (n =? 10) || (n =? 11) || (n =? 12) || (n =? 13) || (n =? 32).

(** [unicode.IsSpace]: the Latin-1 cases, then the [White_Space] table. *)
Definition IsSpace (r : Z) : bool :=
  if (0 <=? r) && (r <=? 255) then
    (r =? 9) || (r =? 10) || (r =? 11) || (r =? 12) || (r =? 13) || (r =? 32)
    || (r =? 133) || (r =? 160)
  else (r =? 5760) || ((8192 <=? r) && (r <=? 8202)) || (r =? 8232) || (r =? 8233)
       || (r =? 8239) || (r =? 8287) || (r =? 12288).

Definition RuneError : Z := 65533.

(** [utf8.DecodeRuneInString] on a non-empty string, with the [(RuneError, 1)]
    of an invalid encoding. *)
Definition decode_rune (l : list ascii) : Z * nat :=
  match DecodeRune l with Some rw => rw | None => (RuneError, 1%nat) end.

(** [utf8.RuneStart]: [b&0xC0 != 0x80]. *)
Definition RuneStart (b : ascii) : bool := negb (in_range 128 191 b).

(** The loop [for start--; start >= lim; start--] of [DecodeLastRune]. *)
Fixpoint back_start (fuel : nat) (l : list ascii) (start lim : Z) : Z :=
  match fuel with
  | O => start
  | S f =>
      if start <? lim then start
      else if RuneStart (nth (Z.to_nat start) l "000"%char) then start
      else back_start f l (start - 1) lim
  end.

(** [utf8.DecodeLastRuneInString]. *)
Definition DecodeLastRune (l : list ascii) : Z * nat :=
  let end_ := Z.of_nat (length l) in
  match rev l with
  | [] => (RuneError, 0%nat)
  | b :: _ =>
      if byte_val b <? 128 then (byte_val b, 1%nat)
      else
        let lim := Z.max 0 (end_ - 4) in
        let start := Z.max 0 (back_start 4 l (end_ - 2) lim) in
        match DecodeRune (skipn (Z.to_nat start) l) with
        | Some (r, size) =>
            if start + Z.of_nat size =? end_ then (r, size) else (RuneError, 1%nat)
        | None => (RuneError, 1%nat)
        end
  end.

(** [strings.TrimLeftFunc(s, unicode.IsSpace)]: [indexFunc] ranges over
    the runes of [s]. *)
Fixpoint TrimLeftSpace_go (fuel : nat) (l : list ascii) : list ascii :=
  match fuel with
  | O => l
  | S f =>
      match l with
      | [] => []
      | _ => let '(r, w) := decode_rune l in
             if IsSpace r then TrimLeftSpace_go f (skipn w l) else l
      end
  end.

Definition TrimLeftSpace (l : list ascii) : list ascii := TrimLeftSpace_go (length l) l.

(** [lastIndexFunc(s, unicode.IsSpace, false)]: [i] runs down from [len(s)]. *)
Fixpoint lastIndexFunc_go (fuel : nat) (s : list ascii) (i : nat) : Z :=
  match fuel with
  | O => -1
  | S f =>
      if Nat.eqb i 0 then -1
      else let '(r, size) := DecodeLastRune (firstn i s) in
           let i := (i - size)%nat in
           if negb (IsSpace r) then Z.of_nat i else lastIndexFunc_go f s i
  end.

(** [strings.TrimRightFunc(s, unicode.IsSpace)]. *)
Definition TrimRightSpace (s : list ascii) : list ascii :=
  let i := lastIndexFunc_go (length s) s (length s) in
  let i := if (0 <=? i) && (128 <=? byte_val (nth (Z.to_nat i) s "000"%char))
           then i + Z.of_nat (decode_rune (skipn (Z.to_nat i) s)).2
           else i + 1 in
  firstn (Z.to_nat i) s.

(** The ASCII fast path of [TrimSpace]: the bytes from the first one that
    is not an ASCII space, [inl] when a non-ASCII byte comes first. *)
Fixpoint ascii_trim (l : list ascii) : list ascii + list ascii :=
  match l with
  | [] => inr []
  | c :: r =>
      if 128 <=? byte_val c then inl l
      else if asciiSpace c then ascii_trim r else inr l
  end.

(** [strings.TrimSpace]: the fast path from the start, then from the end
    (run on the reversed bytes), falling back to [TrimFunc] and
    [TrimRightFunc] with [unicode.IsSpace] at a non-ASCII byte. *)
Definition TrimSpace (s : list ascii) : list ascii :=
  match ascii_trim s with
  | inl rest => TrimRightSpace (TrimLeftSpace rest)
  | inr rest =>
      match ascii_trim (rev rest) with
      | inl rrest => TrimRightSpace (rev rrest)
      | inr rrest => rev rrest
      end
  end.

Definition HasPrefix (s prefix : list ascii) : bool :=
  (length prefix <=? length s)%nat
  && (if List.list_eq_dec ascii_dec (firstn (length prefix) s) prefix then true else false).

Definition TrimPrefix (s prefix : list ascii) : list ascii :=
  if HasPrefix s prefix then skipn (length prefix) s else s.

(** [strings.Split(s, "\n")]. *)
Fixpoint split_go (l cur : list ascii) : list (list ascii) :=
  match l with
  | [] => [rev cur]
  | c :: r => if Ascii.eqb c newline then rev cur :: split_go r [] else split_go r (c :: cur)
  end.

Definition Split (l : list ascii) : list (list ascii) := split_go l [].

(** *** The anonymous response structs *)

(** [resp.Usage] of [extractTokenUsage]. *)
Record Usage := mkUsage {
  u_PromptTokens : Z;
  u_CompletionTokens : Z;
  u_TotalTokens : Z;
  u_InputTokens : Z;
  u_OutputTokens : Z
}.

Definition zeroUsage : Usage := mkUsage 0 0 0 0 0.

Definition dec_Usage (cur : Usage) (v : JValue) : option Usage :=
  match v with
  | JNull => Some cur
  | JObj kv =>
      let ff {A} n (d : A -> list ascii -> JValue -> option A) c :=
        field_fold ["prompt_tokens"; "completion_tokens"; "total_tokens";
                    "input_tokens"; "output_tokens"] n d c kv in
      p ← ff "prompt_tokens" dec_i (u_PromptTokens cur);
      c ← ff "completion_tokens" dec_i (u_CompletionTokens cur);
      t ← ff "total_tokens" dec_i (u_TotalTokens cur);
      i ← ff "input_tokens" dec_i (u_InputTokens cur);
      o ← ff "output_tokens" dec_i (u_OutputTokens cur);
      Some (mkUsage p c t i o)
  | _ => None
  end.

(** [resp], whose only field is [Usage]. *)
Definition dec_UsageResponse (cur : Usage) (v : JValue) : option Usage :=
  match v with
  | JNull => Some cur
  | JObj kv => field_fold ["usage"] "usage" (fun c _ j => dec_Usage c j) cur kv
  | _ => None
  end.

(** [json.Unmarshal(responseBody, &resp)]: the decoded [resp.Usage]. *)
Definition Unmarshal_UsageResponse (l : list ascii) : option Usage :=
  v ← parse l; dec_UsageResponse zeroUsage v.

(** [event.Message.Usage] of [extractTokenUsageFromSSE]. *)
Record MessageUsage := mkMessageUsage { mu_InputTokens : Z; mu_OutputTokens : Z }.

(** [event.Usage] of [extractTokenUsageFromSSE]. *)
Record EventUsage := mkEventUsage {
  eu_PromptTokens : Z;
  eu_CompletionTokens : Z;
  eu_InputTokens : Z;
  eu_OutputTokens : Z
}.

(** [event]: [Type], [Message.Usage] and [Usage]. *)
Record SSEEvent := mkSSEEvent {
  se_Type : string;
  se_MessageUsage : MessageUsage;
  se_Usage : EventUsage
}.

Definition zeroSSEEvent : SSEEvent :=
  mkSSEEvent "" (mkMessageUsage 0 0) (mkEventUsage 0 0 0 0).

Definition dec_MessageUsage (cur : MessageUsage) (v : JValue) : option MessageUsage :=
  match v with
  | JNull => Some cur
  | JObj kv =>
      let ff {A} n (d : A -> list ascii -> JValue -> option A) c :=
        field_fold ["input_tokens"; "output_tokens"] n d c kv in
      i ← ff "input_tokens" dec_i (mu_InputTokens cur);
      o ← ff "output_tokens" dec_i (mu_OutputTokens cur);
      Some (mkMessageUsage i o)
  | _ => None
  end.

(** [event.Message], whose only field is [Usage]. *)
Definition dec_Message (cur : MessageUsage) (v : JValue) : option MessageUsage :=
  match v with
  | JNull => Some cur
  | JObj kv => field_fold ["usage"] "usage" (fun c _ j => dec_MessageUsage c j) cur kv
  | _ => None
  end.

Definition dec_EventUsage (cur : EventUsage) (v : JValue) : option EventUsage :=
  match v with
  | JNull => Some cur
  | JObj kv =>
      let ff {A} n (d : A -> list ascii -> JValue -> option A) c :=
        field_fold ["prompt_tokens"; "completion_tokens"; "input_tokens"; "output_tokens"]
          n d c kv in
      p ← ff "prompt_tokens" dec_i (eu_PromptTokens cur);
      c ← ff "completion_tokens" dec_i (eu_CompletionTokens cur);
      i ← ff "input_tokens" dec_i (eu_InputTokens cur);
      o ← ff "output_tokens" dec_i (eu_OutputTokens cur);
      Some (mkEventUsage p c i o)
  | _ => None
  end.

Definition dec_SSEEvent (cur : SSEEvent) (v : JValue) : option SSEEvent :=
  match v with
  | JNull => Some cur
  | JObj kv =>
      let ff {A} n (d : A -> list ascii -> JValue -> option A) c :=
        field_fold ["type"; "message"; "usage"] n d c kv in
      ty ← ff "type" dec_str (se_Type cur);
      m ← ff "message" (fun c _ j => dec_Message c j) (se_MessageUsage cur);
      u ← ff "usage" (fun c _ j => dec_EventUsage c j) (se_Usage cur);
      Some (mkSSEEvent ty m u)
  | _ => None
  end.

(** [json.Unmarshal([]byte(jsonData), &event)] into a fresh [event]. *)
Definition Unmarshal_SSEEvent (l : list ascii) : option SSEEvent :=
  v ← parse l; dec_SSEEvent zeroSSEEvent v.

(** *** Updating the record *)

(** [req.InputTokens], [req.OutputTokens] and [req.Cost] assigned. *)
Definition with_usage (r : LLMRequest) (inp out : Z) (cost : Float64) : LLMRequest :=
  {| ID := ID r; Method := Method r; Path := Path r; Host := Host r;
     URL := URL r; Model := Model r; Status := Status r;
     StatusCode := StatusCode r;
     StartTime := StartTime r; Duration_ := Duration_ r; TTFT := TTFT r;
     RequestHeaders := RequestHeaders r; ResponseHeaders := ResponseHeaders r;
     RequestBody := RequestBody r; ResponseBody := ResponseBody r;
     RequestSize := RequestSize r; ResponseSize := ResponseSize r;
     IsStreaming := IsStreaming r;
     EstimatedInputTokens := EstimatedInputTokens r;
     InputTokens := inp; OutputTokens := out;
     ProviderID := ProviderID r; Cost := cost;
     CachedResponse := CachedResponse r; ProxyName := ProxyName r;
     ProxyListen := ProxyListen r |}.

Definition set_InputTokens (r : LLMRequest) (n : Z) : LLMRequest :=
  with_usage r n (OutputTokens r) (Cost r).
Definition set_OutputTokens (r : LLMRequest) (n : Z) : LLMRequest :=
  with_usage r (InputTokens r) n (Cost r).
Definition set_Cost (r : LLMRequest) (c : Float64) : LLMRequest :=
  with_usage r (InputTokens r) (OutputTokens r) c.

(** *** [extractTokenUsageFromSSE] and [extractTokenUsage]

    The models database is the caller's: [GetModelCost] (a lookup in the
    loaded [modelsDB], [nil] as [None]) and the float arithmetic of
    [CalculateCost] ([models.go]) are parameters.  [program != nil] is the
    boolean [program], and the [requestUpdatedMsg] sent is the returned
    boolean. *)
Section TokenUsage.

Context {ModelCost : Type}.
Variable GetModelCost : string -> string -> option ModelCost.
Variable CalculateCost : ModelCost -> Z -> Z -> Float64.

(** The body of the loop over the lines. *)
Definition sse_line (req : LLMRequest) (line : list ascii) : LLMRequest :=
  let line := TrimSpace line in
  if negb (HasPrefix line (list_ascii_of_string "data: "))
     && negb (HasPrefix line (list_ascii_of_string "data:")) then req
  else
    let jsonData := TrimPrefix line (list_ascii_of_string "data: ") in
    let jsonData := TrimPrefix jsonData (list_ascii_of_string "data:") in
    let jsonData := TrimSpace jsonData in
    if (match jsonData with [] => true | _ => false end)
       || (if List.list_eq_dec ascii_dec jsonData (list_ascii_of_string "[DONE]")
           then true else false) then req
    else
      match Unmarshal_SSEEvent jsonData with
      | None => req
      | Some event =>
          let req := if String.eqb (se_Type event) "message_start"
                        && (0 <? mu_InputTokens (se_MessageUsage event))
                     then set_InputTokens req (mu_InputTokens (se_MessageUsage event)) else req in
          let req := if String.eqb (se_Type event) "message_delta"
                        && (0 <? eu_OutputTokens (se_Usage event))
                     then set_OutputTokens req (eu_OutputTokens (se_Usage event)) else req in
          let req := if 0 <? eu_PromptTokens (se_Usage event)
                     then set_InputTokens req (eu_PromptTokens (se_Usage event)) else req in
          let req := if 0 <? eu_CompletionTokens (se_Usage event)
                     then set_OutputTokens req (eu_CompletionTokens (se_Usage event)) else req in
          req
      end.

Definition extractTokenUsageFromSSE (req : LLMRequest) (data : list ascii) : LLMRequest :=
  fold_left sse_line (Split data) req.

Definition has_tokens (req : LLMRequest) : bool :=
  (0 <? InputTokens req) || (0 <? OutputTokens req).

(** [cost := GetModelCost(req.ProviderID, req.Model); if cost != nil {...}]. *)
Definition apply_cost (req : LLMRequest) : LLMRequest :=
  match GetModelCost (ProviderID req) (Model req) with
  | Some cost => set_Cost req (CalculateCost cost (InputTokens req) (OutputTokens req))
  | None => req
  end.

(** [extractTokenUsage(req, responseBody)]: the updated record and whether
    a [requestUpdatedMsg] was sent. *)
Definition extractTokenUsage (program : bool) (req : LLMRequest) (responseBody : list byte)
    : LLMRequest * bool :=
  let body := map ascii_of_byte responseBody in
  match body with
  | [] => (req, false)
  | _ =>
      let trimmed := TrimSpace body in
      if HasPrefix trimmed (list_ascii_of_string "event:")
         || HasPrefix trimmed (list_ascii_of_string "data:") then
        let req := extractTokenUsageFromSSE req body in
        let req := if negb (String.eqb (Model req) "") && has_tokens req
                   then apply_cost req else req in
        (req, program && has_tokens req)
      else
        match Unmarshal_UsageResponse body with
        | None => (req, false)
        | Some u =>
            let req := set_InputTokens req (u_PromptTokens u) in
            let req := set_OutputTokens req (u_CompletionTokens u) in
            let req := if (InputTokens req =? 0) && (0 <? u_InputTokens u)
                       then set_InputTokens req (u_InputTokens u) else req in
            let req := if (OutputTokens req =? 0) && (0 <? u_OutputTokens u)
                       then set_OutputTokens req (u_OutputTokens u) else req in
            let req := if negb (String.eqb (Model req) "") then apply_cost req else req in
            (req, program && has_tokens req)
        end
  end.

End TokenUsage.

(** The invariant kept by the line loop of [LoadTape]. *)
Definition load_inv (ts : Tape * Store) : Prop :=
  let '(t, σ) := ts in
  NoDup (tp_Requests t) /\
  (forall l, In l (tp_Requests t) -> (l < st_next σ)%N /\ exists id, tp_RequestMap t !! id = Some l) /\
  (forall id l, tp_RequestMap t !! id = Some l ->
     In l (tp_Requests t) /\ exists r, st_heap σ !! l = Some r /\ ID r = id) /\
  (forall e, In e (tp_Timeline t) ->
     In (tl_Event e) (tp_Events t) /\ tl_Time e = ev_Timestamp (tl_Event e) /\
     In (ev_Type (tl_Event e)) [EventRequestStart; EventRequestUpdate; EventRequestComplete] /\
     exists d, Unmarshal_TapeRequestData (ev_Data (tl_Event e)) = Some d /\
               tp_RequestMap t !! td_ID d = Some (tl_Request e)).

(** What the line loop of [extractTokenUsageFromSSE] can change in a request. *)
Definition sse_inv (req r : LLMRequest) : Prop :=
  r = with_usage req (InputTokens r) (OutputTokens r) (Cost req) /\
  (InputTokens r = InputTokens req \/ 0 < InputTokens r) /\
  (OutputTokens r = OutputTokens req \/ 0 < OutputTokens r).

(** * Proofs *)

(** ** The capturing handler *)

Section HandlerProofs.

Variable env : HandlerEnv.

Lemma finalize_fired (who : Finalizer) sc h b n (s : HState) :
  hs_once s = true -> finalize env who sc h b n s = s.
Proof. unfold finalize. by intros ->. Qed.

Lemma finalize_fresh (who : Finalizer) sc h b n (s : HState) :
  hs_once s = false ->
  hs_once (finalize env who sc h b n s) = true /\
  hs_finalizedBy (finalize env who sc h b n s) = hs_finalizedBy s ++ [who] /\
  Status (hs_req (finalize env who sc h b n s)) =
    (if bool_decide (200 <= sc < 300) then StatusComplete else StatusError) /\
  StatusCode (hs_req (finalize env who sc h b n s)) = sc /\
  ResponseHeaders (hs_req (finalize env who sc h b n s)) = h /\
  ResponseBody (hs_req (finalize env who sc h b n s)) = b /\
  ResponseSize (hs_req (finalize env who sc h b n s)) = n /\
  hs_ctxDone (finalize env who sc h b n s) = hs_ctxDone s /\
  hs_main (finalize env who sc h b n s) = hs_main s /\
  hs_watch (finalize env who sc h b n s) = hs_watch s.
Proof. unfold finalize. intros ->. simpl. repeat split. Qed.

Lemma once_inv_init (req0 : LLMRequest) : once_inv (hinit env req0).
Proof. unfold once_inv, hinit; simpl. repeat split; auto; discriminate. Qed.

Lemma once_inv_finalize (who : Finalizer) sc h b n (s : HState) :
  once_inv s -> once_inv (finalize env who sc h b n s).
Proof.
  intros Hinv. destruct (hs_once s) eqn:Ho.
  - by rewrite finalize_fired.
  - destruct (finalize_fresh who sc h b n s Ho)
      as (Ho' & Hf & Hst & _).
    destruct Hinv as (Hlen & Hiff & _).
    assert (Hz : length (hs_finalizedBy s) = 0%nat).
    { destruct (length (hs_finalizedBy s)) as [|[|k]]; [done| |lia].
      assert (hs_once s = true) by (apply Hiff; reflexivity). congruence. }
    unfold once_inv. rewrite Ho', Hf, Hst, length_app, Hz. simpl.
    unfold StatusComplete, StatusError, StatusPending.
    repeat split; try lia; try done; case_bool_decide; discriminate.
Qed.

Lemma once_inv_step (s s' : HState) (a : HAction) :
  once_inv s -> hstep env s a = Some s' -> once_inv s'.
Proof.
  intros Hinv Hs. destruct a as [| c | | d]; simpl in Hs.
  - destruct (hs_main s) eqn:Hm; try discriminate.
    + injection Hs as <-. exact Hinv.
    + injection Hs as <-. destruct (he_cachedEntry env); exact Hinv.
    + destruct (hs_ctxDone s); injection Hs as <-; [exact Hinv|].
      destruct (he_firstWrite env); [|exact Hinv].
      destruct Hinv as (H1 & H2 & H3). split; [exact H1|]. split; [exact H2|exact H3].
    + injection Hs as <-.
      destruct (he_cachedEntry env); apply (once_inv_finalize _ _ _ _ _ _ Hinv).
  - destruct (hs_watch s) as [| | [] |] eqn:Hw; try discriminate.
    + unfold case_ready in Hs. repeat case_match; simplify_eq; exact Hinv.
    + injection Hs as <-. apply (once_inv_finalize _ _ _ _ _ _ Hinv).
    + injection Hs as <-. exact Hinv.
  - destruct (hs_ctxDone s); try discriminate. injection Hs as <-. exact Hinv.
  - injection Hs as <-. exact Hinv.
Qed.

Lemma hrun_preserves (P : HState -> Prop) :
  (forall s s' a, P s -> hstep env s a = Some s' -> P s') ->
  forall sched s s', P s -> hrun env s sched = Some s' -> P s'.
Proof.
  intros Hstep sched. induction sched as [|a rest IH]; intros s s' Hs Hrun;
    simpl in Hrun.
  - by injection Hrun as <-.
  - destruct (hstep env s a) as [s1|] eqn:E; [|discriminate].
    exact (IH s1 s' (Hstep _ _ _ Hs E) Hrun).
Qed.

Lemma finalize_at_most_once (req0 : LLMRequest) (sched : list HAction)
    (s : HState) :
  hrun env (hinit env req0) sched = Some s -> once_inv s.
Proof.
  apply hrun_preserves; [exact once_inv_step | apply once_inv_init].
Qed.

End HandlerProofs.

Section HandlerWatcher.

Variable env : HandlerEnv.

Lemma watcher_inv_init (req0 : LLMRequest) : watcher_inv (hinit env req0).
Proof.
  split; [apply once_inv_init|]. unfold hinit; simpl.
  repeat split; try discriminate.
Qed.

Lemma once_inv_fresh (s : HState) :
  once_inv s -> hs_once s = false -> hs_finalizedBy s = [].
Proof.
  intros (Hl & Hiff & _) Ho.
  destruct (hs_finalizedBy s) as [|w [|]] eqn:E; simpl in Hl; [done| |lia].
  assert (hs_once s = true) by (apply Hiff; reflexivity). congruence.
Qed.

Lemma watcher_inv_handler_finalize sc h b n (s : HState) :
  watcher_inv s -> watcher_inv (finalize env ByHandler sc h b n s).
Proof.
  intros Hinv. destruct (hs_once s) eqn:Ho; [by rewrite finalize_fired|].
  destruct Hinv as (Honce & Hw & Hc & _).
  split; [by apply once_inv_finalize|].
  destruct (finalize_fresh env ByHandler sc h b n s Ho)
    as (Ho' & Hf & _ & _ & _ & _ & _ & Hctx & _ & Hwt).
  rewrite Hwt, Hctx, Ho', Hf, (once_inv_fresh s Honce Ho).
  split; [exact Hw|]. split; [discriminate|]. discriminate.
Qed.

Lemma watcher_inv_watcher_finalize (s : HState) :
  watcher_inv s -> hs_watch s = WWoken CaseCtxDone ->
  watcher_inv (finalize env ByWatcher 499 ∅ [] 0 s).
Proof.
  intros Hinv Hwk. destruct (hs_once s) eqn:Ho; [by rewrite finalize_fired|].
  destruct Hinv as (Honce & Hw & Hc & _).
  split; [by apply once_inv_finalize|].
  destruct (finalize_fresh env ByWatcher 499 ∅ [] 0 s Ho)
    as (Ho' & Hf & Hst & Hsc & Hh & Hb & Hn & Hctx & _ & Hwt).
  rewrite Hwt, Hctx, Ho'. split; [exact Hw|]. split; [discriminate|].
  intros _. destruct (Hc Ho) as [Hcw Htj].
  pose proof (once_inv_fresh s Honce Ho) as Hz.
  unfold watcher_result. rewrite Hf, Hz, Hst, Hsc, Hh, Hb, Hn. simpl.
  unfold finalize. rewrite Ho. simpl. rewrite Hcw, Htj.
  repeat split; auto.
Qed.
Lemma watcher_inv_frame (s s' : HState) :
  watcher_inv s ->
  hs_finalizedBy s' = hs_finalizedBy s -> hs_once s' = hs_once s ->
  Status (hs_req s') = Status (hs_req s) ->
  StatusCode (hs_req s') = StatusCode (hs_req s) ->
  ResponseBody (hs_req s') = ResponseBody (hs_req s) ->
  ResponseHeaders (hs_req s') = ResponseHeaders (hs_req s) ->
  ResponseSize (hs_req s') = ResponseSize (hs_req s) ->
  hs_cacheWrites s' = hs_cacheWrites s -> hs_tokenJobs s' = hs_tokenJobs s ->
  (hs_ctxDone s = true -> hs_ctxDone s' = true) ->
  (hs_watch s' = WWoken CaseCtxDone -> hs_ctxDone s' = true) ->
  watcher_inv s'.
Proof.
  intros ((Hl & Hiff & Hpend) & _ & Hc & Hres) Hf Ho Hst Hsc Hb Hh Hn Hcw Htj
    Hctx Hw'.
  split; [|split; [exact Hw'|split]].
  - unfold once_inv. rewrite Hf, Ho, Hst. auto.
  - rewrite Ho, Hcw, Htj. exact Hc.
  - rewrite Hf. intros Hhd. destruct (Hres Hhd) as (H1 & H2 & H3 & H4 & H5 & H6 & H7 & H8 & H9).
    unfold watcher_result. rewrite Hf, Hst, Hsc, Hb, Hh, Hn, Hcw, Htj.
    repeat split; auto.
Qed.

Lemma watcher_inv_step (s s' : HState) (a : HAction) :
  watcher_inv s -> hstep env s a = Some s' -> watcher_inv s'.
Proof.
  intros Hinv Hs. pose proof Hinv as (_ & Hw & _).
  destruct a as [| c | | d]; unfold hstep in Hs.
  - destruct (hs_main s) eqn:Hm; try discriminate.
    + injection Hs as <-. exact Hinv.
    + injection Hs as <-.
      apply (watcher_inv_frame s); simpl; auto;
        destruct (he_cachedEntry env); simpl; intros E; apply Hw;
        destruct (hs_watch s) as [| | [] |]; simpl in E; congruence.
    + destruct (hs_ctxDone s) eqn:Hcd; injection Hs as <-; [exact Hinv|].
      destruct (he_firstWrite env); [|exact Hinv].
      apply (watcher_inv_frame s); simpl; auto; congruence.
    + injection Hs as <-.
      assert (Hf : forall sc h b n,
        watcher_inv (with_main (finalize env ByHandler sc h b n s) MReturned)).
      { intros sc h b n.
        pose proof (watcher_inv_handler_finalize sc h b n s Hinv) as Hi.
        pose proof Hi as (_ & Hw' & _).
        apply (watcher_inv_frame _ _ Hi); simpl; auto. }
      destruct (he_cachedEntry env); apply Hf.
  - destruct (hs_watch s) as [| | [] |] eqn:Hws; try discriminate.
    + unfold case_ready in Hs. repeat case_match; simplify_eq;
        apply (watcher_inv_frame s); simpl; auto; intros E; by simplify_eq.
    + injection Hs as <-.
      apply (watcher_inv_frame (finalize env ByWatcher 499 ∅ [] 0 s));
        auto using watcher_inv_watcher_finalize; simpl; discriminate.
    + injection Hs as <-. apply (watcher_inv_frame s); simpl; auto.
      discriminate.
  - destruct (hs_ctxDone s); [discriminate|]. injection Hs as <-.
    apply (watcher_inv_frame s); simpl; auto.
  - injection Hs as <-. apply (watcher_inv_frame s); simpl; auto.
Qed.
End HandlerWatcher.

Lemma watcher_inv_run (env : HandlerEnv) (req0 : LLMRequest)
    (sched : list HAction) (s : HState) :
  hrun env (hinit env req0) sched = Some s -> watcher_inv s.
Proof.
  apply hrun_preserves; [exact (watcher_inv_step env) | apply watcher_inv_init].
Qed.

(** C1 (exactly-once finalize under the completion/cancellation race).
    On a cache miss, let the client cancel, the upstream call return and the
    handler close [cancelDone] before the watcher goroutine first runs its
    [select]: with both cases ready, [select] may pick [cancelDone]; the
    handler then sees [r.Context().Err() != nil] and returns.  Both
    goroutines finish, the [Once] body never ran, the record is still
    [StatusPending], no [request_complete] was written, and no further step
    of either goroutine or the client is possible. *)
Theorem handler_cancel_race_never_finalizes :
  exists s,
    hrun env_miss (hinit env_miss demo_req) sched_cancel_race = Some s /\
    hfinished s = true /\ hs_finalizedBy s = [] /\
    Status (hs_req s) = StatusPending /\ hs_tape s = [] /\
    (forall a, (forall d, a <> ATick d) -> hstep env_miss s a = None).
Proof.
  eexists. split; [reflexivity|]. simpl.
  repeat split.
  intros [| [] | | d] Hd; try reflexivity. exfalso. by apply (Hd d).
Qed.

(** C6, counterexample: on a cache hit the client cancels before anything
    is finalized, yet the handler's own [finalize] (which does not consult
    the context on this path) runs first: the record is finalized with the
    cached [200], the response is written to the cache again and a token
    extraction is started. *)
Lemma handler_hit_cancel_counterexample :
  exists s1 s,
    hrun env_hit (hinit env_hit demo_req) [ACancel] = Some s1 /\
    hs_ctxDone s1 = true /\ hs_finalizedBy s1 = [] /\
    hrun env_hit (hinit env_hit demo_req) sched_hit_race = Some s /\
    hfinished s = true /\ hs_finalizedBy s = [ByHandler] /\
    StatusCode (hs_req s) = 200 /\ hs_cacheWrites s <> [] /\
    hs_tokenJobs s <> [].
Proof.
  do 2 eexists. split; [reflexivity|]. split; [reflexivity|].
  split; [reflexivity|]. split; [reflexivity|]. simpl.
  repeat split; discriminate.
Qed.

(** C6, as amended: whenever the body of [finalize] is run by the
    disconnect watcher (which only happens once the inbound context is
    cancelled), the request is finalized exactly once, with status code 499,
    status [StatusError], no response headers or body, response size 0, no
    cache write and no token extraction. *)
Theorem watcher_finalize_is_client_cancelled (env : HandlerEnv)
    (req0 : LLMRequest) (sched : list HAction) (s : HState) :
  hrun env (hinit env req0) sched = Some s ->
  head (hs_finalizedBy s) = Some ByWatcher ->
  hs_finalizedBy s = [ByWatcher] /\ hs_ctxDone s = true /\
  StatusCode (hs_req s) = 499 /\ Status (hs_req s) = StatusError /\
  ResponseBody (hs_req s) = [] /\ ResponseHeaders (hs_req s) = ∅ /\
  ResponseSize (hs_req s) = 0 /\
  hs_cacheWrites s = [] /\ hs_tokenJobs s = [].
Proof.
  intros Hrun Hhd. destruct (watcher_inv_run env req0 sched s Hrun)
    as (_ & _ & _ & Hres).
  exact (Hres Hhd).
Qed.

Lemma watcher_finalize_is_client_cancelled_witness :
  exists s,
    hrun env_miss (hinit env_miss demo_req) sched_watcher_wins = Some s /\
    head (hs_finalizedBy s) = Some ByWatcher /\ StatusCode (hs_req s) = 499.
Proof.
  eexists. split; [reflexivity|]. split; [reflexivity|].
  refine (proj1 (proj2 (proj2 (watcher_finalize_is_client_cancelled
    env_miss demo_req sched_watcher_wins _ _ _)))); reflexivity.
Defined.

(** ** The in-memory TTL cache *)

Lemma sweeps_ttl (ticks : list Time) (c : MemoryCache) :
  mc_ttl (MemoryCache_sweeps ticks c) = mc_ttl c.
Proof. revert c; induction ticks as [|t ts IH]; intros c; [done|]. simpl. by rewrite IH. Qed.

Lemma sweeps_keep (ticks : list Time) (c : MemoryCache) (k : string)
    (v : CacheEntry * Time) :
  mc_data c !! k = Some v -> Forall (fun now => now <= v.2) ticks ->
  mc_data (MemoryCache_sweeps ticks c) !! k = Some v.
Proof.
  revert c; induction ticks as [|t ts IH]; intros c Hk Hall; [done|].
  inversion Hall as [|? ? Ht Hts]; subst. simpl. apply IH; [|done].
  simpl. apply map_lookup_filter_Some_2; [done|]. simpl. lia.
Qed.

Lemma sweeps_none (ticks : list Time) (c : MemoryCache) (k : string) :
  mc_data c !! k = None -> mc_data (MemoryCache_sweeps ticks c) !! k = None.
Proof.
  revert c; induction ticks as [|t ts IH]; intros c Hk; [done|].
  simpl. apply IH. simpl. apply map_lookup_filter_None_2. by left.
Qed.

Lemma sweeps_keep_or_drop (ticks : list Time) (c : MemoryCache) (k : string)
    (v : CacheEntry * Time) :
  mc_data c !! k = Some v ->
  mc_data (MemoryCache_sweeps ticks c) !! k = Some v \/
  mc_data (MemoryCache_sweeps ticks c) !! k = None.
Proof.
  revert c; induction ticks as [|t ts IH]; intros c Hk; [by left|].
  simpl. destruct (mc_data (MemoryCache_sweep t c) !! k) as [v'|] eqn:E.
  - apply map_lookup_filter_Some in E as [E1 E2]. rewrite Hk in E1.
    injection E1 as <-. apply IH. simpl. by apply map_lookup_filter_Some_2.
  - right. by apply sweeps_none.
Qed.

(** C8 (cache round trip and expiry).  After [Set(k, e)] at time [t0], a
    [Get(k)] at time [t1] returns the very entry [e] (same body, headers and
    status code) as long as the TTL has not elapsed ([t1 <= t0 + ttl]), and a
    miss once it has ([t1 > t0 + ttl]); any sweeps of the background cleanup
    goroutine in between, at times up to [t1], do not change this. *)
Theorem memory_cache_set_then_get (c : MemoryCache) (k : string)
    (e : CacheEntry) (t0 t1 : Time) (ticks : list Time) :
  Forall (fun now => now <= t1) ticks ->
  fst (MemoryCache_Get t1 (MemoryCache_sweeps ticks (MemoryCache_Set t0 c k e)) k)
  = if bool_decide (t1 <= t0 + mc_ttl c) then Some e else None.
Proof.
  intros Hticks.
  assert (Hk : mc_data (MemoryCache_Set t0 c k e) !! k = Some (e, t0 + mc_ttl c)).
  { simpl. apply lookup_insert_eq. }
  case_bool_decide as Hle.
  - unfold MemoryCache_Get. rewrite (sweeps_keep ticks _ k _ Hk).
    + simpl. destruct (Z.ltb_spec (t0 + mc_ttl c) t1); [lia|done].
    + eapply Forall_impl; [exact Hticks|]. simpl. intros n Hn. lia.
  - destruct (sweeps_keep_or_drop ticks _ k _ Hk) as [E|E];
      unfold MemoryCache_Get; rewrite E; [|done].
    destruct (Z.ltb_spec (t0 + mc_ttl c) t1); [done|lia].
Qed.

Lemma memory_cache_set_then_get_witness :
  fst (MemoryCache_Get 5 (MemoryCache_sweeps [3]
         (MemoryCache_Set 0 (mkMemoryCache ∅ 10) "k"
            (mkCacheEntry demo_body ∅ 200 7 0))) "k")
  = Some (mkCacheEntry demo_body ∅ 200 7 0).
Proof.
  refine (eq_trans (memory_cache_set_then_get (mkMemoryCache ∅ 10) "k"
            (mkCacheEntry demo_body ∅ 200 7 0) 0 5 [3] _) _).
  - repeat constructor; lia.
  - reflexivity.
Defined.

(** ** The tape payload of a request *)

Lemma b64_char_ok : forallb (fun n => match b64_val (b64_char n) with
                                       | Some m => (m =? n) && html_safe (byte_val (b64_char n))
                                                   && negb (Ascii.eqb (b64_char n) "=")
                                       | None => false end)
                      (map Z.of_nat (seq 0 64)) = true.
Proof. vm_compute. reflexivity. Qed.

Lemma b64_char_spec n : 0 <= n < 64 ->
  b64_val (b64_char n) = Some n /\ html_safe (byte_val (b64_char n)) = true /\
  Ascii.eqb (b64_char n) "=" = false.
Proof.
  intros Hn. pose proof b64_char_ok as H. rewrite forallb_forall in H.
  specialize (H n). rewrite in_map_iff in H.
  destruct (b64_val (b64_char n)) as [m|] eqn:E.
  - assert (Hb : (m =? n) && html_safe (byte_val (b64_char n)) && negb (Ascii.eqb (b64_char n) "=") = true).
    { apply H. exists (Z.to_nat n). split; [lia|]. apply in_seq. lia. }
    apply andb_prop in Hb as [Hb Hc]. apply andb_prop in Hb as [Ha Hb].
    apply Z.eqb_eq in Ha. subst. repeat split; auto. destruct (Ascii.eqb _ _); auto.
  - exfalso. assert (false = true); [apply H; exists (Z.to_nat n); split; [lia|apply in_seq; lia]|discriminate].
Qed.

Lemma lor_shiftl_add x c k : 0 <= k -> 0 <= c < 2 ^ k ->
  Z.lor (Z.shiftl x k) c = x * 2 ^ k + c.
Proof.
  intros Hk Hc. rewrite <- Z.lxor_lor, <- Z.add_nocarry_lxor; [rewrite Z.shiftl_mul_pow2 by lia; reflexivity| |];
  apply Z.bits_inj'; intros n Hn; rewrite Z.land_spec, Z.bits_0;
  (destruct (Z.lt_ge_cases n k);
   [rewrite Z.shiftl_spec_low by lia; reflexivity
   | rewrite <- (Z.mod_small c (2 ^ k)) by lia; rewrite Z.mod_pow2_bits_high by lia; apply andb_false_r]).
Qed.

Lemma land63 v : Z.land v 63 = v mod 64.
Proof. change 63 with (Z.ones 6). rewrite Z.land_ones by lia. reflexivity. Qed.

Lemma uint_of_byte_range b : 0 <= uint_of_byte b < 256.
Proof. unfold uint_of_byte. destruct b; cbn; lia. Qed.

Lemma byte_of_Z_uint b : byte_of_Z (uint_of_byte b) = b.
Proof. destruct b; reflexivity. Qed.

Lemma val3 a b c : 0 <= b < 256 -> 0 <= c < 256 ->
  Z.lor (Z.lor (Z.shiftl a 16) (Z.shiftl b 8)) c = a * 65536 + b * 256 + c.
Proof.
  intros Hb Hc. rewrite (Z.shiftl_mul_pow2 b 8), (lor_shiftl_add a) by lia.
  replace (a * 2 ^ 16 + b * 2 ^ 8) with (Z.shiftl (a * 2 ^ 8 + b) 8)
    by (rewrite Z.shiftl_mul_pow2; lia).
  rewrite lor_shiftl_add by lia. lia.
Qed.

Lemma val2 a b : 0 <= b < 256 ->
  Z.lor (Z.shiftl a 16) (Z.shiftl b 8) = a * 65536 + b * 256.
Proof.
  intros Hb. rewrite (Z.shiftl_mul_pow2 b 8), (lor_shiftl_add a) by lia. lia.
Qed.

Ltac bytes_eq := repeat match goal with
  | |- ?x = ?x => reflexivity
  | |- Some _ = Some _ => f_equal
  | |- _ :: _ = _ :: _ => f_equal
  | |- byte_of_Z ?e = ?s => replace e with (uint_of_byte s) by (Z.to_euclidean_division_equations; nia);
      apply byte_of_Z_uint
  end.

Lemma b64_decode_encode l : b64_decode (b64_encode l) = Some l.
Proof.
  induction l as [l IH] using (induction_ltof1 _ (@length _)). unfold ltof in IH.
  destruct l as [|s0 [|s1 [|s2 r]]]; [reflexivity| | |].
  - pose proof (uint_of_byte_range s0) as H0.
    cbn [b64_encode]. rewrite !land63, !Z.shiftr_div_pow2, !Z.shiftl_mul_pow2 by lia.
    change (2 ^ 18) with 262144 in *; change (2 ^ 12) with 4096 in *;
    change (2 ^ 6) with 64 in *; change (2 ^ 16) with 65536 in *.
    cbn [b64_decode].
    destruct (b64_char_spec ((uint_of_byte s0 * 65536 / 262144) mod 64)) as (-> & _ & _); [apply Z.mod_pos_bound; lia|].
    destruct (b64_char_spec ((uint_of_byte s0 * 65536 / 4096) mod 64)) as (-> & _ & _); [apply Z.mod_pos_bound; lia|].
    cbn. bytes_eq.
  - pose proof (uint_of_byte_range s0) as H0. pose proof (uint_of_byte_range s1) as H1.
    cbn [b64_encode]. rewrite val2 by lia. rewrite !land63, !Z.shiftr_div_pow2 by lia.
    change (2 ^ 18) with 262144 in *; change (2 ^ 12) with 4096 in *;
    change (2 ^ 6) with 64 in *; change (2 ^ 16) with 65536 in *.
    cbn [b64_decode].
    set (v := uint_of_byte s0 * 65536 + uint_of_byte s1 * 256).
    destruct (b64_char_spec ((v / 262144) mod 64)) as (-> & _ & _); [apply Z.mod_pos_bound; lia|].
    destruct (b64_char_spec ((v / 4096) mod 64)) as (-> & _ & _); [apply Z.mod_pos_bound; lia|].
    destruct (b64_char_spec ((v / 64) mod 64)) as (-> & _ & ->); [apply Z.mod_pos_bound; lia|].
    cbn. subst v. bytes_eq.
  - pose proof (uint_of_byte_range s0) as H0. pose proof (uint_of_byte_range s1) as H1.
    pose proof (uint_of_byte_range s2) as H2.
    cbn [b64_encode]. rewrite val3 by lia. rewrite !land63, !Z.shiftr_div_pow2 by lia.
    change (2 ^ 18) with 262144 in *; change (2 ^ 12) with 4096 in *;
    change (2 ^ 6) with 64 in *; change (2 ^ 16) with 65536 in *.
    cbn [b64_decode].
    set (v := uint_of_byte s0 * 65536 + uint_of_byte s1 * 256 + uint_of_byte s2).
    destruct (b64_char_spec ((v / 262144) mod 64)) as (-> & _ & _); [apply Z.mod_pos_bound; lia|].
    destruct (b64_char_spec ((v / 4096) mod 64)) as (-> & _ & _); [apply Z.mod_pos_bound; lia|].
    destruct (b64_char_spec ((v / 64) mod 64)) as (-> & _ & ->); [apply Z.mod_pos_bound; lia|].
    destruct (b64_char_spec (v mod 64)) as (-> & _ & ->); [apply Z.mod_pos_bound; lia|].
    rewrite IH by (cbn; lia). cbn. subst v. bytes_eq.
Qed.

Lemma b64_encode_safe l : Forall (fun c => html_safe (byte_val c) = true) (b64_encode l).
Proof.
  induction l as [l IH] using (induction_ltof1 _ (@length _)). unfold ltof in IH.
  assert (Hc : forall v, html_safe (byte_val (b64_char (Z.land v 63))) = true).
  { intros v. rewrite land63. apply b64_char_spec, Z.mod_pos_bound. lia. }
  destruct l as [|s0 [|s1 [|s2 r]]]; cbn [b64_encode]; repeat constructor; try apply Hc; try reflexivity.
  apply IH. cbn. lia.
Qed.

Lemma lex_string_plain fuel t post acc :
  Forall (fun c => html_safe (byte_val c) = true) t -> (length t < fuel)%nat ->
  lex_string fuel (t ++ quote :: post) acc = Some (rev acc ++ t, post).
Proof.
  revert fuel acc. induction t as [|c t IH]; intros fuel acc Ht Hf;
    (destruct fuel as [|f]; [cbn in Hf; lia|]).
  - cbn. rewrite app_nil_r. reflexivity.
  - inversion Ht as [|? ? Hc Ht']; subst. cbn [app lex_string].
    unfold html_safe in Hc. apply andb_prop in Hc as [Hc Hn]. apply andb_prop in Hc as [H32 H128].
    apply negb_true_iff in Hn. rewrite !orb_false_iff, !Z.eqb_neq in Hn.
    destruct (Ascii.eqb c quote) eqn:E1.
    { apply Ascii.eqb_eq in E1. subst. exfalso. destruct Hn as ((((Ha & Hb) & _) & _) & _).
      first [apply Ha; reflexivity | apply Hb; reflexivity]. }
    destruct (Ascii.eqb c backslash) eqn:E2.
    { apply Ascii.eqb_eq in E2. subst. exfalso. destruct Hn as ((((Ha & Hb) & _) & _) & _).
      first [apply Ha; reflexivity | apply Hb; reflexivity]. }
    rewrite Z.leb_le in H32. rewrite H128.
    replace (byte_val c <? 32) with false by (symmetry; apply Z.ltb_ge; lia).
    rewrite IH by (auto; cbn in Hf; lia). cbn. rewrite <- app_assoc. reflexivity.
Qed.

Lemma filter_html_safe t :
  Forall (fun c => html_safe (byte_val c) = true) t ->
  filter (fun c => negb (Ascii.eqb c "010"%char || Ascii.eqb c "013"%char)) t = t.
Proof.
  induction 1 as [|c t Hc _ IH]; [reflexivity|]. rewrite filter_cons, IH.
  destruct (Ascii.eqb c "010"%char) eqn:E1; [apply Ascii.eqb_eq in E1; subst; discriminate|].
  destruct (Ascii.eqb c "013"%char) eqn:E2; [apply Ascii.eqb_eq in E2; subst; discriminate|].
  reflexivity.
Qed.

Lemma join_member (sep : list ascii) xs y ys : exists pre post,
  join sep (xs ++ y :: ys) = pre ++ y ++ post /\
  (pre = [] \/ exists q, pre = q ++ sep) /\ (post = [] \/ exists q, post = sep ++ q).
Proof.
  induction xs as [|x xs IH].
  - destruct ys as [|y' ys].
    + exists [], []. cbn. rewrite app_nil_r. auto.
    + exists [], (sep ++ join sep (y' :: ys)). split; [reflexivity|]. eauto.
  - destruct IH as (pre & post & E & Hpre & Hpost).
    exists (x ++ sep ++ pre), post. split; [|split; [right|exact Hpost]].
    + cbn [app]. destruct (xs ++ y :: ys) eqn:Exs; [destruct xs; discriminate|].
      change (join sep (x :: l :: l0)) with (x ++ sep ++ join sep (l :: l0)).
      rewrite E. rewrite !app_assoc. reflexivity.
    + destruct Hpre as [->|(q & ->)].
      * exists x. rewrite app_nil_r. reflexivity.
      * exists (x ++ sep ++ q). rewrite !app_assoc. reflexivity.
Qed.

Lemma encodeStruct_member fields F1 F2 k v :
  fields = F1 ++ Some (k, v) :: F2 -> exists pre post,
  encodeStruct fields = "{"%char :: pre ++ jkey k ++ v ++ post /\
  (pre = [] \/ exists q, pre = q ++ [","%char]) /\ (post = ["}"%char] \/ exists q, post = ","%char :: q).
Proof.
  intros ->. unfold encodeStruct. rewrite omap_app. cbn [omap list_omap].
  rewrite map_app. cbn [map].
  destruct (join_member [","%char] (map (fun '(k0, v0) => jkey k0 ++ v0) (omap (fun x => x) F1))
              (jkey k ++ v) (map (fun '(k0, v0) => jkey k0 ++ v0) (omap (fun x => x) F2)))
    as (pre & post & E & Hpre & Hpost).
  exists pre, (post ++ ["}"%char]). rewrite E. split; [rewrite <- !app_assoc; reflexivity|].
  split; [exact Hpre|]. destruct Hpost as [->|(q & ->)]; [left; reflexivity|right; eexists; reflexivity].
Qed.

Lemma b64_member fields F1 F2 k body :
  fields = F1 ++ Some (k, encodeByteSlice body) :: F2 -> exists pre post,
  encodeStruct fields = "{"%char :: pre ++ jkey k ++ quote :: b64_encode body ++ quote :: post /\
  (pre = [] \/ exists q, pre = q ++ [","%char]) /\
  (post = ["}"%char] \/ exists q, post = ","%char :: q) /\
  lex_string_top (b64_encode body ++ quote :: post) =
    Some (string_of_list_ascii (b64_encode body), post) /\
  dec_bytes [] (JStr (string_of_list_ascii (b64_encode body))) = Some body.
Proof.
  intros E. destruct (encodeStruct_member _ _ _ _ _ E) as (pre & post & E' & Hpre & Hpost).
  exists pre, post. split; [|split; [exact Hpre|split; [exact Hpost|split]]].
  - rewrite E'. unfold encodeByteSlice. cbn [app]. rewrite <- app_assoc. reflexivity.
  - unfold lex_string_top. rewrite lex_string_plain; [reflexivity|apply b64_encode_safe|].
    rewrite length_app. cbn. lia.
  - cbn [dec_bytes]. unfold StdEncoding_Decode. rewrite list_ascii_of_string_of_list_ascii.
    rewrite filter_html_safe by apply b64_encode_safe. apply b64_decode_encode.
Qed.

(** C2, counterexample: the payload written by [WriteRequestStart],
    [WriteRequestUpdate] and [WriteRequestComplete] is [json.Marshal] of
    [requestToTapeData req]; two records that differ in time-to-first-byte,
    the cache-hit flag and the owning proxy name get byte-identical
    payloads, with no member for any of the three. *)
Lemma tape_payload_drops_fields_counterexample :
  request_payload marshal_time_utc_zero tape_demo_req =
    Some (jtext ("{'id':0,'method':'','path':'','host':'','url':'','model':'','status':0," ++
                 "'status_code':200,'start_time':'0001-01-01T00:00:00Z','duration':0," ++
                 "'response_body':'e30=','request_size':0,'response_size':2," ++
                 "'is_streaming':false}")) /\
  request_payload marshal_time_utc_zero tape_demo_req =
    request_payload marshal_time_utc_zero tape_demo_proxied /\
  TTFT tape_demo_req <> TTFT tape_demo_proxied /\
  CachedResponse tape_demo_req <> CachedResponse tape_demo_proxied /\
  ProxyName tape_demo_req <> ProxyName tape_demo_proxied.
Proof. split; [vm_compute; reflexivity|]. repeat split; discriminate. Qed.

(** The value a [request_*] event serializes, [requestToTapeData req],
    determines exactly the record's fields other than time-to-first-byte,
    the cache-hit flag, the proxy name and the proxy listen address, and
    reading it back with [tapeDataToRequest] returns the record with those
    four fields at their zero values. *)
Lemma tape_payload_fields (r1 r2 : LLMRequest) :
  (requestToTapeData r1 = requestToTapeData r2 <->
   drop_unrecorded r1 = drop_unrecorded r2) /\
  tapeDataToRequest (requestToTapeData r1) = drop_unrecorded r1.
Proof.
  destruct r1, r2; unfold drop_unrecorded, with_unrecorded; simpl.
  split; [|reflexivity].
  split; intros H; injection H; intros; subst; reflexivity.
Qed.

(** C2, as amended: the payload of a [request_*] event, [json.Marshal] of
    [requestToTapeData req] (with any encoding [MarshalTime] of the start
    time), is the same for [req] and for [req] with time-to-first-byte, the
    cache-hit flag, the proxy name and the listen address cleared.  When the
    marshalling succeeds, a non-empty request (response) body is the member
    [request_body] ([response_body]) of the object, written as the quoted
    standard padded base64 text of the bytes: the tape reader's string
    scanner reads that text back up to its closing quote, and its [[]byte]
    decoder turns it into the same bytes. *)
Theorem tape_payload_base64 (MarshalTime : Time -> option (list ascii)) (r : LLMRequest) :
  request_payload MarshalTime r = request_payload MarshalTime (drop_unrecorded r) /\
  (forall p, request_payload MarshalTime r = Some p ->
   (RequestBody r <> [] -> exists pre post,
      p = "{"%char :: pre ++ jkey "request_body" ++ quote :: b64_encode (RequestBody r)
            ++ quote :: post /\
      (pre = [] \/ exists q, pre = q ++ [","%char]) /\
      (post = ["}"%char] \/ exists q, post = ","%char :: q) /\
      lex_string_top (b64_encode (RequestBody r) ++ quote :: post) =
        Some (string_of_list_ascii (b64_encode (RequestBody r)), post) /\
      dec_bytes [] (JStr (string_of_list_ascii (b64_encode (RequestBody r)))) =
        Some (RequestBody r)) /\
   (ResponseBody r <> [] -> exists pre post,
      p = "{"%char :: pre ++ jkey "response_body" ++ quote :: b64_encode (ResponseBody r)
            ++ quote :: post /\
      (pre = [] \/ exists q, pre = q ++ [","%char]) /\
      (post = ["}"%char] \/ exists q, post = ","%char :: q) /\
      lex_string_top (b64_encode (ResponseBody r) ++ quote :: post) =
        Some (string_of_list_ascii (b64_encode (ResponseBody r)), post) /\
      dec_bytes [] (JStr (string_of_list_ascii (b64_encode (ResponseBody r)))) =
        Some (ResponseBody r))).
Proof.
  split; [destruct r; reflexivity|].
  intros p. unfold request_payload, Marshal_TapeRequestData.
  destruct (MarshalTime (td_StartTime (requestToTapeData r))) as [st|]; [|discriminate].
  intros [= <-]. split; intros Hb.
  - eapply (b64_member _ [_;_;_;_;_;_;_;_;_;_;_;_] _).
    unfold tape_fields. cbn [td_RequestBody requestToTapeData].
    destruct (RequestBody r); [congruence|]. reflexivity.
  - eapply (b64_member _ [_;_;_;_;_;_;_;_;_;_;_;_;_] _).
    unfold tape_fields. cbn [td_ResponseBody requestToTapeData].
    destruct (ResponseBody r); [congruence|]. reflexivity.
Qed.

(** The response body [{}] of [tape_demo_req] is the member
    [response_body] of its payload. *)
Lemma tape_payload_base64_witness :
  ResponseBody tape_demo_req <> [] /\
  exists p pre post,
    request_payload marshal_time_utc_zero tape_demo_req = Some p /\
    p = "{"%char :: pre ++ jkey "response_body" ++ quote
          :: b64_encode (ResponseBody tape_demo_req) ++ quote :: post.
Proof.
  split; [discriminate|].
  pose (p := match request_payload marshal_time_utc_zero tape_demo_req with
             | Some p => p | None => [] end).
  assert (Hp : request_payload marshal_time_utc_zero tape_demo_req = Some p)
    by (vm_compute; reflexivity).
  destruct (proj2 (tape_payload_base64 marshal_time_utc_zero tape_demo_req) p Hp) as [_ H].
  destruct (H ltac:(discriminate)) as (pre & post & E & _).
  exists p, pre, post. split; [exact Hp|exact E].
Defined.

(** ** Sorting *)

Section SortBy.

Context {A : Type} (R : A -> A -> Prop) (less : A -> A -> bool).
Hypothesis less_true : forall a b, less a b = true -> R a b.
Hypothesis less_false : forall a b, less a b = false -> R b a.

Lemma insert_by_HdRel (y x : A) (l : list A) :
  R y x -> HdRel R y l -> HdRel R y (insert_by less x l).
Proof.
  intros Hyx Hhd. destruct l as [|z r]; simpl; [by constructor|].
  destruct (less x z); constructor; [done|]. by inversion Hhd.
Qed.

Lemma insert_by_sorted (x : A) (l : list A) :
  Sorted R l -> Sorted R (insert_by less x l).
Proof.
  induction 1 as [|y r Hs IH Hhd]; simpl; [by repeat constructor|].
  destruct (less x y) eqn:E.
  - constructor; [by constructor|]. constructor. by apply less_true.
  - constructor; [done|]. apply insert_by_HdRel; [by apply less_false|done].
Qed.

Lemma sort_by_sorted (l : list A) : Sorted R (sort_by less l).
Proof.
  unfold sort_by. cut (forall acc, Sorted R acc ->
    Sorted R (fold_left (fun acc x => insert_by less x acc) l acc)).
  { intros H. apply H. constructor. }
  induction l as [|x l IH]; intros acc Hacc; simpl; [done|].
  apply IH, insert_by_sorted, Hacc.
Qed.

End SortBy.

Lemma sort_by_less_ID_sorted (σ : Store) (l : list N) :
  Sorted (fun a b => ID (deref σ a) <= ID (deref σ b)) (sort_by (less_ID σ) l).
Proof.
  apply sort_by_sorted; unfold less_ID; intros a b H.
  - apply Z.ltb_lt in H. lia.
  - apply Z.ltb_ge in H. lia.
Qed.

Lemma sort_by_less_Time_sorted (l : list TimelineEntry) :
  Sorted (fun a b => tl_Time a <= tl_Time b) (sort_by less_Time l).
Proof.
  apply sort_by_sorted; unfold less_Time; intros a b H.
  - apply Z.ltb_lt in H. lia.
  - apply Z.ltb_ge in H. lia.
Qed.

(** ** Loading a tape *)

(** C4: whenever [LoadTape] succeeds, [Requests] is sorted by ascending ID
    (of the records the pointers point at in the returned heap) and the
    [Timeline] is non-decreasing in time. *)
Theorem LoadTape_sorted (filename : string) (file : list ascii) (σ0 : Store)
    (t : Tape) (σ : Store) :
  LoadTape filename file σ0 = Some (t, σ) ->
  Sorted (fun a b => ID (deref σ a) <= ID (deref σ b)) (tp_Requests t) /\
  Sorted (fun a b => tl_Time a <= tl_Time b) (tp_Timeline t).
Proof.
  unfold LoadTape. destruct (scan_lines file) as [lines|]; [|discriminate].
  destruct (fold_left load_line lines (emptyTape filename, σ0)) as [t1 σ1].
  intros H. injection H as <- <-. simpl.
  split; [apply sort_by_less_ID_sorted | apply sort_by_less_Time_sorted].
Qed.

Lemma LoadTape_sorted_witness :
  exists t σ, LoadTape "replay.tape" tape_ordered empty_store = Some (t, σ) /\
    Sorted (fun a b => ID (deref σ a) <= ID (deref σ b)) (tp_Requests t) /\
    Sorted (fun a b => tl_Time a <= tl_Time b) (tp_Timeline t).
Proof.
  destruct (LoadTape "replay.tape" tape_ordered empty_store) as [[t σ]|] eqn:E.
  - exists t, σ. split; [reflexivity|].
    exact (LoadTape_sorted "replay.tape" tape_ordered empty_store t σ E).
  - vm_compute in E. discriminate.
Defined.

(** ** Stepping through a tape *)

Lemma time_le_trans : Transitive time_le.
Proof. unfold time_le. intros a b c; lia. Qed.

Lemma sorted_head_le (e : TimelineEntry) (r : list TimelineEntry) :
  Sorted time_le (e :: r) -> Forall (fun e' => tl_Time e <= tl_Time e') r.
Proof.
  intros Hs. apply Sorted_StronglySorted in Hs; [|exact time_le_trans].
  by inversion Hs.
Qed.

Lemma filter_all_after (cur : Time) (l : list TimelineEntry) :
  Forall (fun e => cur < tl_Time e) l ->
  List.filter (fun e => cur <? tl_Time e) l = l.
Proof.
  induction 1 as [|e r He _ IH]; simpl; [done|].
  rewrite (proj2 (Z.ltb_lt _ _) He). by f_equal.
Qed.

Lemma stepForward_loop_spec (t : Tape) (pre l : list TimelineEntry) :
  tp_Timeline t = pre ++ l ->
  Sorted time_le l ->
  (stepForward_loop t (length pre) l = (t, false) /\
   Forall (fun e => tl_Time e <= tp_CurrentTime t) l) \/
  (exists e, stepForward_loop t (length pre) l =
     (set_current t (tl_Time e),
      Nat.leb 2 (length (List.filter (fun e => tp_CurrentTime t <? tl_Time e) l))) /\
   In e l /\ tp_CurrentTime t < tl_Time e /\
   Forall (fun e' => tp_CurrentTime t < tl_Time e' -> tl_Time e <= tl_Time e') l).
Proof.
  revert pre. induction l as [|e r IH]; intros pre Ht Hs; cbn [stepForward_loop].
  { left. split; [done|constructor]. }
  destruct (tp_CurrentTime t <? tl_Time e) eqn:E.
  - apply Z.ltb_lt in E. pose proof (sorted_head_le e r Hs) as Hr.
    right. exists e. split; [|split; [by left|split; [done|]]].
    + rewrite filter_all_after.
      2: { constructor; [done|]. eapply Forall_impl; [exact Hr|]. simpl. lia. }
      rewrite Ht, length_app. f_equal.
      apply Bool.eq_iff_eq_true. rewrite Nat.ltb_lt, Nat.leb_le. simpl. lia.
    + constructor; [lia|]. eapply Forall_impl; [exact Hr|]. simpl. lia.
  - apply Z.ltb_ge in E. inversion Hs as [|? ? Hs' _]; subst.
    destruct (IH (pre ++ [e])) as [[H1 H2]|(e' & H1 & H2 & H3 & H4)].
    + by rewrite Ht, <- app_assoc.
    + done.
    + left. rewrite length_app in H1. simpl in H1.
      rewrite Nat.add_1_r in H1. split; [done|]. by constructor.
    + right. exists e'. rewrite length_app in H1. simpl in H1.
      rewrite Nat.add_1_r in H1. simpl. rewrite (proj2 (Z.ltb_ge _ _) E).
      split; [done|]. split; [by right|].
      split; [done|]. constructor; [lia|done].
Qed.

Lemma stepBackward_loop_spec (cur : Time) (lb : option TimelineEntry)
    (l : list TimelineEntry) :
  Sorted time_le l ->
  (stepBackward_loop cur lb l = lb /\ Forall (fun e => cur <= tl_Time e) l) \/
  (exists e, stepBackward_loop cur lb l = Some e /\ In e l /\ tl_Time e < cur /\
   Forall (fun e' => tl_Time e' < cur -> tl_Time e' <= tl_Time e) l).
Proof.
  revert lb. induction l as [|e r IH]; intros lb Hs; simpl; [by left|].
  pose proof (sorted_head_le e r Hs) as Hr.
  inversion Hs as [|? ? Hs' _]; subst.
  destruct (tl_Time e <? cur) eqn:E.
  - apply Z.ltb_lt in E. right.
    destruct (IH (Some e) Hs') as [[H1 H2]|(e' & H1 & H2 & H3 & H4)].
    + exists e. split; [done|]. split; [by left|]. split; [done|].
      constructor; [lia|]. eapply Forall_impl; [exact H2|]. simpl. lia.
    + exists e'. split; [done|]. split; [by right|]. split; [done|].
      constructor; [|done]. intros _. rewrite List.Forall_forall in Hr. by apply Hr.
  - apply Z.ltb_ge in E. left. split; [done|]. constructor; [done|].
    eapply Forall_impl; [exact Hr|]. simpl. lia.
Qed.

(** C7, counterexample: on the loaded [tape_ordered] (entries at 1 s, 2 s
    and 2 s), [StepForward] from 1 s moves to 2 s and returns [true], but a
    further [StepForward] cannot move and returns [false]; [StepBackward]
    from 2 s moves to 1 s and returns [true], but a further [StepBackward]
    cannot move and returns [false]. *)
Lemma step_result_counterexample :
  exists t σ, LoadTape "replay.tape" tape_ordered empty_store = Some (t, σ) /\
    let t1 := fst (StepForward t) in
    let t2 := fst (StepForward t1) in
    let t3 := fst (StepBackward t2) in
    tp_CurrentTime t1 = sec 1 /\ tp_CurrentTime t2 = sec 2 /\
    snd (StepForward t1) = true /\ StepForward t2 = (t2, false) /\
    tp_CurrentTime t3 = sec 1 /\ snd (StepBackward t2) = true /\
    StepBackward t3 = (t3, false).
Proof.
  eexists _, _. split; [vm_compute; reflexivity|].
  vm_compute. repeat split.
Qed.

(** C7, as amended: for a tape whose [Timeline] is sorted by time (every
    loaded tape), [StepForward] either finds no entry after [CurrentTime],
    returns [false] and leaves the tape as it is, or moves [CurrentTime] to
    the earliest entry time after it and returns whether at least two
    entries lie after the old [CurrentTime]; [StepBackward] either finds no
    entry before [CurrentTime], returns [false] and leaves the tape as it
    is, or moves [CurrentTime] to the latest entry time before it and
    returns [true]. *)
Theorem StepForward_StepBackward_spec (t : Tape) :
  Sorted time_le (tp_Timeline t) ->
  ((StepForward t = (t, false) /\
    Forall (fun e => tl_Time e <= tp_CurrentTime t) (tp_Timeline t)) \/
   (exists e, StepForward t =
      (set_current t (tl_Time e),
       Nat.leb 2 (length (List.filter (fun e => tp_CurrentTime t <? tl_Time e)
                                      (tp_Timeline t)))) /\
    In e (tp_Timeline t) /\ tp_CurrentTime t < tl_Time e /\
    Forall (fun e' => tp_CurrentTime t < tl_Time e' -> tl_Time e <= tl_Time e')
      (tp_Timeline t))) /\
  ((StepBackward t = (t, false) /\
    Forall (fun e => tp_CurrentTime t <= tl_Time e) (tp_Timeline t)) \/
   (exists e, StepBackward t = (set_current t (tl_Time e), true) /\
    In e (tp_Timeline t) /\ tl_Time e < tp_CurrentTime t /\
    Forall (fun e' => tl_Time e' < tp_CurrentTime t -> tl_Time e' <= tl_Time e)
      (tp_Timeline t))).
Proof.
  intros Hs. split.
  - exact (stepForward_loop_spec t [] (tp_Timeline t) eq_refl Hs).
  - unfold StepBackward.
    destruct (stepBackward_loop_spec (tp_CurrentTime t) None (tp_Timeline t) Hs)
      as [[-> H2]|(e & -> & H2 & H3 & H4)].
    + by left.
    + right. by exists e.
Qed.

Lemma StepForward_StepBackward_spec_witness :
  exists t σ, LoadTape "replay.tape" tape_ordered empty_store = Some (t, σ) /\
    Sorted time_le (tp_Timeline t) /\
    (StepForward t = (t, false) \/
     exists e, In e (tp_Timeline t) /\ fst (StepForward t) = set_current t (tl_Time e)).
Proof.
  destruct (LoadTape "replay.tape" tape_ordered empty_store) as [[t σ]|] eqn:E.
  - exists t, σ. split; [reflexivity|].
    assert (Hs : Sorted time_le (tp_Timeline t)).
    { vm_compute in E. injection E as <- <-. simpl.
      repeat constructor; unfold time_le; simpl; lia. }
    split; [exact Hs|].
    destruct (proj1 (StepForward_StepBackward_spec t Hs)) as [[H _]|(e & H & Hin & _)].
    + by left.
    + right. exists e. by rewrite H.
  - vm_compute in E. discriminate.
Defined.

(** ** Replay *)

Lemma insert_by_In {A} (less : A -> A -> bool) (x y : A) (l : list A) :
  In y (insert_by less x l) <-> x = y \/ In y l.
Proof.
  induction l as [|z r IH]; simpl; [tauto|].
  destruct (less x z); simpl; [tauto|]. rewrite IH. tauto.
Qed.

Lemma sort_by_In {A} (less : A -> A -> bool) (y : A) (l : list A) :
  In y (sort_by less l) <-> In y l.
Proof.
  unfold sort_by. cut (forall acc, In y (fold_left (fun acc x => insert_by less x acc) l acc)
                                   <-> In y acc \/ In y l).
  { intros H. rewrite H. simpl. tauto. }
  induction l as [|x r IH]; intros acc; simpl; [tauto|].
  rewrite IH, insert_by_In. tauto.
Qed.

Lemma take_until_prefix (T1 T2 : Time) (tl : list TimelineEntry) :
  T1 <= T2 -> exists rest, take_until T2 tl = take_until T1 tl ++ rest.
Proof.
  intros Hle. induction tl as [|e r IH]; simpl; [by exists []|].
  destruct (T1 <? tl_Time e) eqn:E1; [by eexists|].
  apply Z.ltb_ge in E1. rewrite (proj2 (Z.ltb_ge T2 (tl_Time e))) by lia.
  destruct IH as [rest ->]. by exists rest.
Qed.

Lemma take_until_app (T : Time) (tl : list TimelineEntry) :
  exists rest, tl = take_until T tl ++ rest.
Proof.
  induction tl as [|e r IH]; simpl; [by exists []|].
  destruct (T <? tl_Time e); [by exists (e :: r)|].
  destruct IH as [rest Hr]. exists rest. simpl. by rewrite <- Hr.
Qed.

Lemma snapshots_app (a b : list TimelineEntry) :
  snapshots (a ++ b) = snapshots a ++ snapshots b.
Proof.
  induction a as [|e r IH]; simpl; [done|].
  destruct (Unmarshal_TapeRequestData _); simpl; by rewrite IH.
Qed.

Lemma last_snap_app (id : Z) (a b : list TapeRequestData) :
  last_snap id (a ++ b) =
  match last_snap id b with Some x => Some x | None => last_snap id a end.
Proof.
  induction a as [|d r IH]; simpl.
  - by destruct (last_snap id b).
  - rewrite IH. by destruct (last_snap id b).
Qed.

Lemma last_snap_In (id : Z) (ds : list TapeRequestData) (d : TapeRequestData) :
  last_snap id ds = Some d -> In d ds /\ td_ID d = id.
Proof.
  induction ds as [|x r IH]; simpl; [discriminate|].
  destruct (last_snap id r) as [y|].
  - intros [= <-]. destruct (IH eq_refl). tauto.
  - destruct (td_ID x =? id) eqn:E; [|discriminate].
    intros [= <-]. apply Z.eqb_eq in E. tauto.
Qed.

Lemma fold_snap_lookup (ds : list TapeRequestData) (m : gmap Z LLMRequest) (id : Z) :
  fold_snap ds m !! id =
  match last_snap id ds with Some d => Some (tapeDataToRequest d) | None => m !! id end.
Proof.
  unfold fold_snap. revert m. induction ds as [|d r IH]; intros m; simpl; [done|].
  rewrite IH. destruct (last_snap id r); [done|].
  destruct (td_ID d =? id) eqn:E.
  - apply Z.eqb_eq in E. subst. by rewrite lookup_insert_eq.
  - apply Z.eqb_neq in E. by rewrite lookup_insert_ne.
Qed.

Lemma snapshots_monotone_app (a b : list TapeRequestData) (d d' : TapeRequestData) :
  snapshots_monotone (a ++ b) = true -> In d a -> In d' b -> td_ID d = td_ID d' ->
  status_rank (td_Status d) <= status_rank (td_Status d').
Proof.
  induction a as [|x r IH]; simpl; [tauto|].
  intros [Hall Hmono]%andb_prop Hd Hd' Hid.
  destruct Hd as [<-|Hd]; [|by apply IH].
  rewrite forallb_forall in Hall.
  specialize (Hall d' (in_or_app _ _ _ (or_intror Hd'))).
  rewrite Hid, Z.eqb_refl in Hall. simpl in Hall. by apply Z.leb_le.
Qed.

Lemma alloc_heap_old (σ : Store) (r : LLMRequest) (l : N) :
  (l < st_next σ)%N -> st_heap (alloc r σ).2 !! l = st_heap σ !! l.
Proof. intros Hl. simpl. rewrite lookup_insert_ne; [done|]. lia. Qed.

(** [replay] allocates each decoded snapshot afresh: the state map points
    at cells holding the last snapshot per ID of the visited entries. *)
Lemma replay_spec (tl : list TimelineEntry) (T : Time) (states : gmap Z N)
    (σ : Store) (m : gmap Z LLMRequest) (states' : gmap Z N) (σ' : Store) :
  (forall id, (states !! id ≫= fun l => st_heap σ !! l) = m !! id) ->
  (forall id l, states !! id = Some l -> (l < st_next σ)%N /\ is_Some (st_heap σ !! l)) ->
  replay tl T states σ = (states', σ') ->
  (forall id, (states' !! id ≫= fun l => st_heap σ' !! l) =
              fold_snap (snapshots (take_until T tl)) m !! id) /\
  (forall id l, states' !! id = Some l -> (l < st_next σ')%N /\ is_Some (st_heap σ' !! l)).
Proof.
  revert states σ m. induction tl as [|e r IH]; intros states σ m H1 H2 Hr; cbn [replay] in Hr.
  - injection Hr as <- <-. by split.
  - cbn [take_until]. destruct (T <? tl_Time e).
    { injection Hr as <- <-. by split. }
    cbn [snapshots].
    destruct (Unmarshal_TapeRequestData (ev_Data (tl_Event e))) as [d|].
    + eapply IH; [| |exact Hr].
      * intros id. simpl. destruct (decide (id = td_ID d)) as [->|Hne].
        -- rewrite !lookup_insert_eq. simpl. by rewrite lookup_insert_eq.
        -- rewrite !lookup_insert_ne by done. rewrite <- H1.
           destruct (states !! id) as [l|] eqn:Hl; simpl; [|done].
           rewrite lookup_insert_ne; [done|]. destruct (H2 id l Hl). lia.
      * intros id l. simpl. destruct (decide (id = td_ID d)) as [->|Hne].
        -- rewrite lookup_insert_eq. intros [= <-]. rewrite lookup_insert_eq.
           split; [lia|done].
        -- rewrite lookup_insert_ne by done. intros Hl. destruct (H2 id l Hl) as [Hlt Hs].
           rewrite lookup_insert_ne by lia. split; [lia|done].
    + eapply IH; [exact H1|exact H2|exact Hr].
Qed.

Lemma replay_spec_empty (tl : list TimelineEntry) (T : Time) (σ : Store)
    (states' : gmap Z N) (σ' : Store) (id : Z) (l : N) :
  replay tl T ∅ σ = (states', σ') -> states' !! id = Some l ->
  exists d, last_snap id (snapshots (take_until T tl)) = Some d /\
            deref σ' l = tapeDataToRequest d.
Proof.
  intros Hr Hl.
  destruct (replay_spec tl T ∅ σ ∅ states' σ') as [H1 H2]; [done|done|done|].
  specialize (H1 id). rewrite Hl in H1. simpl in H1.
  destruct (H2 id l Hl) as [_ [r Hr']].
  rewrite fold_snap_lookup, Hr' in H1.
  destruct (last_snap id _) as [d|]; [|discriminate].
  exists d. split; [done|]. unfold deref. rewrite Hr'. by injection H1.
Qed.

Lemma GetRequestsAtTime_In (t : Tape) (T : Time) (σ : Store) (l : N) :
  In l (GetRequestsAtTime t T σ).1 ->
  exists id states', replay (tp_Timeline t) T ∅ σ = (states', (GetRequestsAtTime t T σ).2) /\
    states' !! id = Some l.
Proof.
  unfold GetRequestsAtTime. destruct (replay (tp_Timeline t) T ∅ σ) as [states' σ'] eqn:E.
  simpl. rewrite sort_by_In. intros ((id, l') & <- & Hin)%in_map_iff.
  exists id, states'. split; [done|].
  apply elem_of_map_to_list. by apply list_elem_of_In.
Qed.

(** C5, counterexample: in the loaded [tape_complete_then_start], request 1
    has its [request_complete] snapshot stamped 1 s and its [request_start]
    snapshot stamped 2 s; [GetRequestsAtTime] shows it [Complete] at 1 s and
    [Pending] at 2 s. *)
Lemma replay_status_regression_counterexample :
  exists t σ, LoadTape "replay.tape" tape_complete_then_start empty_store = Some (t, σ) /\
    sec 1 < sec 2 /\
    statuses_at t (sec 1) σ = [(1, StatusComplete)] /\
    statuses_at t (sec 2) σ = [(1, StatusPending)].
Proof.
  eexists _, _. split; [vm_compute; reflexivity|].
  split; [unfold sec; lia|]. vm_compute. split; reflexivity.
Qed.

(** C5, as amended: for every tape whose decodable [request_*] snapshots,
    taken in [Timeline] order, never follow a terminal snapshot of an ID
    ([Complete] or [Error]) by a [Pending] one of the same ID, and all
    times [T1 <= T2] (with any heaps for the two calls), a request present
    in both results is not in a later lifecycle state at [T1] than at
    [T2]. *)
Theorem GetRequestsAtTime_monotone (t : Tape) (σ σ' : Store) (T1 T2 : Time) (l1 l2 : N) :
  T1 <= T2 ->
  snapshots_monotone (snapshots (tp_Timeline t)) = true ->
  In l1 (GetRequestsAtTime t T1 σ).1 ->
  In l2 (GetRequestsAtTime t T2 σ').1 ->
  ID (deref (GetRequestsAtTime t T1 σ).2 l1) = ID (deref (GetRequestsAtTime t T2 σ').2 l2) ->
  status_rank (Status (deref (GetRequestsAtTime t T1 σ).2 l1)) <=
  status_rank (Status (deref (GetRequestsAtTime t T2 σ').2 l2)).
Proof.
  intros Hle Hmono H1 H2 Hid.
  destruct (GetRequestsAtTime_In _ _ _ _ H1) as (id1 & s1 & E1 & Hs1).
  destruct (GetRequestsAtTime_In _ _ _ _ H2) as (id2 & s2 & E2 & Hs2).
  destruct (replay_spec_empty _ _ _ _ _ _ _ E1 Hs1) as (d1 & Hd1 & Hr1).
  destruct (replay_spec_empty _ _ _ _ _ _ _ E2 Hs2) as (d2 & Hd2 & Hr2).
  rewrite Hr1, Hr2 in *. simpl in Hid |- *.
  destruct (last_snap_In _ _ _ Hd1) as [Hin1 Hid1].
  destruct (last_snap_In _ _ _ Hd2) as [Hin2 Hid2].
  destruct (take_until_prefix T1 T2 (tp_Timeline t) Hle) as [rest Hpre].
  destruct (take_until_app T2 (tp_Timeline t)) as [rest2 Hfull].
  rewrite Hpre, snapshots_app, last_snap_app in Hd2.
  destruct (last_snap id2 (snapshots rest)) as [x|] eqn:Ex.
  - injection Hd2 as ->. destruct (last_snap_In _ _ _ Ex) as [Hinx _].
    rewrite Hfull, Hpre, !snapshots_app, <- app_assoc in Hmono.
    eapply snapshots_monotone_app; [exact Hmono|exact Hin1| |exact Hid].
    apply in_or_app. by left.
  - assert (id1 = id2) as <- by congruence.
    rewrite Hd1 in Hd2. injection Hd2 as ->. lia.
Qed.

Lemma GetRequestsAtTime_monotone_witness :
  exists t σ, LoadTape "replay.tape" tape_ordered empty_store = Some (t, σ) /\
    (GetRequestsAtTime t (sec 1) σ).1 = [1%N] /\
    (GetRequestsAtTime t (sec 2) σ).1 = [3%N] /\
    status_rank (Status (deref (GetRequestsAtTime t (sec 1) σ).2 1%N)) <=
    status_rank (Status (deref (GetRequestsAtTime t (sec 2) σ).2 3%N)).
Proof.
  destruct (LoadTape "replay.tape" tape_ordered empty_store) as [[t σ]|] eqn:E.
  - pose proof E as E'. vm_compute in E'. injection E' as Ht Hσ. subst t σ.
    eexists _, _. split; [exact E|].
    split; [vm_compute; reflexivity|]. split; [vm_compute; reflexivity|].
    apply GetRequestsAtTime_monotone.
    + unfold sec. lia.
    + vm_compute. reflexivity.
    + vm_compute. by left.
    + vm_compute. by left.
    + vm_compute. reflexivity.
  - vm_compute in E. discriminate.
Defined.

(** ** The frame of [GetRequestsAtTime] *)

Lemma load_line_locs (ts : Tape * Store) (line : list ascii) :
  (forall l, tape_loc ts.1 l -> (l < st_next ts.2)%N) ->
  forall l, tape_loc (load_line ts line).1 l -> (l < st_next (load_line ts line).2)%N.
Proof.
  destruct ts as [t σ]. unfold load_line, alloc. intros H.
  repeat case_match; simplify_eq/=; unfold tape_loc in *; simpl in *; try exact H.
  - intros l [Hl|[Hl|(e & Hin & <-)]]; [by apply H; left|by apply H; right; left|].
    apply in_app_or in Hin as [Hin|[<-|[]]]; [by apply H; right; right; exists e|].
    apply H. right. left. by eexists.
  - intros l [Hl|[(id & Hl)|(e & Hin & <-)]].
    + apply in_app_or in Hl as [Hl|[<-|[]]]; [|lia].
      enough (l < st_next σ)%N by lia. by apply H; left.
    + destruct (decide (id = td_ID t1)) as [->|Hne].
      * rewrite lookup_insert_eq in Hl. injection Hl as <-. lia.
      * rewrite lookup_insert_ne in Hl by done.
        enough (l < st_next σ)%N by lia. apply H; right; left. by eexists.
    + apply in_app_or in Hin as [Hin|[<-|[]]]; [|simpl; lia].
      enough (tl_Request e < st_next σ)%N by lia. apply H; right; right. by exists e.
Qed.

(** Every pointer in a loaded tape was allocated. *)
Lemma LoadTape_locs (filename : string) (file : list ascii) (σ0 : Store) (t : Tape) (σ : Store) :
  LoadTape filename file σ0 = Some (t, σ) -> forall l, tape_loc t l -> (l < st_next σ)%N.
Proof.
  unfold LoadTape. destruct (scan_lines file) as [lines|]; [|discriminate].
  assert (Hgen : forall ls ts,
    (forall l, tape_loc ts.1 l -> (l < st_next ts.2)%N) ->
    forall l, tape_loc (fold_left load_line ls ts).1 l ->
              (l < st_next (fold_left load_line ls ts).2)%N).
  { induction ls as [|line r IH]; intros ts Hts; simpl; [done|].
    apply IH. by apply load_line_locs. }
  pose proof (Hgen lines (emptyTape filename, σ0)) as Hinv.
  destruct (fold_left load_line lines (emptyTape filename, σ0)) as [t1 σ1].
  simpl in Hinv. intros [= <- <-].
  lapply Hinv; clear Hinv; [intros Hinv|].
  2: { intros l Hl. unfold tape_loc in Hl. simpl in Hl.
       destruct Hl as [[]|[[id Hl]|(e & [] & _)]]. by rewrite lookup_empty in Hl. }
  match goal with |- context [set_requests ?X _ _ _] =>
    assert (tp_Requests X = tp_Requests t1 /\ tp_RequestMap X = tp_RequestMap t1 /\
            tp_Timeline X = tp_Timeline t1) as (HR & HM & HT)
      by (repeat case_match; auto) end.
  intros l. unfold tape_loc, set_current, set_requests.
  cbn [tp_Requests tp_RequestMap tp_Timeline]. rewrite HR, HM, HT.
  intros [Hl|[Hl|(e & Hin & <-)]]; apply Hinv.
  - left. by apply sort_by_In in Hl.
  - by right; left.
  - right; right. exists e. split; [by apply sort_by_In in Hin|done].
Qed.

Lemma replay_frame (tl : list TimelineEntry) (T : Time) (states : gmap Z N) (σ : Store)
    (states' : gmap Z N) (σ' : Store) :
  replay tl T states σ = (states', σ') ->
  (forall l, (l < st_next σ)%N -> st_heap σ' !! l = st_heap σ !! l) /\
  (forall id l, states' !! id = Some l -> states !! id = Some l \/ (st_next σ <= l)%N).
Proof.
  revert states σ. induction tl as [|e r IH]; intros states σ Hr; cbn [replay] in Hr.
  - injection Hr as <- <-. split; [done|]. by left.
  - destruct (T <? tl_Time e).
    { injection Hr as <- <-. split; [done|]. by left. }
    destruct (Unmarshal_TapeRequestData (ev_Data (tl_Event e))) as [d|];
      [|by apply (IH states σ)].
    destruct (IH _ _ Hr) as [H1 H2]. simpl in H1, H2. split.
    + intros l Hl. rewrite H1 by lia. rewrite lookup_insert_ne; [done|lia].
    + intros id l Hl. destruct (H2 id l Hl) as [Hs|Hle]; [|right; lia].
      destruct (decide (id = td_ID d)) as [->|Hne].
      * rewrite lookup_insert_eq in Hs. injection Hs as <-. right. lia.
      * rewrite lookup_insert_ne in Hs by done. by left.
Qed.

(** C10: [GetRequestsAtTime] takes the tape by pointer but assigns none of
    its fields (the model returns no tape); on the heap, for a tape returned
    by [LoadTape] with heap [σ], the call leaves every cell allocated before
    it unchanged, so every record the tape's [Requests], [RequestMap] and
    [Timeline] point at is unchanged, and it returns only freshly
    allocated records, none of which the tape points at. *)
Theorem GetRequestsAtTime_frame (filename : string) (file : list ascii) (σ0 : Store)
    (t : Tape) (σ : Store) (T : Time) :
  LoadTape filename file σ0 = Some (t, σ) ->
  (forall l, (l < st_next σ)%N ->
     st_heap (GetRequestsAtTime t T σ).2 !! l = st_heap σ !! l) /\
  (forall l, tape_loc t l -> deref (GetRequestsAtTime t T σ).2 l = deref σ l) /\
  (forall l, In l (GetRequestsAtTime t T σ).1 -> (st_next σ <= l)%N /\ ~ tape_loc t l).
Proof.
  intros Hload. pose proof (LoadTape_locs _ _ _ _ _ Hload) as Hlocs.
  assert (Hfr : forall l, (l < st_next σ)%N ->
            st_heap (GetRequestsAtTime t T σ).2 !! l = st_heap σ !! l).
  { unfold GetRequestsAtTime. destruct (replay (tp_Timeline t) T ∅ σ) as [s' σ'] eqn:E.
    exact (proj1 (replay_frame _ _ _ _ _ _ E)). }
  split; [exact Hfr|]. split.
  - intros l Hl. unfold deref. by rewrite Hfr by (by apply Hlocs).
  - intros l Hin. destruct (GetRequestsAtTime_In _ _ _ _ Hin) as (id & s' & E & Hs).
    destruct (proj2 (replay_frame _ _ _ _ _ _ E) id l Hs) as [Hc|Hle].
    + by rewrite lookup_empty in Hc.
    + split; [done|]. intros Ht. specialize (Hlocs l Ht). lia.
Qed.

Lemma GetRequestsAtTime_frame_witness :
  exists t σ, LoadTape "replay.tape" tape_ordered empty_store = Some (t, σ) /\
    (GetRequestsAtTime t (sec 2) σ).1 = [3%N] /\
    deref (GetRequestsAtTime t (sec 2) σ).2 0%N = deref σ 0%N.
Proof.
  destruct (LoadTape "replay.tape" tape_ordered empty_store) as [[t σ]|] eqn:E.
  - pose proof E as E'. vm_compute in E'. injection E' as Ht Hσ. subst t σ.
    eexists _, _. split; [exact E|]. split; [vm_compute; reflexivity|].
    apply (proj1 (proj2 (GetRequestsAtTime_frame "replay.tape" tape_ordered
                           empty_store _ _ (sec 2) E))).
    left. vm_compute. by left.
  - vm_compute in E. discriminate.
Defined.

(** ** Skipping unparseable lines *)

Lemma iter_cons_length (c : ascii) (k : N) :
  length (N.iter k (cons c) []) = N.to_nat k.
Proof.
  induction k as [|k IH] using N.peano_ind; [done|].
  rewrite N.iter_succ, N2Nat.inj_succ. simpl. by rewrite IH.
Qed.

Lemma iter_cons_In (c d : ascii) (k : N) : In d (N.iter k (cons c) []) -> d = c.
Proof.
  induction k as [|k IH] using N.peano_ind; [done|].
  rewrite N.iter_succ. intros [<-|H]; [done|]. by apply IH.
Qed.

Lemma scan_go_too_long (p rest cur : list ascii) (n : N) :
  (forall c, In c p -> c <> newline) ->
  (n < maxTokenSize)%N -> (maxTokenSize <= n + N.of_nat (length p))%N ->
  scan_go (p ++ rest) cur n = None.
Proof.
  revert cur n. induction p as [|c p IH]; intros cur n Hnl Hlt Hle; simpl in *.
  - lia.
  - assert (Ascii.eqb c newline = false) as ->.
    { apply Ascii.eqb_neq. apply Hnl. by left. }
    destruct (N.leb maxTokenSize (n + 1)) eqn:E; [done|].
    apply N.leb_gt in E. apply IH; [by intros; apply Hnl; right|lia|lia].
Qed.

Lemma Unmarshal_TapeEvent_x (r : list ascii) :
  Unmarshal_TapeEvent ("x"%char :: r) = None.
Proof.
  unfold Unmarshal_TapeEvent, parse. cbn [skip_ws is_ws].
  replace (2 * length ("x"%char :: r) + 2)%nat with (S (S (2 * length ("x"%char :: r))))%nat by lia.
  reflexivity.
Qed.

Lemma long_line_cons : long_line = "x"%char :: N.iter 10485759 (cons "x"%char) [].
Proof.
  unfold long_line, maxTokenSize.
  change 10485760%N with (N.succ 10485759). by rewrite N.iter_succ.
Qed.

Lemma long_line_not_event : Unmarshal_TapeEvent long_line = None.
Proof. rewrite long_line_cons. apply Unmarshal_TapeEvent_x. Qed.

Lemma long_line_x (c : ascii) : In c long_line -> c = "x"%char.
Proof. apply iter_cons_In. Qed.

Lemma x_not_newline (c : ascii) : c = "x"%char -> c <> newline.
Proof. intros -> Hn. discriminate. Qed.

Lemma long_line_no_newline (c : ascii) : In c long_line -> c <> newline.
Proof. intros Hc. apply x_not_newline, long_line_x, Hc. Qed.

Lemma long_line_length : (maxTokenSize <= 0 + N.of_nat (length long_line))%N.
Proof. unfold long_line. rewrite iter_cons_length, N2Nat.id. lia. Qed.

Lemma scan_lines_long_line (rest : list ascii) :
  scan_lines (long_line ++ rest) = None.
Proof.
  unfold scan_lines. apply scan_go_too_long;
    [exact long_line_no_newline|unfold maxTokenSize; lia|exact long_line_length].
Qed.

(** C9, counterexample: [long_line] (10485760 bytes [x]) does not parse as
    a tape event, yet a file made of it, a newline and the well-formed
    [tape_ordered] does not load: the line scanner stops with
    [bufio.ErrTooLong] and [LoadTape] returns an error, while
    [tape_ordered] alone loads with its four events. *)
Lemma LoadTape_long_line_counterexample :
  Unmarshal_TapeEvent long_line = None /\
  LoadTape "replay.tape" (long_line ++ [newline] ++ tape_ordered) empty_store = None /\
  (exists t σ, LoadTape "replay.tape" tape_ordered empty_store = Some (t, σ) /\
               length (tp_Events t) = 4%nat).
Proof.
  split; [exact long_line_not_event|]. split.
  - unfold LoadTape. by rewrite scan_lines_long_line.
  - eexists _, _. split; [vm_compute; reflexivity|]. reflexivity.
Qed.

Lemma scan_go_line (p rest cur : list ascii) (n : N) :
  (forall c, In c p -> c <> newline) -> (n + N.of_nat (length p) < maxTokenSize)%N ->
  scan_go (p ++ newline :: rest) cur n = option_map (cons (dropCR (rev cur ++ p))) (scan_go rest [] 0).
Proof.
  revert cur n. induction p as [|c p IH]; intros cur n Hnl Hlt; simpl.
  - by rewrite ?Ascii.eqb_refl, app_nil_r.
  - assert (Ascii.eqb c newline = false) as ->.
    { apply Ascii.eqb_neq. apply Hnl. by left. }
    simpl in Hlt. rewrite (proj2 (N.leb_gt _ _)) by lia.
    rewrite IH; [|by intros; apply Hnl; right|lia].
    simpl. by rewrite <- app_assoc.
Qed.

Lemma scan_go_last (p cur : list ascii) (n : N) :
  (forall c, In c p -> c <> newline) -> (n + N.of_nat (length p) < maxTokenSize)%N ->
  scan_go p cur n =
  if N.eqb (n + N.of_nat (length p)) 0 then Some [] else Some [dropCR (rev cur ++ p)].
Proof.
  revert cur n. induction p as [|c p IH]; intros cur n Hnl Hlt; simpl.
  - by rewrite N.add_0_r, app_nil_r.
  - assert (Ascii.eqb c newline = false) as ->.
    { apply Ascii.eqb_neq. apply Hnl. by left. }
    simpl in Hlt. rewrite (proj2 (N.leb_gt _ _)) by lia.
    rewrite IH; [|by intros; apply Hnl; right|lia].
    rewrite (proj2 (N.eqb_neq _ _)) by lia. rewrite (proj2 (N.eqb_neq _ _)) by lia.
    simpl. by rewrite <- app_assoc.
Qed.

Lemma short_line_spec (l : list ascii) :
  short_line l = true ->
  (forall c, In c l -> c <> newline) /\ (N.of_nat (length l) < maxTokenSize)%N.
Proof.
  unfold short_line. intros [H1 H2]%andb_prop. split; [|by apply N.ltb_lt].
  intros c Hc ->. rewrite forallb_forall in H1. specialize (H1 newline Hc).
  by rewrite Ascii.eqb_refl in H1.
Qed.

Lemma scan_lines_file (ls : list (list ascii)) (last : list ascii) :
  forallb short_line ls = true -> short_line last = true ->
  scan_lines (file_of_lines ls last) =
  Some (map dropCR ls ++ match last with [] => [] | _ => [dropCR last] end).
Proof.
  unfold scan_lines, file_of_lines. intros Hls Hlast.
  destruct (short_line_spec last Hlast) as [Hnl Hlt].
  induction ls as [|l ls IH]; simpl in *.
  - rewrite scan_go_last by (simpl; lia || done). by destruct last.
  - apply andb_prop in Hls as [Hl Hls].
    destruct (short_line_spec l Hl) as [Hl1 Hl2].
    rewrite <- !app_assoc. simpl. rewrite scan_go_line by (simpl; lia || done).
    by rewrite IH.
Qed.

Lemma load_line_events (ts : Tape * Store) (line : list ascii) :
  tp_Events (load_line ts line).1 =
  tp_Events ts.1 ++ match Unmarshal_TapeEvent line with Some e => [e] | None => [] end.
Proof.
  destruct ts as [t σ]. unfold load_line, alloc.
  destruct (Unmarshal_TapeEvent line) as [e|]; simpl; [|by rewrite app_nil_r].
  repeat case_match; simplify_eq/=; done.
Qed.

Lemma fold_load_line_events (lines : list (list ascii)) (ts : Tape * Store) :
  tp_Events (fold_left load_line lines ts).1 = tp_Events ts.1 ++ parsed_events lines.
Proof.
  revert ts. induction lines as [|l r IH]; intros ts; simpl; [by rewrite app_nil_r|].
  rewrite IH, load_line_events, <- app_assoc. done.
Qed.

(** C9, as amended: for every tape file whose lines are all shorter than
    [maxTokenSize] (10 MiB, newline not counted), [LoadTape] succeeds and
    its [Events] are exactly the lines, with a trailing carriage return
    dropped, that parse as a tape event, in file order: every other line is
    skipped and loading goes on. *)
Theorem LoadTape_skips_unparsed_lines (filename : string) (ls : list (list ascii))
    (last : list ascii) (σ0 : Store) :
  forallb short_line ls = true -> short_line last = true ->
  exists t σ, LoadTape filename (file_of_lines ls last) σ0 = Some (t, σ) /\
    tp_Events t =
    parsed_events (map dropCR ls ++ match last with [] => [] | _ => [dropCR last] end).
Proof.
  intros Hls Hlast. unfold LoadTape. rewrite scan_lines_file by done.
  pose proof (fold_load_line_events
    (map dropCR ls ++ match last with [] => [] | _ => [dropCR last] end)
    (emptyTape filename, σ0)) as Hev.
  destruct (fold_left load_line _ (emptyTape filename, σ0)) as [t1 σ1].
  simpl in Hev. eexists _, _. split; [reflexivity|].
  match goal with |- context [set_requests ?X _ _ _] =>
    assert (tp_Events X = tp_Events t1) as HE by (repeat case_match; auto) end.
  unfold set_current, set_requests. cbn [tp_Events]. by rewrite HE, Hev.
Qed.

Lemma LoadTape_skips_unparsed_lines_witness :
  exists t σ, LoadTape "replay.tape" (file_of_lines lines_with_garbage []) empty_store = Some (t, σ) /\
    length (tp_Events t) = 2%nat.
Proof.
  destruct (LoadTape_skips_unparsed_lines "replay.tape" lines_with_garbage [] empty_store)
    as (t & σ & H1 & H2); [vm_compute; reflexivity|vm_compute; reflexivity|].
  exists t, σ. split; [exact H1|]. rewrite H2. vm_compute. reflexivity.
Defined.

(** ** Cache keys *)

(** C3, counterexample: two parseable chat-completions bodies whose
    [messages] differ (in a message's [function_call] member, which the
    message struct does not declare) get the same cache key. *)
Lemma cache_key_messages_collision_counterexample :
  openai_body_weather <> openai_body_time /\
  normalize "/v1/chat/completions" openai_body_weather <> None /\
  GenerateCacheKey "/v1/chat/completions" openai_body_weather =
  GenerateCacheKey "/v1/chat/completions" openai_body_time.
Proof.
  split; [vm_compute; discriminate|]. split; [vm_compute; discriminate|].
  vm_compute. reflexivity.
Qed.


(** ** Further properties of the cache, the tape and the proxy *)

(** X1: [MemoryCache.Set] of a key leaves what [Get] returns for every other key unchanged. *)
Theorem MemoryCache_Set_other_key (now t : Time) (c : MemoryCache) (k k' : string)
    (e : CacheEntry) :
  k' <> k ->
  (MemoryCache_Get t (MemoryCache_Set now c k e) k').1 = (MemoryCache_Get t c k').1.
Proof.
  intros Hne. unfold MemoryCache_Get, MemoryCache_Set. simpl.
  rewrite lookup_insert_ne by congruence.
  destruct (mc_data c !! k') as [[e' x]|]; [|done]. by destruct (x <? t).
Qed.

Lemma MemoryCache_Set_other_key_witness :
  ("b" <> "a")%string /\
  (MemoryCache_Get 5 (MemoryCache_Set 0 (mkMemoryCache ∅ 10) "a" (mkCacheEntry [] ∅ 200 0 0)) "b").1
  = (MemoryCache_Get 5 (mkMemoryCache ∅ 10) "b").1.
Proof.
  split; [discriminate|]. apply MemoryCache_Set_other_key. discriminate.
Defined.

(** X2: the expiry sweep of [cleanup] at time [now] changes no result of a later [Get] (at a time [t >= now]). *)
Theorem MemoryCache_sweep_unobservable (now t : Time) (c : MemoryCache) (k : string) :
  now <= t -> (MemoryCache_Get t (MemoryCache_sweep now c) k).1 = (MemoryCache_Get t c k).1.
Proof.
  intros Hle. unfold MemoryCache_Get, MemoryCache_sweep. simpl.
  rewrite map_lookup_filter.
  destruct (mc_data c !! k) as [[e x]|]; simpl; [|done].
  case_guard as Hg; simpl; [by destruct (x <? t)|].
  replace (x <? t) with true; [done|].
  symmetry; apply Z.ltb_lt. destruct (decide (x < now)); [lia|tauto].
Qed.

Lemma MemoryCache_sweep_unobservable_witness :
  0 <= 5 /\
  (MemoryCache_Get 5 (MemoryCache_sweep 0 (MemoryCache_Set 0 (mkMemoryCache ∅ 10) "a"
     (mkCacheEntry [] ∅ 200 0 0))) "a").1
  = (MemoryCache_Get 5 (MemoryCache_Set 0 (mkMemoryCache ∅ 10) "a" (mkCacheEntry [] ∅ 200 0 0)) "a").1.
Proof. split; [lia|]. apply MemoryCache_sweep_unobservable. lia. Defined.

(** X3: a second [Set] of the same key replaces the first one entirely. *)
Theorem MemoryCache_Set_overwrite (t1 t2 : Time) (c : MemoryCache) (k : string)
    (e1 e2 : CacheEntry) :
  MemoryCache_Set t2 (MemoryCache_Set t1 c k e1) k e2 = MemoryCache_Set t2 c k e2.
Proof. unfold MemoryCache_Set. simpl. by rewrite insert_insert_eq. Qed.

(** X4: [MemoryCache.Get] keeps the TTL and the other keys; a hit returns the stored entry, not yet expired, and leaves the cache unchanged; a miss leaves no entry for the key, and any entry it had was expired. *)
Theorem MemoryCache_Get_effect (now : Time) (c : MemoryCache) (k : string) :
  let '(r, c') := MemoryCache_Get now c k in
  mc_ttl c' = mc_ttl c /\
  (forall k', k' <> k -> mc_data c' !! k' = mc_data c !! k') /\
  (forall e, r = Some e ->
     c' = c /\ exists expiresAt, mc_data c !! k = Some (e, expiresAt) /\ now <= expiresAt) /\
  (r = None ->
     mc_data c' !! k = None /\
     forall e expiresAt, mc_data c !! k = Some (e, expiresAt) -> expiresAt < now).
Proof.
  unfold MemoryCache_Get. destruct (mc_data c !! k) as [[e x]|] eqn:E.
  - destruct (x <? now) eqn:Ex; simpl.
    + apply Z.ltb_lt in Ex. split; [done|]. split; [|split].
      * intros k' Hk. by rewrite lookup_delete_ne by congruence.
      * discriminate.
      * intros _. split; [by rewrite lookup_delete_eq|]. by intros e' x' [= <- <-].
    + apply Z.ltb_ge in Ex. split; [done|]. split; [done|split; [|discriminate]].
      intros e' [= <-]. split; [by destruct c|]. exists x. split; [done|lia].
  - simpl. split; [done|]. split; [done|split; [discriminate|]].
    intros _. split; [done|]. discriminate.
Qed.

(** X9: [SeekToTime] clamps the target time between [StartTime] and [EndTime] and seeks there; a target inside the interval is kept. *)
Theorem SeekToTime_clamp (t : Tape) (targetTime : Time) :
  tp_StartTime t <= tp_EndTime t ->
  let c := Z.max (tp_StartTime t) (Z.min (tp_EndTime t) targetTime) in
  SeekToTime t targetTime = set_current t c /\
  tp_StartTime t <= c <= tp_EndTime t /\
  (tp_StartTime t <= targetTime <= tp_EndTime t -> c = targetTime).
Proof.
  intros Hse c. unfold SeekToTime, c.
  destruct (targetTime <? tp_StartTime t) eqn:E1;
    [apply Z.ltb_lt in E1|apply Z.ltb_ge in E1];
  [|destruct (tp_EndTime t <? targetTime) eqn:E2;
    [apply Z.ltb_lt in E2|apply Z.ltb_ge in E2]].
  - split; [f_equal; lia|]. lia.
  - split; [f_equal; lia|]. lia.
  - split; [f_equal; lia|]. lia.
Qed.

Lemma SeekToTime_clamp_witness :
  tp_StartTime (emptyTape "t") <= tp_EndTime (emptyTape "t") /\
  SeekToTime (emptyTape "t") 5 = set_current (emptyTape "t") 0.
Proof.
  split; [simpl; lia|].
  destruct (SeekToTime_clamp (emptyTape "t") 5) as [H _]; [simpl; lia|]. exact H.
Defined.

Lemma list_ascii_of_string_length (s : string) :
  length (list_ascii_of_string s) = String.length s.
Proof. induction s; simpl; auto. Qed.

Lemma list_ascii_of_substring (n m : nat) (s : string) :
  list_ascii_of_string (substring n m s) = firstn m (skipn n (list_ascii_of_string s)).
Proof.
  revert n m. induction s as [|a s IH]; intros n m.
  - destruct n, m; simpl; try done; by destruct m.
  - destruct n as [|n]; simpl.
    + destruct m as [|m]; simpl; [done|]. f_equal. rewrite IH. simpl. by rewrite skipn_O.
    + apply IH.
Qed.

Lemma list_ascii_of_string_inj (s1 s2 : string) :
  list_ascii_of_string s1 = list_ascii_of_string s2 -> s1 = s2.
Proof.
  intros H. rewrite <- (string_of_list_ascii_of_string s1), <- (string_of_list_ascii_of_string s2).
  by rewrite H.
Qed.

Lemma HasSuffix_spec (s suffix : string) :
  HasSuffix s suffix = true <->
  exists p, list_ascii_of_string s = p ++ list_ascii_of_string suffix.
Proof.
  unfold HasSuffix. set (l := list_ascii_of_string s). set (x := list_ascii_of_string suffix).
  rewrite andb_true_iff, Nat.leb_le. split.
  - intros [Hle Heq]. destruct (List.list_eq_dec ascii_dec _ _) as [E|]; [|discriminate].
    exists (firstn (length l - length x) l). rewrite <- E at 2. by rewrite List.firstn_skipn.
  - intros [p Hp]. rewrite Hp, length_app.
    replace (length p + length x - length x)%nat with (length p) by lia.
    rewrite List.skipn_app, List.skipn_all, Nat.sub_diag. simpl. split; [lia|].
    rewrite List.skipn_O. destruct (List.list_eq_dec ascii_dec x x) as [|n]; [done|by exfalso; apply n].
Qed.

Lemma isAnthropicEndpoint_HasSuffix (path : string) :
  isAnthropicEndpoint path = HasSuffix path "/v1/messages".
Proof.
  unfold isAnthropicEndpoint, HasSuffix. rewrite !list_ascii_of_string_length.
  change (String.length "/v1/messages") with 12%nat in *.
  set (n := (String.length path - 12)%nat).
  destruct (Nat.leb _ _) eqn:Hle; [|done]. apply Nat.leb_le in Hle. simpl andb.
  assert (Hs : list_ascii_of_string (substring n 12 path)
               = skipn n (list_ascii_of_string path)).
  { rewrite list_ascii_of_substring, firstn_all2; [done|].
    rewrite length_skipn, list_ascii_of_string_length. unfold n. lia. }
  destruct (String.eqb _ _) eqn:E.
  - apply String.eqb_eq in E. rewrite E in Hs. rewrite <- Hs.
    destruct (List.list_eq_dec ascii_dec _ _) as [|m]; [done|by exfalso; apply m].
  - apply String.eqb_neq in E. destruct (List.list_eq_dec _ _ _) as [H|]; [|done].
    exfalso. apply E, list_ascii_of_string_inj. by rewrite Hs.
Qed.

(** X5: every Anthropic endpoint is an LLM endpoint. *)
Theorem isAnthropicEndpoint_isLLMEndpoint (path : string) :
  isAnthropicEndpoint path = true -> isLLMEndpoint path = true.
Proof.
  rewrite isAnthropicEndpoint_HasSuffix. intros H.
  unfold isLLMEndpoint, llmPaths. simpl existsb. rewrite H. by rewrite !orb_true_r.
Qed.

Lemma isAnthropicEndpoint_isLLMEndpoint_witness :
  isAnthropicEndpoint "/api/v1/messages" = true /\ isLLMEndpoint "/api/v1/messages" = true.
Proof.
  split; [reflexivity|]. apply isAnthropicEndpoint_isLLMEndpoint. reflexivity.
Defined.

Lemma suffix_app (l a c : list ascii) :
  (exists q, l = q ++ (a ++ c)) -> exists q, l = q ++ c.
Proof. intros [q ->]. exists (q ++ a). by rewrite app_assoc. Qed.

(** X6: [isLLMEndpoint] is equivalent to a suffix test against [/completions], [/v1/embeddings] or [/v1/messages]. *)
Theorem isLLMEndpoint_suffixes (path : string) :
  isLLMEndpoint path =
  HasSuffix path "/completions" || HasSuffix path "/v1/embeddings"
  || HasSuffix path "/v1/messages".
Proof.
  apply Bool.eq_iff_eq_true. unfold isLLMEndpoint, llmPaths. simpl existsb.
  rewrite !orb_false_r, !orb_true_iff, !HasSuffix_spec.
  change (list_ascii_of_string "/v1/chat/completions")
    with (list_ascii_of_string "/v1/chat" ++ list_ascii_of_string "/completions").
  change (list_ascii_of_string "/v1/completions")
    with (list_ascii_of_string "/v1" ++ list_ascii_of_string "/completions").
  change (list_ascii_of_string "/chat/completions")
    with (list_ascii_of_string "/chat" ++ list_ascii_of_string "/completions").
  split.
  - intros H. repeat destruct H as [H|H];
      first [ by left; left | by left; right | by right
            | left; left; eapply suffix_app; exact H ].
  - intros [[H|H]|H]; tauto.
Qed.

Lemma round_length (st : list Z) (kw : Z * Z) : length (SHA256.round st kw) = length st.
Proof.
  unfold SHA256.round.
  do 8 (destruct st as [|? st]; [done|]). by destruct st.
Qed.

Lemma fold_round_length (kws : list (Z * Z)) (st : list Z) :
  length (fold_left SHA256.round kws st) = length st.
Proof.
  revert st. induction kws as [|kw r IH]; intros st; simpl; [done|].
  by rewrite IH, round_length.
Qed.

Lemma compress_length (h block : list Z) : length (SHA256.compress h block) = length h.
Proof.
  unfold SHA256.compress. rewrite length_map, length_combine, fold_round_length. lia.
Qed.

Lemma fold_compress_length (bs : list (list Z)) (h : list Z) :
  length (fold_left SHA256.compress bs h) = length h.
Proof.
  revert h. induction bs as [|b r IH]; intros h; simpl; [done|].
  by rewrite IH, compress_length.
Qed.

Lemma flat_map_be_bytes_length (n : nat) (h : list Z) :
  length (flat_map (SHA256.be_bytes n) h) = (n * length h)%nat.
Proof.
  induction h as [|x r IH]; simpl; [lia|].
  rewrite length_app, IH. unfold SHA256.be_bytes. rewrite length_map, length_seq. lia.
Qed.

Lemma Sum256_length (msg : list byte) : length (SHA256.Sum256 msg) = 32%nat.
Proof.
  unfold SHA256.Sum256. rewrite length_map, flat_map_be_bytes_length, fold_compress_length.
  reflexivity.
Qed.

Lemma hexdigit_In (n : Z) : In (hexdigit n) (list_ascii_of_string "0123456789abcdef").
Proof.
  unfold hexdigit. destruct (nth_in_or_default (Z.to_nat n) (list_ascii_of_string "0123456789abcdef") "0"%char)
    as [H|H]; [exact H|]. rewrite H. simpl. auto.
Qed.

Lemma EncodeToString_shape (b : list byte) :
  String.length (EncodeToString b) = (2 * length b)%nat /\
  Forall (fun c => In c (list_ascii_of_string "0123456789abcdef"))
    (list_ascii_of_string (EncodeToString b)).
Proof.
  unfold EncodeToString. rewrite <- list_ascii_of_string_length, list_ascii_of_string_of_list_ascii.
  induction b as [|x r [IH1 IH2]]; simpl; [split; [done|constructor]|].
  split; [lia|]. constructor; [apply hexdigit_In|]. constructor; [apply hexdigit_In|]. exact IH2.
Qed.

Lemma key_of_shape (path : string) (data : list byte) :
  exists h, key_of path data = (path ++ ":" ++ h)%string /\ String.length h = 64%nat /\
    Forall (fun c => In c (list_ascii_of_string "0123456789abcdef")) (list_ascii_of_string h).
Proof.
  exists (EncodeToString (SHA256.Sum256 data)). split; [done|].
  destruct (EncodeToString_shape (SHA256.Sum256 data)) as [H1 H2].
  rewrite H1, Sum256_length. by split.
Qed.

Lemma GenerateCacheKey_key_of (path : string) (requestBody : list byte) :
  exists data, GenerateCacheKey path requestBody = key_of path data.
Proof. unfold GenerateCacheKey. repeat case_match; eauto. Qed.

(** X7: a cache key is always the path, a colon and 64 lower-case hexadecimal digits. *)
Theorem GenerateCacheKey_format (path : string) (requestBody : list byte) :
  exists h, GenerateCacheKey path requestBody = (path ++ ":" ++ h)%string /\
    String.length h = 64%nat /\
    Forall (fun c => In c (list_ascii_of_string "0123456789abcdef")) (list_ascii_of_string h).
Proof.
  destruct (GenerateCacheKey_key_of path requestBody) as [data ->]. apply key_of_shape.
Qed.

Lemma list_ascii_of_string_append (s1 s2 : string) :
  list_ascii_of_string (s1 ++ s2) = list_ascii_of_string s1 ++ list_ascii_of_string s2.
Proof. induction s1 as [|a s1 IH]; simpl; [done|]. by rewrite IH. Qed.

(** X8: two equal cache keys come from the same path, whatever the bodies. *)
Theorem GenerateCacheKey_path_injective (p1 p2 : string) (b1 b2 : list byte) :
  GenerateCacheKey p1 b1 = GenerateCacheKey p2 b2 -> p1 = p2.
Proof.
  destruct (GenerateCacheKey_key_of p1 b1) as [d1 ->].
  destruct (GenerateCacheKey_key_of p2 b2) as [d2 ->].
  destruct (key_of_shape p1 d1) as (h1 & -> & L1 & _).
  destruct (key_of_shape p2 d2) as (h2 & -> & L2 & _).
  intros H. apply (f_equal list_ascii_of_string) in H.
  rewrite !list_ascii_of_string_append in H. simpl in H.
  assert (Hl : length (list_ascii_of_string p1) = length (list_ascii_of_string p2)).
  { apply (f_equal (@length ascii)) in H. rewrite !length_app in H. simpl in H.
    rewrite !list_ascii_of_string_length. repeat rewrite list_ascii_of_string_length in H. lia. }
  apply list_ascii_of_string_inj.
  by apply app_inj_1 in H as [-> _].
Qed.

Lemma GenerateCacheKey_path_injective_witness :
  GenerateCacheKey "/v1/messages" [] = GenerateCacheKey "/v1/messages" [] /\
  "/v1/messages"%string = "/v1/messages"%string.
Proof.
  split; [reflexivity|]. apply (GenerateCacheKey_path_injective _ _ [] []). reflexivity.
Defined.

Lemma load_inv_empty (filename : string) (σ : Store) : load_inv (emptyTape filename, σ).
Proof.
  simpl. split; [constructor|]. split; [done|]. split; [|done].
  intros id l. by rewrite lookup_empty.
Qed.

Lemma load_line_inv (ts : Tape * Store) (line : list ascii) :
  load_inv ts -> load_inv (load_line ts line).
Proof.
  destruct ts as [t σ]. unfold load_line. intros (HN & HR & HM & HT).
  destruct (Unmarshal_TapeEvent line) as [event|] eqn:Eev; [|done].
  assert (HT' : forall e, In e (tp_Timeline t) ->
     In (tl_Event e) (tp_Events t ++ [event]) /\ tl_Time e = ev_Timestamp (tl_Event e) /\
     In (ev_Type (tl_Event e)) [EventRequestStart; EventRequestUpdate; EventRequestComplete] /\
     exists d, Unmarshal_TapeRequestData (ev_Data (tl_Event e)) = Some d /\
               tp_RequestMap t !! td_ID d = Some (tl_Request e)).
  { intros e He. destruct (HT e He) as (H1 & H2 & H3 & H4).
    split; [apply in_or_app; by left|done]. }
  destruct (String.eqb (ev_Type event) EventSessionStart) eqn:Es.
  { destruct (Unmarshal_TapeSessionData (ev_Data event)); simpl; auto. }
  destruct (String.eqb (ev_Type event) EventRequestStart
            || String.eqb (ev_Type event) EventRequestUpdate
            || String.eqb (ev_Type event) EventRequestComplete)%bool eqn:Er.
  2: { destruct (String.eqb (ev_Type event) EventSessionEnd); simpl; auto. }
  destruct (Unmarshal_TapeRequestData (ev_Data event)) as [d|] eqn:Ed; [|simpl; auto].
  assert (Hty : In (ev_Type event) [EventRequestStart; EventRequestUpdate; EventRequestComplete]).
  { rewrite !orb_true_iff, !String.eqb_eq in Er. destruct Er as [[H|H]|H]; rewrite H; simpl; auto. }
  cbn [tp_RequestMap set_events].
  destruct (tp_RequestMap t !! td_ID d) as [existing|] eqn:Ex; simpl.
  - split; [done|]. split; [|split].
    + intros l Hl. destruct (HR l Hl) as [Hlt Hid]. by split.
    + intros id l Hl. destruct (HM id l Hl) as [Hin (r & Hr & Hrid)]. split; [done|].
      destruct (decide (l = existing)) as [->|Hne].
      * rewrite lookup_insert_eq. eexists; split; [done|]. simpl.
        destruct (HM _ _ Ex) as [_ (r' & Hr' & Hrid')]. congruence.
      * rewrite lookup_insert_ne by done. eauto.
    + intros e He. apply in_app_or in He as [He|[<-|[]]]; [by apply HT'|].
      simpl. split; [apply in_or_app; right; by left|]. split; [done|]. split; [done|].
      exists d. by split.
  - split; [|split; [|split]].
    + apply NoDup_app. split; [done|]. split; [|apply NoDup_singleton].
      intros l Hl [<-|[]]%list_elem_of_In. apply list_elem_of_In, HR in Hl. lia.
    + intros l Hl. apply in_app_or in Hl as [Hl|[<-|[]]].
      * destruct (HR l Hl) as [Hlt [id Hid]]. split; [lia|]. exists id.
        rewrite lookup_insert_ne; [done|]. congruence.
      * split; [lia|]. exists (td_ID d). by rewrite lookup_insert_eq.
    + intros id l. destruct (decide (id = td_ID d)) as [->|Hne].
      * rewrite lookup_insert_eq. intros [= <-]. split; [apply in_or_app; right; by left|].
        rewrite lookup_insert_eq. by eexists.
      * rewrite lookup_insert_ne by done. intros Hl. destruct (HM id l Hl) as [Hin (r & Hr & Hrid)].
        split; [apply in_or_app; by left|]. exists r. split; [|done].
        rewrite lookup_insert_ne; [done|]. destruct (HR l Hin). lia.
    + intros e He. apply in_app_or in He as [He|[<-|[]]].
      * destruct (HT' e He) as (H1 & H2 & H3 & d' & Hd' & Hm). do 3 (split; [done|]).
        exists d'. split; [done|]. rewrite lookup_insert_ne; [done|]. congruence.
      * simpl. split; [apply in_or_app; right; by left|]. split; [done|]. split; [done|].
        exists d. split; [done|]. by rewrite lookup_insert_eq.
Qed.

Lemma insert_by_perm {A} (less : A -> A -> bool) (x : A) (l : list A) :
  Permutation (insert_by less x l) (x :: l).
Proof.
  induction l as [|y r IH]; simpl; [done|].
  destruct (less x y); [done|]. rewrite IH. by constructor.
Qed.

Lemma sort_by_perm {A} (less : A -> A -> bool) (l : list A) :
  Permutation (sort_by less l) l.
Proof.
  unfold sort_by. cut (forall acc, Permutation (fold_left (fun acc x => insert_by less x acc) l acc)
                                              (acc ++ l)).
  { intros H. apply H. }
  induction l as [|x r IH]; intros acc; simpl; [by rewrite app_nil_r|].
  rewrite IH, insert_by_perm. simpl. by rewrite Permutation_middle.
Qed.

Lemma fold_load_line_inv (lines : list (list ascii)) (ts : Tape * Store) :
  load_inv ts -> load_inv (fold_left load_line lines ts).
Proof.
  revert ts. induction lines as [|line r IH]; intros ts H; simpl; [done|].
  apply IH, load_line_inv, H.
Qed.

Lemma LoadTape_inv (filename : string) (file : list ascii) (σ0 : Store) (t : Tape) (σ : Store) :
  LoadTape filename file σ0 = Some (t, σ) -> load_inv (t, σ).
Proof.
  unfold LoadTape. destruct (scan_lines file) as [lines|]; [|discriminate].
  pose proof (fold_load_line_inv lines (emptyTape filename, σ0) (load_inv_empty _ _)) as Hinv.
  destruct (fold_left load_line lines (emptyTape filename, σ0)) as [t1 σ1].
  intros [= <- <-].
  match goal with |- context [set_requests ?X _ _ _] =>
    assert (tp_Requests X = tp_Requests t1 /\ tp_RequestMap X = tp_RequestMap t1 /\
            tp_Timeline X = tp_Timeline t1 /\ tp_Events X = tp_Events t1) as (HR & HM & HT & HE)
      by (repeat case_match; auto) end.
  destruct Hinv as (H1 & H2 & H3 & H4). simpl. rewrite HM, HE.
  split; [|split; [|split]].
  - rewrite sort_by_perm, HR. done.
  - intros l Hl. apply H2. rewrite <- HR. by apply sort_by_In in Hl.
  - intros id l Hl. destruct (H3 id l Hl) as [Hin Hr]. split; [|done].
    apply sort_by_In. by rewrite HR.
  - intros e He. apply H4. rewrite <- HT. by apply sort_by_In in He.
Qed.

(** X10: after a successful [LoadTape], [Requests] has no duplicates and holds exactly the pointers of [requestMap], each pointing to a record with its own ID. *)
Theorem LoadTape_RequestMap (filename : string) (file : list ascii) (σ0 : Store)
    (t : Tape) (σ : Store) :
  LoadTape filename file σ0 = Some (t, σ) ->
  NoDup (tp_Requests t) /\
  (forall l, In l (tp_Requests t) <-> exists id, tp_RequestMap t !! id = Some l) /\
  (forall id l, tp_RequestMap t !! id = Some l ->
     exists r, st_heap σ !! l = Some r /\ ID r = id).
Proof.
  intros H. destruct (LoadTape_inv _ _ _ _ _ H) as (H1 & H2 & H3 & _).
  split; [done|]. split.
  - intros l. split; [by intros Hl; apply H2|]. intros [id Hl]. by apply (H3 id l).
  - intros id l Hl. by apply H3.
Qed.

(** X11: after a successful [LoadTape], every timeline entry comes from a request event of [Events], has that event's timestamp, and points to the record of the request ID in the event data. *)
Theorem LoadTape_Timeline_entries (filename : string) (file : list ascii) (σ0 : Store)
    (t : Tape) (σ : Store) :
  LoadTape filename file σ0 = Some (t, σ) ->
  forall e, In e (tp_Timeline t) ->
     In (tl_Event e) (tp_Events t) /\ tl_Time e = ev_Timestamp (tl_Event e) /\
     In (ev_Type (tl_Event e)) [EventRequestStart; EventRequestUpdate; EventRequestComplete] /\
     exists d, Unmarshal_TapeRequestData (ev_Data (tl_Event e)) = Some d /\
               tp_RequestMap t !! td_ID d = Some (tl_Request e) /\
               ID (deref σ (tl_Request e)) = td_ID d.
Proof.
  intros H e He. destruct (LoadTape_inv _ _ _ _ _ H) as (_ & _ & H3 & H4).
  destruct (H4 e He) as (E1 & E2 & E3 & d & Hd & Hm). do 3 (split; [done|]).
  exists d. do 2 (split; [done|]). destruct (H3 _ _ Hm) as [_ (r & Hr & Hid)].
  unfold deref. by rewrite Hr.
Qed.

Lemma LoadTape_RequestMap_witness :
  exists t σ, LoadTape "replay.tape" tape_ordered empty_store = Some (t, σ) /\
  NoDup (tp_Requests t) /\
  (forall l, In l (tp_Requests t) <-> exists id, tp_RequestMap t !! id = Some l) /\
  (forall id l, tp_RequestMap t !! id = Some l ->
     exists r, st_heap σ !! l = Some r /\ ID r = id).
Proof.
  destruct (LoadTape "replay.tape" tape_ordered empty_store) as [[t σ]|] eqn:E.
  - exists t, σ. split; [reflexivity|].
    exact (LoadTape_RequestMap "replay.tape" tape_ordered empty_store t σ E).
  - vm_compute in E. discriminate.
Defined.

Lemma LoadTape_Timeline_entries_witness :
  exists t σ, LoadTape "replay.tape" tape_ordered empty_store = Some (t, σ) /\
  forall e, In e (tp_Timeline t) ->
     In (tl_Event e) (tp_Events t) /\ tl_Time e = ev_Timestamp (tl_Event e) /\
     In (ev_Type (tl_Event e)) [EventRequestStart; EventRequestUpdate; EventRequestComplete] /\
     exists d, Unmarshal_TapeRequestData (ev_Data (tl_Event e)) = Some d /\
               tp_RequestMap t !! td_ID d = Some (tl_Request e) /\
               ID (deref σ (tl_Request e)) = td_ID d.
Proof.
  destruct (LoadTape "replay.tape" tape_ordered empty_store) as [[t σ]|] eqn:E.
  - exists t, σ. split; [reflexivity|].
    exact (LoadTape_Timeline_entries "replay.tape" tape_ordered empty_store t σ E).
  - vm_compute in E. discriminate.
Defined.

Lemma replay_ids (tl : list TimelineEntry) (T : Time) (σ : Store)
    (states : gmap Z N) (σ' : Store) :
  replay tl T ∅ σ = (states, σ') ->
  forall id l, states !! id = Some l -> ID (deref σ' l) = id.
Proof.
  intros Hr id l Hl. destruct (replay_spec_empty tl T σ states σ' id l Hr Hl) as (d & Hd & ->).
  by apply last_snap_In in Hd as [_ <-].
Qed.

Lemma Sorted_le_strict {A} (f : A -> Z) (l : list A) :
  Sorted (fun a b => f a <= f b) l -> NoDup (map f l) -> Sorted (fun a b => f a < f b) l.
Proof.
  induction 1 as [|a r Hs IH Hhd]; intros Hnd; constructor.
  - apply IH. simpl in Hnd. by inversion Hnd.
  - destruct Hhd as [|b r' Hab]; constructor. simpl in Hnd.
    inversion Hnd as [|? ? Hnot _]. assert (f a <> f b) by (intros E; apply Hnot; rewrite E; left).
    lia.
Qed.

(** X12: [GetRequestsAtTime] returns records sorted by strictly increasing ID, so no ID appears twice. *)
Theorem GetRequestsAtTime_sorted_unique (t : Tape) (targetTime : Time) (σ : Store) :
  let '(result, σ') := GetRequestsAtTime t targetTime σ in
  Sorted (fun a b => ID (deref σ' a) < ID (deref σ' b)) result.
Proof.
  unfold GetRequestsAtTime. destruct (replay (tp_Timeline t) targetTime ∅ σ) as [states σ'] eqn:E.
  apply Sorted_le_strict; [apply sort_by_less_ID_sorted|].
  rewrite (sort_by_perm (less_ID σ') (map snd (map_to_list states))), map_map.
  erewrite map_ext_in; [apply NoDup_fst_map_to_list|].
  intros [id l] Hin. simpl. apply (replay_ids _ _ _ _ _ E).
  apply elem_of_map_to_list. by apply list_elem_of_In.
Qed.

(** X13: [GetRequestsAtTime] returns, for each request ID seen up to the target time, one record built from the last snapshot of that ID, and nothing else. *)
Theorem GetRequestsAtTime_latest (t : Tape) (targetTime : Time) (σ : Store) :
  let '(result, σ') := GetRequestsAtTime t targetTime σ in
  let snaps := snapshots (take_until targetTime (tp_Timeline t)) in
  (forall l, In l result ->
     exists d, last_snap (ID (deref σ' l)) snaps = Some d /\ deref σ' l = tapeDataToRequest d) /\
  (forall id d, last_snap id snaps = Some d ->
     exists l, In l result /\ deref σ' l = tapeDataToRequest d).
Proof.
  unfold GetRequestsAtTime. destruct (replay (tp_Timeline t) targetTime ∅ σ) as [states σ'] eqn:E.
  simpl. split.
  - intros l Hl. apply sort_by_In in Hl. apply in_map_iff in Hl as ([id l'] & <- & Hin).
    apply list_elem_of_In, elem_of_map_to_list in Hin. simpl.
    rewrite (replay_ids _ _ _ _ _ E id l' Hin).
    exact (replay_spec_empty _ _ _ _ _ id l' E Hin).
  - intros id d Hd.
    destruct (replay_spec (tp_Timeline t) targetTime ∅ σ ∅ states σ') as [H1 _];
      [done|done|done|].
    specialize (H1 id). rewrite fold_snap_lookup, Hd in H1.
    destruct (states !! id) as [l|] eqn:Hl; [|discriminate]. simpl in H1.
    exists l. split.
    + apply sort_by_In, in_map_iff. exists (id, l). split; [done|].
      apply list_elem_of_In, elem_of_map_to_list, Hl.
    + unfold deref. by rewrite H1.
Qed.

Lemma split_go_app (a b cur : list ascii) :
  split_go (a ++ newline :: b) cur = split_go a cur ++ split_go b [].
Proof.
  revert cur. induction a as [|c a IH]; intros cur; simpl.
  - by rewrite ?Ascii.eqb_refl.
  - destruct (Ascii.eqb c newline); simpl; by rewrite IH.
Qed.

(** X15: [extractTokenUsageFromSSE] on two chunks joined by a newline is the same as running it on the first chunk and then on the second. *)
Theorem extractTokenUsageFromSSE_app (req : LLMRequest) (a b : list ascii) :
  extractTokenUsageFromSSE req (a ++ newline :: b) =
  extractTokenUsageFromSSE (extractTokenUsageFromSSE req a) b.
Proof.
  unfold extractTokenUsageFromSSE, Split. by rewrite split_go_app, fold_left_app.
Qed.

Lemma with_usage_eta (r : LLMRequest) : with_usage r (InputTokens r) (OutputTokens r) (Cost r) = r.
Proof. by destruct r. Qed.

Lemma with_usage_twice (r : LLMRequest) i o c i' o' c' :
  with_usage (with_usage r i o c) i' o' c' = with_usage r i' o' c'.
Proof. reflexivity. Qed.

Lemma sse_inv_setIn (req r : LLMRequest) (n : Z) :
  sse_inv req r -> 0 < n -> sse_inv req (set_InputTokens r n).
Proof.
  intros (Hr & Hi & Ho) Hn. unfold sse_inv, set_InputTokens. simpl.
  split; [rewrite Hr; reflexivity|]. tauto.
Qed.

Lemma sse_inv_setOut (req r : LLMRequest) (n : Z) :
  sse_inv req r -> 0 < n -> sse_inv req (set_OutputTokens r n).
Proof.
  intros (Hr & Hi & Ho) Hn. unfold sse_inv, set_OutputTokens. simpl.
  split; [rewrite Hr; reflexivity|]. tauto.
Qed.

Lemma sse_line_inv (req r : LLMRequest) (line : list ascii) :
  sse_inv req r -> sse_inv req (sse_line r line).
Proof.
  intros H. unfold sse_line. cbv zeta.
  destruct (_ && _); [exact H|]. destruct (_ || _); [exact H|].
  destruct (Unmarshal_SSEEvent _) as [event|]; [|exact H].
  repeat lazymatch goal with
  | |- sse_inv _ (if ?b then _ else _) =>
      destruct b eqn:Eb;
        [first [apply sse_inv_setIn | apply sse_inv_setOut];
         [|rewrite ?andb_true_iff, ?Z.ltb_lt in Eb; tauto]|]; clear Eb
  end.
  all: exact H.
Qed.

(** X16: [extractTokenUsageFromSSE] only changes [InputTokens] and [OutputTokens], and each of them is either unchanged or set to a positive count. *)
Theorem extractTokenUsageFromSSE_tokens (req : LLMRequest) (data : list ascii) :
  let r := extractTokenUsageFromSSE req data in
  r = with_usage req (InputTokens r) (OutputTokens r) (Cost req) /\
  (InputTokens r = InputTokens req \/ 0 < InputTokens r) /\
  (OutputTokens r = OutputTokens req \/ 0 < OutputTokens r).
Proof.
  unfold extractTokenUsageFromSSE. generalize (Split data) as lines.
  assert (Hgen : forall lines r, sse_inv req r -> sse_inv req (fold_left sse_line lines r)).
  { induction lines as [|line rest IH]; intros r Hr; simpl; [done|].
    apply IH, sse_line_inv, Hr. }
  intros lines. apply Hgen. split; [by rewrite with_usage_eta|]. tauto.
Qed.

Lemma DecodeRune_width (l : list ascii) (r : Z) (w : nat) :
  DecodeRune l = Some (r, w) -> (1 <= w <= length l)%nat.
Proof.
  unfold DecodeRune. intros H.
  repeat (case_match; simplify_eq/=; try lia).
Qed.

Lemma DecodeLastRune_spec (l : list ascii) (r : Z) (size : nat) :
  l <> [] -> DecodeLastRune l = (r, size) ->
  (1 <= size <= length l)%nat /\
  (size = length l ->
   r = RuneError \/ (exists b, l = [b] /\ r = byte_val b) \/ DecodeRune l = Some (r, size)).
Proof.
  intros Hne. unfold DecodeLastRune.
  assert (Hlen : (1 <= length l)%nat) by (destruct l; [done|simpl; lia]).
  destruct (rev l) as [|b rl] eqn:Er.
  { apply (f_equal (@rev ascii)) in Er. rewrite rev_involutive in Er. by subst. }
  destruct (byte_val b <? 128).
  - intros [= <- <-]. split; [lia|]. intros Hl. right; left. exists b. split; [|done].
    apply (f_equal (@rev ascii)) in Er. rewrite rev_involutive in Er. subst l.
    rewrite length_rev in Hl. simpl in Hl. destruct rl; simpl in *; [done|lia].
  - set (start := Z.max 0 _).
    destruct (DecodeRune (skipn (Z.to_nat start) l)) as [[r' w]|] eqn:Ed.
    + destruct (start + Z.of_nat w =? Z.of_nat (length l)) eqn:Eq.
      * intros [= <- <-]. apply Z.eqb_eq in Eq.
        pose proof (DecodeRune_width _ _ _ Ed) as Hw. rewrite length_skipn in Hw.
        assert (0 <= start) by (unfold start; lia).
        split; [lia|]. intros Hl. right; right.
        replace (Z.to_nat start) with O in Ed by lia. exact Ed.
      * intros [= <- <-]. split; [lia|]. by left.
    + intros [= <- <-]. split; [lia|]. by left.
Qed.

Lemma IsSpace_RuneError : IsSpace RuneError = false.
Proof. reflexivity. Qed.

Lemma lastIndexFunc_brace (y : list ascii) (fuel i : nat) :
  (1 <= i <= S (length y))%nat -> (i <= fuel)%nat ->
  0 <= lastIndexFunc_go fuel ("{"%char :: y) i.
Proof.
  revert i. induction fuel as [|f IH]; intros i Hi Hf; [lia|]. simpl.
  destruct (Nat.eqb i 0) eqn:E0; [apply Nat.eqb_eq in E0; lia|].
  destruct (DecodeLastRune (firstn i ("{"%char :: y))) as [r size] eqn:Ed.
  destruct i as [|i]; [lia|].
  destruct (DecodeLastRune_spec (firstn (S i) ("{"%char :: y)) _ _ ltac:(simpl; discriminate) Ed) as [Hs Hfull].
  rewrite length_firstn in Hs. simpl length in Hs.
  destruct (IsSpace r) eqn:Esp; simpl; [|lia].
  apply IH; [|lia]. split; [|lia].
  destruct (Nat.eq_dec size (S i)) as [Heq|Hneq]; [|lia]. exfalso.
  rewrite length_firstn in Hfull. simpl length in Hfull.
  destruct (Hfull ltac:(lia)) as [->|[(b & Hb & ->)|Hd]].
  - by rewrite IsSpace_RuneError in Esp.
  - simpl in Hb. injection Hb as <- _. discriminate.
  - simpl in Hd. injection Hd as <- _. vm_compute in Esp. discriminate.
Qed.

Lemma TrimRightSpace_brace (y : list ascii) :
  exists z, TrimRightSpace ("{"%char :: y) = "{"%char :: z.
Proof.
  unfold TrimRightSpace.
  pose proof (lastIndexFunc_brace y (length ("{"%char :: y)) (length ("{"%char :: y))
    ltac:(simpl; lia) ltac:(lia)) as Hi.
  set (i := lastIndexFunc_go _ _ _) in *.
  destruct (andb _ _) eqn:E.
  - apply andb_true_iff in E as [_ E].
    destruct (Z.to_nat i) as [|n] eqn:En; [vm_compute in E; discriminate|].
    destruct (Z.to_nat (i + _)) as [|m] eqn:Em; [lia|]. simpl. eauto.
  - destruct (Z.to_nat (i + 1)) as [|m] eqn:Em; [lia|]. simpl. eauto.
Qed.

Lemma ascii_trim_snoc (c : ascii) (l : list ascii) :
  byte_val c < 128 -> asciiSpace c = false ->
  (exists x, ascii_trim (l ++ [c]) = inl (x ++ [c])) \/
  (exists x, ascii_trim (l ++ [c]) = inr (x ++ [c])).
Proof.
  intros Hc Hs. induction l as [|a l IH]; simpl.
  - replace (128 <=? byte_val c) with false by (symmetry; apply Z.leb_gt; lia).
    rewrite Hs. right. by exists [].
  - destruct (128 <=? byte_val a); [left; by exists (a :: l)|].
    destruct (asciiSpace a); [exact IH|]. right. by exists (a :: l).
Qed.

Lemma TrimSpace_brace (y : list ascii) :
  exists z, TrimSpace ("{"%char :: y) = "{"%char :: z.
Proof.
  unfold TrimSpace. cbn [ascii_trim].
  replace (128 <=? byte_val "{"%char) with false by reflexivity.
  replace (asciiSpace "{"%char) with false by reflexivity.
  cbn [rev].
  destruct (ascii_trim_snoc "{"%char (rev y) ltac:(reflexivity) ltac:(reflexivity))
    as [[x ->]|[x ->]]; rewrite rev_app_distr; simpl.
  - apply TrimRightSpace_brace.
  - eauto.
Qed.

Lemma HasPrefix_brace (z p : list ascii) (c : ascii) (q : list ascii) :
  p = c :: q -> c <> "{"%char -> HasPrefix ("{"%char :: z) p = false.
Proof.
  intros -> Hc. unfold HasPrefix. simpl firstn.
  destruct (List.list_eq_dec ascii_dec _ _) as [E|]; [|apply andb_false_r].
  injection E as E _. congruence.
Qed.

(** X14: for a body starting with an opening brace, [extractTokenUsage] uses the JSON usage object: prompt and completion tokens, the Anthropic counts as fallback for a zero count, the model cost when a model is set; it reports an update when a token count is positive and the program is set, and leaves the request alone when the JSON does not parse. *)
Theorem extractTokenUsage_json_body {ModelCost : Type}
    (GetModelCost : string -> string -> option ModelCost)
    (CalculateCost : ModelCost -> Z -> Z -> Float64)
    (program : bool) (req : LLMRequest) (rest : list byte) :
  extractTokenUsage GetModelCost CalculateCost program req (Byte.x7b :: rest) =
  match Unmarshal_UsageResponse (map ascii_of_byte (Byte.x7b :: rest)) with
  | None => (req, false)
  | Some u =>
      let inp := if u_PromptTokens u =? 0 then Z.max 0 (u_InputTokens u) else u_PromptTokens u in
      let out := if u_CompletionTokens u =? 0 then Z.max 0 (u_OutputTokens u)
                 else u_CompletionTokens u in
      let cost := if String.eqb (Model req) "" then Cost req
                  else match GetModelCost (ProviderID req) (Model req) with
                       | Some c => CalculateCost c inp out
                       | None => Cost req
                       end in
      (with_usage req inp out cost, program && ((0 <? inp) || (0 <? out)))
  end.
Proof.
  unfold extractTokenUsage. cbn [map]. change (ascii_of_byte Byte.x7b) with "{"%char.
  destruct (TrimSpace_brace (map ascii_of_byte rest)) as [z ->].
  rewrite (HasPrefix_brace z _ "e"%char (list_ascii_of_string "vent:")) by done.
  rewrite (HasPrefix_brace z _ "d"%char (list_ascii_of_string "ata:")) by done.
  simpl orb. cbv iota.
  destruct (Unmarshal_UsageResponse _) as [u|]; [|done]. cbv zeta.
  unfold set_InputTokens, set_OutputTokens, apply_cost, has_tokens, set_Cost.
  destruct (u_PromptTokens u =? 0) eqn:Ep, (0 <? u_InputTokens u) eqn:Ei,
           (u_CompletionTokens u =? 0) eqn:Ec, (0 <? u_OutputTokens u) eqn:Eo;
    do 4 (cbn; rewrite ?Ep, ?Ei, ?Ec, ?Eo); cbn;
    rewrite ?Z.eqb_eq, ?Z.eqb_neq in Ep; rewrite ?Z.eqb_eq, ?Z.eqb_neq in Ec;
    rewrite ?Z.ltb_lt, ?Z.ltb_ge in Ei; rewrite ?Z.ltb_lt, ?Z.ltb_ge in Eo;
    rewrite ?(Z.max_r 0 (u_InputTokens u)), ?(Z.max_l 0 (u_InputTokens u)),
      ?(Z.max_r 0 (u_OutputTokens u)), ?(Z.max_l 0 (u_OutputTokens u)) by lia;
    rewrite ?Ep, ?Ec;
    destruct (String.eqb (Model req) ""); try reflexivity;
    destruct (GetModelCost _ _); reflexivity.
Qed.

(** ** The bytes a cache key hashes *)

Lemma byte_val_chr n : 0 <= n < 256 -> byte_val (chr n) = n.
Proof.
  intros Hn. unfold byte_val, chr. rewrite nat_ascii_embedding by lia. lia.
Qed.

Lemma chr_byte_val c : chr (byte_val c) = c.
Proof. unfold byte_val, chr. rewrite Nat2Z.id. apply ascii_nat_embedding. Qed.

Lemma byte_val_range c : 0 <= byte_val c < 256.
Proof. unfold byte_val. pose proof (nat_ascii_bounded c). lia. Qed.

Lemma DecodeRune_app l x rr w :
  DecodeRune l = Some (rr, w) -> DecodeRune (l ++ x) = Some (rr, w).
Proof.
  unfold DecodeRune. destruct l as [|b0 [|b1 [|b2 [|b3 r]]]]; cbn [app]; intros H;
    repeat (case_match; simplify_eq/=); auto.
Qed.

Lemma DecodeRune_firstn l rr w :
  DecodeRune l = Some (rr, w) -> DecodeRune (firstn w l) = Some (rr, w).
Proof.
  intros H. pose proof (DecodeRune_width _ _ _ H) as Hw. revert H Hw.
  unfold DecodeRune. destruct l as [|b0 [|b1 [|b2 [|b3 r]]]]; intros H Hw;
    repeat (case_match; simplify_eq/=); auto.
Qed.

Lemma utf8_valid_app a b : utf8_valid a -> utf8_valid b -> utf8_valid (a ++ b).
Proof.
  induction 1 as [|l rr w Hd _ IH]; intros Hb; [exact Hb|].
  apply (utf8_rune _ rr w); [apply DecodeRune_app, Hd|].
  pose proof (DecodeRune_width _ _ _ Hd). rewrite skipn_app.
  replace (w - length l)%nat with 0%nat by lia. apply IH, Hb.
Qed.

Lemma utf8_valid_ascii c : byte_val c < 128 -> utf8_valid [c].
Proof.
  intros Hc. apply (utf8_rune _ (byte_val c) 1); [|constructor].
  unfold DecodeRune. rewrite (proj2 (Z.ltb_lt _ _) Hc). reflexivity.
Qed.

Lemma utf8_valid_firstn l rr w :
  DecodeRune l = Some (rr, w) -> utf8_valid (firstn w l).
Proof.
  intros H. apply (utf8_rune _ rr w); [apply DecodeRune_firstn, H|].
  rewrite skipn_firstn_comm, Nat.sub_diag. constructor.
Qed.

Ltac zlia := Z.to_euclidean_division_equations; lia.

(** Decide the comparisons of the goal, splitting on those [lia] cannot. *)
Ltac no_cmp t := lazymatch t with
  | context [Z.ltb _ _] => fail | context [Z.leb _ _] => fail
  | context [Z.eqb _ _] => fail | _ => idtac end.

(** Decide the comparisons of the goal, innermost first, splitting on those
    [lia] cannot decide. *)
Ltac zdec := repeat (match goal with
  | |- context [?a =? ?b] => no_cmp a; no_cmp b;
      first [rewrite (proj2 (Z.eqb_eq a b)) by zlia | rewrite (proj2 (Z.eqb_neq a b)) by zlia
            | destruct (Z.eqb_spec a b)]
  | |- context [?a <? ?b] => no_cmp a; no_cmp b;
      first [rewrite (proj2 (Z.ltb_lt a b)) by zlia | rewrite (proj2 (Z.ltb_ge a b)) by zlia
            | destruct (Z.ltb_spec a b)]
  | |- context [?a <=? ?b] => no_cmp a; no_cmp b;
      first [rewrite (proj2 (Z.leb_le a b)) by zlia | rewrite (proj2 (Z.leb_gt a b)) by zlia
            | destruct (Z.leb_spec a b)]
  end; cbn [andb orb negb]).

Lemma EncodeRune_decode r : DecodeRune (EncodeRune r) = Some
  (if ((55296 <=? r) && (r <=? 57343)) || (1114111 <? r) || (r <? 0) then 65533 else r,
   length (EncodeRune r)).
Proof.
  unfold EncodeRune.
  set (r0 := if ((55296 <=? r) && (r <=? 57343)) || (1114111 <? r) || (r <? 0) then 65533 else r).
  assert (Hr0 : 0 <= r0 <= 1114111 /\ ~ (55296 <= r0 <= 57343)).
  { unfold r0. destruct (_ || _ || _) eqn:E; [lia|].
    rewrite !orb_false_iff, andb_false_iff, Z.leb_gt, Z.leb_gt, Z.ltb_ge, Z.ltb_ge in E. lia. }
  clearbody r0.
  destruct (r0 <? 128) eqn:E1; [|destruct (r0 <? 2048) eqn:E2; [|destruct (r0 <? 65536) eqn:E3]];
    rewrite ?Z.ltb_lt, ?Z.ltb_ge in *; unfold DecodeRune, in_range; cbn [length];
    rewrite ?byte_val_chr by zlia; zdec; try reflexivity; try (exfalso; zlia);
    do 2 f_equal; zlia.
Qed.

Ltac bool_facts := repeat match goal with
  | H : (_ && _) = true |- _ => apply andb_prop in H as [? ?]
  | H : (_ <? _) = true |- _ => apply Z.ltb_lt in H
  | H : (_ <? _) = false |- _ => apply Z.ltb_ge in H
  | H : (_ <=? _) = true |- _ => apply Z.leb_le in H
  | H : (_ <=? _) = false |- _ => apply Z.leb_gt in H
  | H : (_ =? _) = true |- _ => apply Z.eqb_eq in H
  | H : (_ =? _) = false |- _ => apply Z.eqb_neq in H
  | H : (_ && _) = false |- _ => apply andb_false_iff in H as [?|?]
  end.

Ltac byte_ranges := repeat match goal with
  | c : ascii |- _ =>
      lazymatch goal with
      | _ : 0 <= byte_val c < 256 |- _ => fail
      | _ => pose proof (byte_val_range c)
      end
  end.

Lemma map_byte_val_inj l1 l2 : map byte_val l1 = map byte_val l2 -> l1 = l2.
Proof.
  intros H. apply (f_equal (map chr)) in H. rewrite !map_map in H.
  rewrite !(map_ext (fun c => chr (byte_val c)) id) in H by apply chr_byte_val.
  rewrite !map_id in H. exact H.
Qed.

Lemma DecodeRune_EncodeRune l rr w :
  DecodeRune l = Some (rr, w) -> EncodeRune rr = firstn w l.
Proof.
  unfold DecodeRune, in_range.
  destruct l as [|b0 [|b1 [|b2 [|b3 r]]]]; intros H;
    repeat (case_match; simplify_eq/=); try discriminate; bool_facts; byte_ranges;
    apply map_byte_val_inj; unfold EncodeRune; zdec; try (exfalso; zlia);
    cbn [map]; rewrite ?byte_val_chr by zlia; repeat f_equal; zlia.
Qed.

Lemma utf8_valid_inv l rr w :
  utf8_valid l -> DecodeRune l = Some (rr, w) -> utf8_valid (skipn w l).
Proof.
  intros H Hd. inversion H as [|l' rr' w' Hd' Hv]; subst; [discriminate|].
  rewrite Hd in Hd'. injection Hd' as <- <-. exact Hv.
Qed.

Lemma DecodeRune_ascii c r : byte_val c < 128 -> DecodeRune (c :: r) = Some (byte_val c, 1%nat).
Proof. intros H. unfold DecodeRune. rewrite (proj2 (Z.ltb_lt _ _) H). reflexivity. Qed.

Lemma utf8_valid_tail c r : utf8_valid (c :: r) -> byte_val c < 128 -> utf8_valid r.
Proof. intros H Hc. exact (utf8_valid_inv _ _ _ H (DecodeRune_ascii c r Hc)). Qed.

Lemma utf8_valid_head c r : utf8_valid (c :: r) -> exists rr w, DecodeRune (c :: r) = Some (rr, w).
Proof. intros H. inversion H; eauto. Qed.

(** One ASCII byte: its encoding is read back by one step of the scanner. *)
Lemma lex_enc_ascii c n r f rest acc : byte_val c < 128 ->
  lex_string (S f) (enc_str_go (S n) (c :: r) ++ rest) acc =
  lex_string f (enc_str_go n r ++ rest) (c :: acc).
Proof.
  intros Hc. destruct c as [[] [] [] [] [] [] [] []];
    try (vm_compute in Hc; discriminate); reflexivity.
Qed.

Lemma enc_ascii_length c n r : byte_val c < 128 ->
  (length (enc_str_go n r) < length (enc_str_go (S n) (c :: r)))%nat.
Proof.
  intros Hc. destruct c as [[] [] [] [] [] [] [] []];
    try (vm_compute in Hc; discriminate); simpl; rewrite ?length_app; simpl; lia.
Qed.

Lemma Ascii_eqb_byte_val c d : byte_val c <> byte_val d -> Ascii.eqb c d = false.
Proof.
  intros H. destruct (Ascii.eqb c d) eqn:E; [|reflexivity].
  apply Ascii.eqb_eq in E. subst. congruence.
Qed.

Lemma lex_enc n : forall l post acc fuel, utf8_valid l -> (length l <= n)%nat ->
  (length (enc_str_go n l) < fuel)%nat ->
  lex_string fuel (enc_str_go n l ++ quote :: post) acc = Some (rev acc ++ l, post).
Proof.
  induction n as [|n IH]; intros l post acc fuel Hv Hn Hf.
  - destruct l; [|cbn in Hn; lia]. destruct fuel; [cbn in Hf; lia|].
    cbn. rewrite app_nil_r. reflexivity.
  - destruct l as [|c r].
    { destruct fuel; [cbn in Hf; lia|]. cbn. rewrite app_nil_r. reflexivity. }
    destruct fuel as [|f]; [cbn in Hf; lia|].
    destruct (Z.ltb_spec (byte_val c) 128) as [Hc|Hc].
    + rewrite lex_enc_ascii by exact Hc.
      pose proof (enc_ascii_length c n r Hc).
      rewrite IH; [cbn; rewrite <- app_assoc; reflexivity
                  |exact (utf8_valid_tail _ _ Hv Hc) |cbn in Hn; lia | lia].
    + destruct (utf8_valid_head _ _ Hv) as (rr & w & Hd).
      pose proof (DecodeRune_width _ _ _ Hd) as Hw.
      pose proof (utf8_valid_inv _ _ _ Hv Hd) as Hv'.
      assert (Hlen : (length (skipn w (c :: r)) <= n)%nat)
        by (rewrite length_skipn; cbn in *; lia).
      pose proof (DecodeRune_EncodeRune _ _ _ Hd) as HE.
      revert Hf. cbn [enc_str_go]. rewrite (proj2 (Z.ltb_ge _ _) Hc), Hd. intros Hf.
      destruct ((rr =? 8232) || (rr =? 8233)) eqn:Eu.
      * cbn [length app list_ascii_of_string] in Hf.
        transitivity (lex_string f (enc_str_go n (skipn w (c :: r)) ++ quote :: post)
                        (rev (EncodeRune rr) ++ acc)).
        { apply orb_true_iff in Eu as [Eu|Eu]; apply Z.eqb_eq in Eu; subst rr; reflexivity. }
        rewrite HE, IH by (auto; lia).
        rewrite rev_app_distr, rev_involutive, <- app_assoc, firstn_skipn; reflexivity.
      * rewrite length_app in Hf.
        assert (Hpre : firstn w (c :: r) = c :: firstn (w - 1) r)
          by (destruct w; [lia|cbn; rewrite Nat.sub_0_r; reflexivity]).
        rewrite <- app_assoc.
        set (Y := enc_str_go n (skipn w (c :: r)) ++ quote :: post).
        assert (HD : DecodeRune (firstn w (c :: r) ++ Y) = Some (rr, w))
          by (apply DecodeRune_app, DecodeRune_firstn, Hd).
        assert (Hlw : length (firstn w (c :: r)) = w) by (rewrite length_firstn; cbn in *; lia).
        rewrite Hpre in HD |- *. cbn [app lex_string].
        rewrite (Ascii_eqb_byte_val c quote) by (intros E; rewrite E in Hc; vm_compute in Hc; apply Hc; reflexivity).
        rewrite (Ascii_eqb_byte_val c backslash) by (intros E; rewrite E in Hc; vm_compute in Hc; apply Hc; reflexivity).
        rewrite (proj2 (Z.ltb_ge _ 32)) by lia. rewrite (proj2 (Z.ltb_ge _ 128)) by lia.
        rewrite app_comm_cons, HD, <- Hpre.
        rewrite firstn_app, skipn_app, Hlw, Nat.sub_diag, firstn_O, skipn_O, app_nil_r.
        rewrite skipn_all2 by lia. cbn [app].
        rewrite firstn_all2 by lia.
        unfold Y. rewrite IH by (auto; cbn in Hf; lia).
        rewrite rev_app_distr, rev_involutive, <- app_assoc, firstn_skipn. reflexivity.
Qed.

Lemma encodeString_app s r :
  encodeString s ++ r =
  quote :: (enc_str_go (length (list_ascii_of_string s)) (list_ascii_of_string s) ++ quote :: r).
Proof. unfold encodeString. cbn [app]. rewrite <- app_assoc. reflexivity. Qed.

Lemma encodeString_lex s r : utf8_valid (list_ascii_of_string s) ->
  lex_string (length (encodeString s ++ r)) (tl (encodeString s ++ r)) [] =
  Some (list_ascii_of_string s, r).
Proof.
  intros Hv. rewrite encodeString_app. cbn [tl length].
  rewrite lex_enc; [reflexivity|exact Hv|lia|].
  rewrite length_app. cbn. lia.
Qed.

(** [appendString]'s output is a prefix code over valid UTF-8. *)
Lemma encodeString_inj s1 s2 r1 r2 :
  utf8_valid (list_ascii_of_string s1) -> utf8_valid (list_ascii_of_string s2) ->
  encodeString s1 ++ r1 = encodeString s2 ++ r2 -> s1 = s2 /\ r1 = r2.
Proof.
  intros H1 H2 He.
  pose proof (encodeString_lex s1 r1 H1) as L1. pose proof (encodeString_lex s2 r2 H2) as L2.
  rewrite He in L1. rewrite L1 in L2. injection L2 as E1 E2. split; [|exact E2].
  rewrite <- (string_of_list_ascii_of_string s1), <- (string_of_list_ascii_of_string s2), E1.
  reflexivity.
Qed.

Lemma doc_ok_arr l : doc_ok (JDArr l) <-> Forall doc_ok l.
Proof.
  cbn. induction l as [|x r IH]; [split; auto|].
  rewrite Forall_cons. tauto.
Qed.

Lemma doc_ok_obj kv : doc_ok (JDObj kv) <->
  Forall (fun kd => utf8_valid (list_ascii_of_string (fst kd)) /\ doc_ok (snd kd)) kv.
Proof.
  cbn. induction kv as [|[k x] r IH]; [split; auto|].
  rewrite Forall_cons. cbn [fst snd]. tauto.
Qed.

Lemma join_cons_app {X} (f : X -> list ascii) x xs s :
  join [","%char] (map f (x :: xs)) ++ s =
  f x ++ match xs with [] => s | _ => ","%char :: join [","%char] (map f xs) ++ s end.
Proof. destruct xs; cbn; [reflexivity|]. rewrite <- !app_assoc. reflexivity. Qed.

Lemma join_inj {X} (f : X -> list ascii) (ok : X -> Prop) (close : ascii) :
  stop_char close = true -> close <> ","%char ->
  (forall x, ok x -> exists c t, f x = c :: t /\ stop_char c = false) ->
  forall xs, Forall (fun x => ok x /\ forall y r1 r2, ok y -> stop r1 -> stop r2 ->
                               f x ++ r1 = f y ++ r2 -> x = y /\ r1 = r2) xs ->
  forall ys r1 r2, Forall ok ys ->
  join [","%char] (map f xs) ++ close :: r1 = join [","%char] (map f ys) ++ close :: r2 ->
  xs = ys /\ r1 = r2.
Proof.
  intros Hc Hcc Hh xs Hxs. induction Hxs as [|x xs [Hx Hinj] Hxs IH];
    intros ys r1 r2 Hys He; destruct Hys as [|y ys Hy Hys].
  - cbn in He. injection He as ->. auto.
  - rewrite join_cons_app in He. destruct (Hh y Hy) as (c & t & Ef & Ec).
    rewrite Ef in He. cbn in He. injection He as <- _. congruence.
  - rewrite join_cons_app in He. destruct (Hh x Hx) as (c & t & Ef & Ec).
    rewrite Ef in He. cbn in He. injection He as -> _. congruence.
  - rewrite !join_cons_app in He.
    apply Hinj in He as [<- He]; [|exact Hy
      |destruct xs; cbn; [exact Hc|reflexivity]|destruct ys; cbn; [exact Hc|reflexivity]].
    destruct xs as [|x' xs'], ys as [|y' ys'].
    + injection He as ->. auto.
    + cbn in He. injection He as E _. congruence.
    + cbn in He. injection He as E _. congruence.
    + injection He as He. destruct (IH (y' :: ys') r1 r2 Hys He) as [E1 E2].
      subst. rewrite E1. auto.
Qed.

Lemma render_head d : doc_ok d -> exists c t, render d = c :: t /\ stop_char c = false /\
  match d with
  | JDAtom _ => c <> quote /\ c <> "["%char /\ c <> "{"%char
  | JDStr _ => c = quote
  | JDArr _ => c = "["%char
  | JDObj _ => c = "{"%char
  end.
Proof.
  destruct d as [a|s|l|kv]; intros Hok.
  - destruct Hok as [Hh Hf]. destruct a as [|c t]; [contradiction|].
    exists c, t. inversion Hf. auto.
  - exists quote. eexists. split; [reflexivity|auto].
  - exists "["%char. eexists. split; [reflexivity|auto].
  - exists "{"%char. eexists. split; [reflexivity|auto].
Qed.

Lemma atom_prefix a1 : Forall (fun c => stop_char c = false) a1 ->
  forall a2 r1 r2, Forall (fun c => stop_char c = false) a2 -> stop r1 -> stop r2 ->
  a1 ++ r1 = a2 ++ r2 -> a1 = a2 /\ r1 = r2.
Proof.
  induction 1 as [|c a1 Hc Ha IH]; intros a2 r1 r2 Ha2 Hr1 Hr2 He.
  - destruct Ha2 as [|c' a2 Hc' _]; [auto|].
    cbn in He. subst r1. cbn in Hr1. congruence.
  - destruct Ha2 as [|c' a2 Hc' Ha2].
    + cbn in He. subst r2. cbn in Hr2. congruence.
    + injection He as -> He. destruct (IH a2 r1 r2 Ha2 Hr1 Hr2 He). subst. auto.
Qed.

Lemma render_inj d1 : doc_ok d1 -> forall d2 r1 r2, doc_ok d2 -> stop r1 -> stop r2 ->
  render d1 ++ r1 = render d2 ++ r2 -> d1 = d2 /\ r1 = r2.
Proof.
  induction d1 as [a1|s1|l1 IH|kv1 IH] using JDoc_ind'; intros Hok1 d2 r1 r2 Hok2 Hr1 Hr2 He;
    pose proof (render_head _ Hok1) as (c1 & t1 & E1 & S1 & H1);
    pose proof (render_head _ Hok2) as (c2 & t2 & E2 & S2 & H2);
    assert (c1 = c2) as <- by (rewrite E1, E2 in He; injection He; auto);
    destruct d2 as [a2|s2|l2|kv2]; try (unfold quote in *; intuition congruence).
  - destruct Hok1 as [_ F1], Hok2 as [_ F2].
    destruct (atom_prefix a1 F1 a2 r1 r2 F2 Hr1 Hr2 He). subst. auto.
  - destruct (encodeString_inj s1 s2 r1 r2 Hok1 Hok2 He). subst. auto.
  - cbn [render] in He. injection He as He. rewrite <- !app_assoc in He. cbn [app] in He.
    apply doc_ok_arr in Hok1, Hok2.
    destruct (join_inj render doc_ok "]"%char eq_refl ltac:(discriminate)
                (fun x Hx => match render_head x Hx with
                             | ex_intro _ c (ex_intro _ t (conj E (conj Sc _))) =>
                                 ex_intro _ c (ex_intro _ t (conj E Sc)) end)
                l1 ltac:(rewrite Forall_forall in IH, Hok1 |- *; intros x Hx; split;
                         [apply Hok1, Hx|apply IH, Hok1; exact Hx])
                l2 r1 r2 Hok2 He).
    subst. auto.
  - cbn [render] in He. injection He as He. rewrite <- !app_assoc in He. cbn [app] in He.
    apply doc_ok_obj in Hok1, Hok2.
    destruct (join_inj (fun '(k, v) => encodeString k ++ ":"%char :: render v)
                (fun kd => utf8_valid (list_ascii_of_string (fst kd)) /\ doc_ok (snd kd))
                "}"%char eq_refl ltac:(discriminate)
                ltac:(intros [k v] _; exists quote; eexists; split; [reflexivity|reflexivity])
                kv1 ltac:(rewrite Forall_forall in IH, Hok1 |- *; intros [k v] Hx; split;
                         [apply Hok1, Hx|];
                         intros [k' v'] q1 q2 [Hk' Hv'] Hq1 Hq2 Hq;
                         rewrite <- !app_assoc in Hq;
                         destruct (encodeString_inj k k' _ _ (proj1 (Hok1 _ Hx)) Hk' Hq)
                           as [<- Hq'];
                         injection Hq' as Hq';
                         destruct (IH _ Hx (proj2 (Hok1 _ Hx)) v' q1 q2 Hv' Hq1 Hq2 Hq')
                           as [<- <-]; auto)
                kv2 r1 r2 Hok2 He).
    subst. auto.
Qed.

(** ** Atoms *)

Lemma Ascii_eqb_val c d : Ascii.eqb c d = (byte_val c =? byte_val d).
Proof.
  destruct (Ascii.eqb_spec c d) as [->|Hn]; [symmetry; apply Z.eqb_refl|].
  symmetry. apply Z.eqb_neq. intros E. apply Hn.
  rewrite <- (chr_byte_val c), <- (chr_byte_val d), E. reflexivity.
Qed.

Lemma char_fine_stop c : char_fine c -> stop_char c = false.
Proof.
  intros (H1 & H2 & H3 & H4). unfold stop_char. rewrite !Ascii_eqb_val.
  change (byte_val ","%char) with 44. change (byte_val "]"%char) with 93.
  change (byte_val "}"%char) with 125.
  rewrite (proj2 (Z.eqb_neq _ 44) H2), (proj2 (Z.eqb_neq _ 93) H4),
    (proj2 (Z.eqb_neq _ 125)) by lia. reflexivity.
Qed.

Lemma atom_ok_intro c t : Forall char_fine (c :: t) -> atom_ok (c :: t).
Proof.
  intros Hf. split.
  - inversion Hf as [|? ? (H1 & H2 & H3 & H4) _]; subst.
    assert (byte_val quote = 34) by reflexivity.
    assert (byte_val "["%char = 91) by reflexivity.
    assert (byte_val "{"%char = 123) by reflexivity.
    repeat split; intros ->; lia.
  - eapply Forall_impl; [exact Hf|]. intros x. apply char_fine_stop.
Qed.

Lemma digitc_fine c : digitc c -> char_fine c.
Proof. unfold digitc, char_fine. lia. Qed.

Lemma digitc_of n : digitc (ascii_of_nat (Z.to_nat (48 + n mod 10))).
Proof.
  unfold digitc, byte_val. rewrite nat_ascii_embedding; [|pose proof (Z.mod_pos_bound n 10); lia].
  pose proof (Z.mod_pos_bound n 10). lia.
Qed.

Lemma Z_digits_go_digits k n acc : Forall digitc acc ->
  Forall digitc (Z_digits_go k n acc) /\ (acc <> [] \/ k <> O -> Z_digits_go k n acc <> []).
Proof.
  revert n acc. induction k as [|k IH]; intros n acc Ha; cbn [Z_digits_go].
  - split; [exact Ha|]. intros [H|H]; [exact H|congruence].
  - assert (Ha' : Forall digitc (ascii_of_nat (Z.to_nat (48 + n mod 10)) :: acc))
      by (constructor; [apply digitc_of|exact Ha]).
    destruct (n <? 10).
    + split; [exact Ha'|]. intros _. discriminate.
    + destruct (IH (n / 10) _ Ha') as [H1 H2]. split; [exact H1|].
      intros _. apply H2. left. discriminate.
Qed.

Lemma ndigits_go_pos k m : 1 <= ndigits_go k m <= Z.of_nat k + 1.
Proof.
  revert m. induction k as [|k IH]; intros m; cbn [ndigits_go]; [lia|].
  destruct (m <? 10); [lia|]. specialize (IH (m / 10)). lia.
Qed.

Lemma Z_digits_digits n : Forall digitc (Z_digits n) /\ Z_digits n <> [].
Proof.
  unfold Z_digits. destruct (Z_digits_go_digits (Z.to_nat (ndigits n)) n [] ltac:(constructor))
    as [H1 H2].
  split; [exact H1|]. apply H2. right. unfold ndigits.
  pose proof (ndigits_go_pos (Z.to_nat (Z.log2 n + 1)) n). lia.
Qed.

Ltac fine_const := unfold char_fine, digitc;
  repeat match goal with |- context [byte_val ?c] =>
    let v := eval vm_compute in (byte_val c) in change (byte_val c) with v end; lia.

Lemma Itoa_atom n : atom_ok (Itoa n).
Proof.
  unfold Itoa. destruct (n <? 0).
  - destruct (Z_digits_digits (- n)) as [H1 _]. apply atom_ok_intro.
    constructor; [fine_const|].
    eapply Forall_impl; [exact H1|exact digitc_fine].
  - destruct (Z_digits_digits n) as [H1 H2]. destruct (Z_digits n) as [|c t]; [congruence|].
    apply atom_ok_intro. eapply Forall_impl; [exact H1|exact digitc_fine].
Qed.

Lemma encodeBool_atom b : atom_ok (encodeBool b).
Proof. destruct b; apply atom_ok_intro; repeat constructor; fine_const. Qed.

Lemma null_atom : atom_ok (list_ascii_of_string "null").
Proof. apply atom_ok_intro; repeat constructor; fine_const. Qed.

(** ** Decimal digit counts *)

Lemma ndigits_go_spec k m : 0 < m < 10 ^ Z.of_nat k ->
  10 ^ (ndigits_go k m - 1) <= m < 10 ^ ndigits_go k m.
Proof.
  revert m; induction k as [|k IH]; intros m Hm; cbn [ndigits_go].
  - cbn in Hm. lia.
  - destruct (Z.ltb_spec m 10) as [Hl|Hl]; [cbn; lia|].
    rewrite Nat2Z.inj_succ, Z.pow_succ_r in Hm by lia.
    assert (Hq : 0 < m / 10 < 10 ^ Z.of_nat k) by (split; [zlia|apply Z.div_lt_upper_bound; lia]).
    specialize (IH _ Hq). pose proof (ndigits_go_pos k (m / 10)) as Hp.
    set (d := ndigits_go k (m / 10)) in *.
    replace (1 + d - 1) with ((d - 1) + 1) by lia.
    replace (1 + d) with ((d - 1) + 1 + 1) by lia.
    replace d with ((d - 1) + 1) in IH at 2 by lia.
    rewrite !Z.pow_add_r in * by lia. change (10 ^ 1) with 10 in *.
    set (P := 10 ^ (d - 1)) in *. zlia.
Qed.

Lemma ndigits_spec m : 0 < m ->
  10 ^ (ndigits m - 1) <= m < 10 ^ ndigits m /\ 1 <= ndigits m <= Z.log2 m + 1.
Proof.
  intros Hm. unfold ndigits.
  pose proof (Z.log2_nonneg m). pose proof (Z.log2_spec m Hm) as [_ Hl].
  assert (H2 : 2 ^ Z.succ (Z.log2 m) <= 10 ^ Z.of_nat (Z.to_nat (Z.log2 m + 1))).
  { rewrite Z2Nat.id by lia. apply Z.pow_le_mono_l. lia. }
  pose proof (ndigits_go_spec (Z.to_nat (Z.log2 m + 1)) m ltac:(lia)) as Hs.
  pose proof (ndigits_go_pos (Z.to_nat (Z.log2 m + 1)) m).
  set (nd := ndigits_go (Z.to_nat (Z.log2 m + 1)) m) in *.
  split; [exact Hs|]. split; [lia|].
  assert (Hlt : 2 ^ (nd - 1) < 2 ^ Z.succ (Z.log2 m)).
  { eapply Z.le_lt_trans; [|exact Hl]. eapply Z.le_trans; [|apply Hs].
    apply Z.pow_le_mono_l. lia. }
  apply Z.pow_lt_mono_r_iff in Hlt; lia.
Qed.

(** [ndigits] over-approximates [log10]: the bound used for exponents. *)
Lemma ndigits_log2 m : 0 < m -> ndigits m - 1 <= Z.log2 m.
Proof.
  intros Hm. destruct (ndigits_spec m Hm) as [_ Hp]. lia.
Qed.

(** ** Bounds of the shortest digits *)

Lemma shortest_go_bound fuel : forall p target N D t c ex,
  0 < N -> 0 < D -> 1 <= p ->
  (forall q, 1 <= q ->
     N * 10 ^ Z.max (q - 1 - t) 0 < D * 10 ^ Z.max (t + 1 - q) 0 * 10 ^ (q + 1)) ->
  shortest_go fuel p target N D t = (c, ex) ->
  exists q, p <= q <= p + Z.of_nat fuel /\ ex = t + 1 - q /\ 0 <= c <= 10 ^ (q + 1).
Proof.
  induction fuel as [|k IH]; intros p target N D t c ex HN HD Hp Hb H;
    cbn [shortest_go] in H;
    assert (Hlo : 0 <= (if 0 <=? p - 1 - t then N * 10 ^ (p - 1 - t) else N)
                      / (if 0 <=? p - 1 - t then D else D * 10 ^ (- (p - 1 - t)))
                    < 10 ^ (p + 1))
      by (specialize (Hb p Hp); destruct (Z.leb_spec 0 (p - 1 - t));
          [rewrite Z.max_l in Hb by lia; rewrite Z.max_r in Hb by lia
          |rewrite Z.max_r in Hb by lia; rewrite Z.max_l in Hb by lia];
          rewrite ?Z.pow_0_r, ?Z.mul_1_r in Hb;
          try replace (- (p - 1 - t)) with (t + 1 - p) by lia;
          (split; [apply Z.div_pos|apply Z.div_lt_upper_bound]);
          try apply Z.mul_nonneg_nonneg; try apply Z.mul_pos_pos; try apply Z.pow_pos_nonneg;
          try apply Z.pow_nonneg; try lia; try exact Hb);
    set (lo := _ / _) in *;
    repeat (case_match; simplify_eq/=);
    try (exists p; repeat split; lia).
  all: edestruct (IH (p + 1)) as (q & Hq & Hex & Hc);
    [exact HN|exact HD|lia|exact Hb|eassumption|exists q; lia].
Qed.

Lemma ratio_bound N D t q : 0 < N -> 0 < D -> ndigits N - ndigits D - 1 <= t -> 1 <= q ->
  N * 10 ^ Z.max (q - 1 - t) 0 < D * 10 ^ Z.max (t + 1 - q) 0 * 10 ^ (q + 1).
Proof.
  intros HN HD Ht Hq.
  destruct (ndigits_spec N HN) as [[_ HNu] [HN1 _]].
  destruct (ndigits_spec D HD) as [[HDl _] [HD1 _]].
  rewrite <- Z.mul_assoc, <- Z.pow_add_r by lia.
  set (a := Z.max (q - 1 - t) 0). set (b := Z.max (t + 1 - q) 0 + (q + 1)).
  assert (Hab : ndigits N + a <= ndigits D - 1 + b) by (unfold a, b; lia).
  assert (Ha : 0 <= a) by (unfold a; lia). assert (Hb : 0 <= b) by (unfold b; lia).
  apply Z.lt_le_trans with (10 ^ ndigits N * 10 ^ a).
  { apply Z.mul_lt_mono_pos_r; [apply Z.pow_pos_nonneg; lia|exact HNu]. }
  rewrite <- Z.pow_add_r by lia.
  apply Z.le_trans with (10 ^ (ndigits D - 1 + b)); [apply Z.pow_le_mono_r; lia|].
  rewrite Z.pow_add_r by lia. apply Z.mul_le_mono_nonneg_r; [apply Z.pow_nonneg; lia|exact HDl].
Qed.

Lemma strip_zeros_bound fuel : forall c ex c' ex', 0 <= c ->
  strip_zeros fuel c ex = (c', ex') -> 0 <= c' <= c /\ ex <= ex' <= ex + Z.of_nat fuel.
Proof.
  induction fuel as [|k IH]; intros c ex c' ex' Hc H; cbn [strip_zeros] in H.
  - injection H as <- <-. lia.
  - destruct ((c mod 10 =? 0) && (0 <? c)) eqn:E.
    + apply IH in H; [|zlia]. zlia.
    + injection H as <- <-. lia.
Qed.

Lemma Z_digits_go_length k n acc : (length (Z_digits_go k n acc) <= k + length acc)%nat.
Proof.
  revert n acc. induction k as [|k IH]; intros n acc; cbn [Z_digits_go]; [lia|].
  destruct (n <? 10); [cbn; lia|]. specialize (IH (n / 10) (ascii_of_nat (Z.to_nat (48 + n mod 10)) :: acc)).
  cbn in IH. lia.
Qed.

Lemma floor_log10_range N D :
  ndigits N - ndigits D - 1 <= floor_log10 N D <= ndigits N - ndigits D.
Proof. unfold floor_log10. destruct (ge_pow10 _ _ _); lia. Qed.

Lemma shortest_digits_bound f : 0 < f_mant f -> f64_ok f ->
  Forall digitc (fst (shortest_digits f)) /\ -1300 <= snd (shortest_digits f) <= 1400.
Proof.
  intros Hm [[_ Hm2] He]. unfold shortest_digits.
  destruct (f64_ratio f) as [N D] eqn:Er.
  assert (HND : 0 < N /\ 0 < D /\ 0 <= Z.log2 N <= 1256 /\ 0 <= Z.log2 D <= 1200).
  { unfold f64_ratio in Er. destruct (Z.leb_spec 0 (f_exp f)); injection Er as <- <-.
    - rewrite Z.log2_mul_pow2 by lia. pose proof (Z.log2_le_mono _ _ Hm2).
      rewrite Z.log2_pow2 in H0 by lia. pose proof (Z.log2_nonneg (f_mant f)).
      split; [apply Z.mul_pos_pos; [lia|apply Z.pow_pos_nonneg; lia]|]. cbn [Z.log2]. lia.
    - rewrite Z.log2_pow2 by lia. pose proof (Z.log2_le_mono _ _ Hm2).
      rewrite Z.log2_pow2 in H0 by lia. pose proof (Z.log2_nonneg (f_mant f)).
      split; [lia|]. split; [apply Z.pow_pos_nonneg; lia|]. lia. }
  destruct HND as (HN & HD & HlN & HlD).
  pose proof (floor_log10_range N D) as Ht.
  pose proof (ndigits_spec N HN) as [_ [HN1 HN2]].
  pose proof (ndigits_spec D HD) as [_ [HD1 HD2]].
  set (t := floor_log10 N D) in *.
  destruct (shortest_go 16 1 _ N D t) as [c ex] eqn:Es.
  destruct (shortest_go_bound 16 1 _ N D t c ex HN HD ltac:(lia)
              (fun q Hq => ratio_bound N D t q HN HD ltac:(lia) Hq) Es) as (q & Hq & Hex & Hc).
  destruct (strip_zeros 20 c ex) as [c' ex'] eqn:Ez.
  destruct (strip_zeros_bound 20 c ex c' ex' ltac:(lia) Ez) as [Hc' Hex'].
  cbn [fst snd]. split; [apply Z_digits_go_digits; constructor|].
  pose proof (Z_digits_go_length (Z.to_nat (ndigits c')) c' []) as Hl. cbn [length] in Hl.
  unfold Z_digits.
  assert (Hc18 : c' <= 10 ^ 18).
  { eapply Z.le_trans; [apply Hc'|]. eapply Z.le_trans; [apply Hc|].
    apply Z.pow_le_mono_r; cbn in Hq; lia. }
  assert (Hlog : Z.log2 c' <= 59).
  { pose proof (Z.log2_le_mono _ _ Hc18) as H. change (Z.log2 (10 ^ 18)) with 59 in H. exact H. }
  pose proof (Z.log2_nonneg c').
  pose proof (ndigits_go_pos (Z.to_nat (Z.log2 c' + 1)) c') as Hnd. unfold ndigits in Hl |- *.
  cbn in Hq. lia.
Qed.

Lemma atom_ok_fine a : a <> [] -> Forall char_fine a -> atom_ok a.
Proof. destruct a; [congruence|]. intros _. apply atom_ok_intro. Qed.

Lemma Forall_nth_default {A} (P : A -> Prop) l n d : Forall P l -> P d -> P (nth n l d).
Proof.
  intros Hl Hd. revert n. induction Hl as [|x l Hx Hl IH]; intros [|n]; cbn; auto.
Qed.

Lemma digit_at_digit ds j : Forall digitc ds -> digitc (digit_at ds j).
Proof.
  intros H. unfold digit_at. assert (digitc "0"%char) by fine_const.
  destruct (_ && _); [apply Forall_nth_default|]; auto.
Qed.

Lemma dig_fine n : 0 <= n <= 42 -> char_fine (ascii_of_nat (Z.to_nat (48 + n))).
Proof.
  intros Hn. unfold char_fine, byte_val. rewrite nat_ascii_embedding by lia. lia.
Qed.

Lemma fmtF_fine ds dp : Forall digitc ds -> fmtF ds dp <> [] /\ Forall char_fine (fmtF ds dp).
Proof.
  intros Hd. unfold fmtF.
  assert (Hf : Forall char_fine (if 0 <? Z.max (Z.of_nat (length ds) - dp) 0 then
     "."%char :: map (fun i => digit_at ds (dp + Z.of_nat i))
                   (seq 0 (Z.to_nat (Z.max (Z.of_nat (length ds) - dp) 0))) else [])).
  { destruct (_ <? _); [|constructor]. constructor; [fine_const|].
    apply List.Forall_forall. intros x Hx. apply in_map_iff in Hx as (i & <- & _).
    apply digitc_fine, digit_at_digit, Hd. }
  destruct (Z.ltb_spec 0 dp).
  - destruct (Z.to_nat dp) as [|k] eqn:Ek; [lia|]. split; [cbn; discriminate|].
    apply Forall_app; split; [|exact Hf].
    apply List.Forall_forall. intros x Hx. apply in_map_iff in Hx as (i & <- & _).
    apply digitc_fine, digit_at_digit, Hd.
  - split; [cbn; discriminate|]. apply Forall_app; split; [|exact Hf].
    constructor; [fine_const|constructor].
Qed.

Lemma fmtE_fine ds dp : Forall digitc ds -> -1300 <= dp <= 1400 ->
  fmtE ds dp <> [] /\ Forall char_fine (fmtE ds dp).
Proof.
  intros Hd Hp. unfold fmtE. split; [destruct ds as [|? [|]]; cbn; discriminate|].
  apply Forall_app. split.
  - destruct ds as [|d [|d' r]]; cbn iota beta;
      [apply List.Forall_nil|exact (Forall_impl _ _ _ Hd digitc_fine)|].
    inversion Hd; subst. constructor; [apply digitc_fine; assumption|].
    constructor; [fine_const|]. exact (Forall_impl _ _ _ H2 digitc_fine).
  - constructor; [fine_const|]. constructor; [destruct (_ <? 0); fine_const|].
    destruct (Z.ltb_spec (Z.abs (dp - 1)) 10); [|destruct (Z.ltb_spec (Z.abs (dp - 1)) 100)];
      repeat (apply List.Forall_cons; [first [apply dig_fine; zlia | fine_const]|]);
      apply List.Forall_nil.
Qed.

Lemma clean_exp_cases b : clean_exp b = b \/
  exists d r, rev b = d :: "0"%char :: "-"%char :: "e"%char :: r /\
              clean_exp b = rev r ++ ["e"; "-"; d]%char.
Proof.
  unfold clean_exp. destruct (rev b) as [|d [|z [|m [|e r]]]] eqn:E; auto.
  all: repeat case_match; subst; eauto 10.
Qed.

Lemma clean_exp_fine b : b <> [] -> Forall char_fine b ->
  clean_exp b <> [] /\ Forall char_fine (clean_exp b).
Proof.
  intros Hn Hf. destruct (clean_exp_cases b) as [->|(d & r & E & ->)]; [auto|].
  assert (Hb : b = rev r ++ ["e"; "-"; "0"; d]%char)
    by (rewrite <- (rev_involutive b), E; cbn; rewrite <- !app_assoc; reflexivity).
  rewrite Hb in Hf. apply Forall_app in Hf as [Hr Hd].
  split; [destruct (rev r); discriminate|].
  apply Forall_app. split; [exact Hr|].
  inversion Hd as [|? ? _ Hd1]; inversion Hd1 as [|? ? _ Hd2]; inversion Hd2 as [|? ? _ Hd3].
  inversion Hd3; subst.
  repeat (apply List.Forall_cons; [first [assumption|fine_const]|]). apply List.Forall_nil.
Qed.

Lemma encodeFloat_atom f : f64_ok f -> atom_ok (encodeFloat f).
Proof.
  intros Hok. unfold encodeFloat.
  assert (Hs : forall x, x <> [] -> Forall char_fine x ->
                 atom_ok ((if f_neg f then ["-"%char] else []) ++ x)).
  { intros x Hx Hf. apply atom_ok_fine.
    - destruct (f_neg f); cbn; [discriminate|exact Hx].
    - apply Forall_app. split; [destruct (f_neg f); repeat constructor; fine_const|exact Hf]. }
  destruct (Z.eqb_spec (f_mant f) 0) as [_|Hm].
  { apply Hs; [discriminate|repeat constructor; fine_const]. }
  destruct (f64_ratio f) as [N D]. destruct (f64_ratio f64_1e_6) as [N6 D6].
  pose proof (shortest_digits_bound f ltac:(destruct Hok; lia) Hok) as [Hd Hp].
  destruct (shortest_digits f) as [ds dp]. cbn [fst snd] in Hd, Hp.
  destruct (_ || _).
  - destruct (fmtE_fine ds dp Hd Hp) as [H1 H2].
    destruct (clean_exp_fine _ H1 H2). apply Hs; assumption.
  - destruct (fmtF_fine ds dp Hd). apply Hs; assumption.
Qed.

(** ** Parsed doubles are in range *)

Lemma canon_go_bound fuel : forall m e m' e', 0 <= m -> canon_go fuel m e = (m', e') ->
  0 <= m' <= m /\ ((m' = 0 /\ e' = 0) \/ e <= e' <= e + Z.of_nat fuel).
Proof.
  induction fuel as [|k IH]; intros m e m' e' Hm H; cbn [canon_go] in H.
  - injection H as <- <-. lia.
  - destruct (m =? 0); [injection H as <- <-; lia|].
    destruct (Z.even m); [|injection H as <- <-; lia].
    apply IH in H; [|zlia]. zlia.
Qed.

Lemma round_div_even_bound n d : 0 <= n -> 0 < d -> n / d <= round_div_even n d <= n / d + 1.
Proof.
  intros Hn Hd. unfold round_div_even.
  destruct (_ <? _); [lia|]. destruct (_ <? _); [lia|]. destruct (Z.even _); lia.
Qed.

Lemma f64_of_dec_ok neg m e10 f : 0 <= m -> f64_of_dec neg m e10 = Some f -> f64_ok f.
Proof.
  intros Hm H. unfold f64_of_dec in H.
  destruct (Z.eqb_spec m 0) as [_|Hm0]; [injection H as <-; unfold f64_ok; cbn [f_mant f_exp]; lia|].
  destruct (_ <=? _); [discriminate|].
  destruct (_ <? _); [injection H as <-; unfold f64_ok; cbn [f_mant f_exp]; lia|].
  set (N := if 0 <=? e10 then m * 10 ^ e10 else m) in H.
  set (D := if 0 <=? e10 then 1 else 10 ^ (- e10)) in H.
  assert (HN : 0 < N) by (unfold N; destruct (Z.leb_spec 0 e10);
                            [apply Z.mul_pos_pos; [lia|apply Z.pow_pos_nonneg; lia]|lia]).
  assert (HD : 0 < D) by (unfold D; destruct (Z.leb_spec 0 e10); [lia|apply Z.pow_pos_nonneg; lia]).
  set (k0 := Z.log2 N - Z.log2 D) in H.
  set (k := if ge_pow2 N D k0 then k0 else k0 - 1) in H.
  assert (Hk : k0 - 1 <= k) by (unfold k; destruct (ge_pow2 _ _ _); lia).
  set (E := Z.max (k - 52) (-1074)) in H.
  set (a := Z.max (- E) 0) in H. set (b := Z.max E 0) in H.
  assert (Hlt : N * 2 ^ a < D * 2 ^ b * 2 ^ 55).
  { pose proof (Z.log2_spec N HN) as [_ HNu]. pose proof (Z.log2_spec D HD) as [HDl _].
    pose proof (Z.log2_nonneg N). pose proof (Z.log2_nonneg D).
    rewrite <- Z.mul_assoc, <- Z.pow_add_r by lia.
    apply Z.lt_le_trans with (2 ^ Z.succ (Z.log2 N) * 2 ^ a).
    { apply Z.mul_lt_mono_pos_r; [apply Z.pow_pos_nonneg; lia|exact HNu]. }
    rewrite <- Z.pow_add_r by lia.
    apply Z.le_trans with (2 ^ (Z.log2 D + (b + 55))); [apply Z.pow_le_mono_r; unfold a, b, E, k0 in *; lia|].
    rewrite Z.pow_add_r by lia. apply Z.mul_le_mono_nonneg_r; [apply Z.pow_nonneg; lia|exact HDl]. }
  set (M := round_div_even (N * 2 ^ a) (D * 2 ^ b)) in H.
  assert (HM : 0 <= M <= 2 ^ 55).
  { assert (Hd : 0 < D * 2 ^ b) by (apply Z.mul_pos_pos; [lia|apply Z.pow_pos_nonneg; lia]).
    assert (Hn : 0 <= N * 2 ^ a) by (apply Z.mul_nonneg_nonneg; [lia|apply Z.pow_nonneg; lia]).
    pose proof (round_div_even_bound _ _ Hn Hd).
    assert (N * 2 ^ a / (D * 2 ^ b) < 2 ^ 55) by (apply Z.div_lt_upper_bound; lia).
    pose proof (Z.div_pos _ _ Hn Hd). unfold M. lia. }
  assert (HE : -1074 <= E) by (unfold E; lia).
  destruct (if M =? 2 ^ 53 then (2 ^ 52, E + 1) else (M, E)) as [M' E'] eqn:HME.
  assert (HM' : 0 <= M' <= 2 ^ 55 /\ -1074 <= E')
    by (destruct (M =? 2 ^ 53); injection HME as <- <-; lia).
  destruct (Z.ltb_spec 971 E'); [discriminate|].
  injection H as <-. unfold f64_canon.
  destruct (canon_go 64 M' E') as [m' e'] eqn:Ec.
  apply canon_go_bound in Ec; [|lia]. unfold f64_ok. cbn [f_mant f_exp]. lia.
Qed.

Lemma take_digits_digits l d r : take_digits l = (d, r) -> Forall (fun c => is_digit c = true) d.
Proof.
  revert d r. induction l as [|c l IH]; intros d r H; cbn in H.
  - injection H as <- _. constructor.
  - destruct (is_digit c) eqn:Ec.
    + destruct (take_digits l) as [d' r'] eqn:E. injection H as <- _.
      constructor; [exact Ec|exact (IH _ _ eq_refl)].
    + injection H as <- _. constructor.
Qed.

Lemma digits_value_nonneg l : forall acc, 0 <= acc -> Forall (fun c => is_digit c = true) l ->
  0 <= digits_value acc l.
Proof.
  induction l as [|c l IH]; intros acc Ha Hl; [exact Ha|].
  inversion Hl as [|? ? Hc Hl']; subst. cbn. apply IH; [|exact Hl'].
  unfold is_digit in Hc. apply andb_prop in Hc as [Hc _]. apply Nat.leb_le in Hc.
  unfold digit_val. lia.
Qed.

Lemma frac_digits s2 fp s3 :
  match s2 with "."%char :: r => take_digits r | _ => ([], s2) end = (fp, s3) ->
  Forall (fun c => is_digit c = true) fp.
Proof.
  intros H. destruct s2 as [|c r]; [injection H as <- _; constructor|].
  destruct c as [[] [] [] [] [] [] [] []];
    try (injection H as <- _; constructor); eapply take_digits_digits; exact H.
Qed.

Lemma ParseFloat_ok s f : ParseFloat s = Some f -> f64_ok f.
Proof.
  unfold ParseFloat.
  destruct (match s with "-"%char :: r => (true, r) | _ => (false, s) end) as [neg s1].
  destruct (take_digits s1) as [ip s2] eqn:E1.
  destruct (match s2 with "."%char :: r => take_digits r | _ => ([], s2) end) as [fp s3] eqn:E2.
  pose proof (take_digits_digits _ _ _ E1) as Hip. pose proof (frac_digits _ _ _ E2) as Hfp.
  cbv beta iota zeta. destruct ip as [|c ip']; [discriminate|].
  match goal with |- match ?e with Some _ => _ | None => _ end = _ -> _ => destruct e end;
    [|discriminate].
  intros H. eapply f64_of_dec_ok; [|exact H].
  apply digits_value_nonneg; [lia|]. apply Forall_app. auto.
Qed.

(** ** The strings the scanner produces are valid UTF-8 *)

Lemma utf8_valid_EncodeRune r : utf8_valid (EncodeRune r).
Proof.
  apply (utf8_rune _ _ _ (EncodeRune_decode r)). rewrite skipn_all. constructor.
Qed.

Lemma lex_string_valid fuel : forall l acc s r, utf8_valid (rev acc) ->
  lex_string fuel l acc = Some (s, r) -> utf8_valid s.
Proof.
  induction fuel as [|f IH]; intros l acc s r Hacc H; [discriminate|].
  cbn [lex_string] in H. destruct l as [|c l']; [discriminate|].
  repeat (case_match; try discriminate);
    try (injection H as <- _; exact Hacc);
    (eapply IH; [|exact H]); cbn [rev]; rewrite ?rev_app_distr, ?rev_involutive;
    (apply utf8_valid_app; [exact Hacc|]);
    try apply utf8_valid_EncodeRune;
    try (eapply utf8_valid_firstn; eassumption);
    apply utf8_valid_ascii; bool_facts;
    repeat match goal with H : (_ || _) = true |- _ => apply orb_true_iff in H as [H|H] end;
    bool_facts; try rewrite byte_val_chr by lia; lia.
Qed.

Lemma lex_string_top_valid l s r : lex_string_top l = Some (s, r) ->
  utf8_valid (list_ascii_of_string s).
Proof.
  unfold lex_string_top. destruct (lex_string _ l []) as [[s' r']|] eqn:E; [|discriminate].
  intros H. injection H as <- _. rewrite list_ascii_of_string_of_list_ascii.
  exact (lex_string_valid _ _ [] _ _ utf8_nil E).
Qed.

Lemma jv_ok_arr l : jv_ok (JArr l) <-> Forall jv_ok l.
Proof. cbn. induction l as [|x r IH]; [split; auto|]. rewrite Forall_cons. tauto. Qed.

Lemma jv_ok_obj kv : jv_ok (JObj kv) <-> Forall kv_ok kv.
Proof.
  cbn. induction kv as [|[[k raw] x] r IH]; [split; auto|].
  rewrite Forall_cons. unfold kv_ok at 1. cbn [fst snd]. tauto.
Qed.

Lemma pv_ok fuel :
  (forall l v r, pv fuel l = Some (v, r) -> jv_ok v) /\
  (forall l acc v r, Forall kv_ok acc -> pmembers fuel l acc = Some (v, r) -> jv_ok v) /\
  (forall l acc v r, Forall jv_ok acc -> pelems fuel l acc = Some (v, r) -> jv_ok v).
Proof.
  induction fuel as [|f (IHv & IHm & IHe)];
    [split; [|split]; intros; discriminate|].
  split; [|split].
  - intros l v r H. cbn [pv] in H.
    repeat (case_match; simplify_eq; try discriminate); try exact I;
      try (eapply lex_string_top_valid; eassumption);
      try (eapply IHm; [constructor|eassumption]);
      try (eapply IHe; [constructor|eassumption]).
  - intros l acc v r Hacc H. cbn [pmembers] in H.
    repeat (case_match; simplify_eq; try discriminate);
      first [eapply IHm; [|eassumption]|apply jv_ok_obj; apply Forall_rev];
      (constructor; [split; [eapply lex_string_top_valid; eassumption|eapply IHv; eassumption]
                    |exact Hacc]).
  - intros l acc v r Hacc H. cbn [pelems] in H.
    repeat (case_match; simplify_eq; try discriminate);
      first [eapply IHe; [|eassumption]|apply jv_ok_arr; apply Forall_rev];
      (constructor; [eapply IHv; eassumption|exact Hacc]).
Qed.

Lemma parse_ok l v : parse l = Some v -> jv_ok v.
Proof.
  unfold parse. destruct (pv _ _) as [[v' r]|] eqn:E; [|discriminate].
  destruct (skip_ws r); [|discriminate]. intros H. injection H as <-.
  exact (proj1 (pv_ok _) _ _ _ E).
Qed.

Lemma any_ok_slice l : any_ok (ASlice l) <-> Forall any_ok l.
Proof. cbn. induction l as [|x r IH]; [split; auto|]. rewrite Forall_cons. tauto. Qed.

Lemma any_ok_map kv : any_ok (AMap kv) <-> Forall (fun kx => str_ok (fst kx) /\ any_ok (snd kx)) kv.
Proof.
  cbn. induction kv as [|[k x] r IH]; [split; auto|].
  rewrite Forall_cons. cbn [fst snd]. tauto.
Qed.

Lemma assoc_set_Forall {A} (Q : string * A -> Prop) k a l :
  Forall Q l -> Q (k, a) -> Forall Q (assoc_set k a l).
Proof.
  induction l as [|[k' a'] r IH]; intros Hl Hq; cbn; [constructor; auto|].
  inversion Hl; subst. destruct (String.eqb k k'); constructor; auto.
Qed.

Lemma dec_any_ok v : forall a, jv_ok v -> dec_any v = Some a -> any_ok a.
Proof.
  induction v as [| | lit | s | l IH | kv IH] using JValue_ind'; intros a Hv Hd; cbn in Hd.
  - injection Hd as <-. exact I.
  - injection Hd as <-. exact I.
  - destruct (ParseFloat lit) as [f|] eqn:E; [|discriminate].
    injection Hd as <-. exact (ParseFloat_ok _ _ E).
  - injection Hd as <-. exact Hv.
  - apply jv_ok_arr in Hv.
    destruct ((fix go (l0 : list JValue) : option (list GoAny) := _) l) as [ys|] eqn:E;
      [|discriminate].
    injection Hd as <-. apply any_ok_slice.
    revert ys E. induction l as [|x r IHl]; intros ys E.
    + injection E as <-. constructor.
    + inversion IH; inversion Hv; subst.
      destruct (dec_any x) as [y|] eqn:Ex; [|discriminate].
      destruct ((fix go (l0 : list JValue) : option (list GoAny) := _) r) as [ys'|] eqn:Er;
        [|discriminate].
      injection E as <-. constructor; eauto.
  - apply jv_ok_obj in Hv.
    match type of Hd with
    | option_map AMap (?g [] kv) = _ =>
        assert (forall kv acc res, Forall (fun kx => forall a, jv_ok (snd kx) ->
                                     dec_any (snd kx) = Some a -> any_ok a) kv ->
                  Forall kv_ok kv ->
                  Forall (fun kx => str_ok (fst kx) /\ any_ok (snd kx)) acc ->
                  g acc kv = Some res ->
                  Forall (fun kx => str_ok (fst kx) /\ any_ok (snd kx)) res) as G;
        [|destruct (g [] kv) as [res|] eqn:E; [|discriminate];
          injection Hd as <-; apply any_ok_map; exact (G kv [] res IH Hv (List.Forall_nil _) E)]
    end.
    clear. induction kv as [|[[k raw] x] r IHr]; intros acc res Hx Hok Hacc E.
    + injection E as <-. exact Hacc.
    + inversion Hx; inversion Hok; subst. cbn [fst snd] in *.
      destruct (dec_any x) as [y|] eqn:Ey; [|discriminate].
      eapply IHr; [eassumption|eassumption| |exact E].
      apply assoc_set_Forall; [exact Hacc|].
      match goal with H : kv_ok _ |- _ => destruct H as [Hk Hxv] end.
      split; [exact Hk|]. eauto.
Qed.

Lemma field_fold_inv {A} (Q : A -> Prop) names name
    (dec : A -> list ascii -> JValue -> option A) cur kv a :
  (forall c raw jv c', Q c -> jv_ok jv -> dec c raw jv = Some c' -> Q c') ->
  Q cur -> Forall kv_ok kv -> field_fold names name dec cur kv = Some a -> Q a.
Proof.
  intros Hdec Hcur Hkv. unfold field_fold.
  assert (forall o, (forall c, o = Some c -> Q c) -> forall kv, Forall kv_ok kv ->
            fold_left (fun acc '(k, raw, jv) =>
              match acc with
              | None => None
              | Some a => if bool_decide (lookup_field names k = Some name)
                          then dec a raw jv else Some a
              end) kv o = Some a -> Q a) as G.
  { intros o Ho kv0 Hkv0. revert o Ho. induction kv0 as [|[[k raw] jv] r IH]; intros o Ho E.
    - exact (Ho _ E).
    - inversion Hkv0; subst. cbn in E. eapply IH; [eassumption| |exact E].
      intros c Hc. destruct o as [c0|]; [|discriminate].
      destruct (bool_decide _); [|injection Hc as <-; eauto].
      eapply Hdec; [apply Ho; reflexivity| |exact Hc].
      match goal with H : kv_ok _ |- _ => exact (proj2 H) end. }
  apply (G (Some cur)); [|exact Hkv]. intros c [= <-]. exact Hcur.
Qed.

Lemma dec_slice_inv {T} (Q : T -> Prop) (dec : T -> JValue -> option T) zero cur v r :
  (forall c jv c', Q c -> jv_ok jv -> dec c jv = Some c' -> Q c') ->
  Q zero -> opt_all Q cur -> jv_ok v -> dec_slice dec zero cur v = Some r -> opt_all Q r.
Proof.
  intros Hdec Hz Hcur Hv. destruct v; cbn; try discriminate.
  - intros [= <-]. exact I.
  - apply jv_ok_arr in Hv.
    assert (Forall Q (match cur with Some o => o | None => [] end)) as Hold
      by (destruct cur; [exact Hcur|constructor]).
    generalize (match cur with Some o => o | None => [] end) Hold. intros old Ho.
    intros H. destruct (_ O l) as [ys|] eqn:E; [|discriminate]. injection H as <-.
    cbn. revert ys E. generalize O. induction l as [|x l' IH]; intros i ys E.
    + injection E as <-. constructor.
    + inversion Hv; subst.
      destruct (dec (nth i old zero) x) as [y|] eqn:Ey; [|discriminate].
      destruct (_ (S i) l') as [ys'|] eqn:Er; [|discriminate].
      injection E as <-. constructor; [|eauto].
      apply (Hdec (nth i old zero) x y); [apply Forall_nth_default; assumption|assumption|exact Ey].
Qed.

Lemma dec_str_ok c raw jv c' : str_ok c -> jv_ok jv -> dec_str c raw jv = Some c' -> str_ok c'.
Proof. intros Hc Hj. destruct jv; cbn; try discriminate; intros [= <-]; assumption. Qed.

Lemma dec_f_ok c raw jv c' : f64_ok c -> jv_ok jv -> dec_f c raw jv = Some c' -> f64_ok c'.
Proof.
  intros Hc Hj. destruct jv; cbn; try discriminate; [intros [= <-]; assumption|].
  apply ParseFloat_ok.
Qed.

Lemma dec_any_ok' (c : GoAny) (raw : list ascii) jv c' : any_ok c -> jv_ok jv ->
  dec_any jv = Some c' -> any_ok c'.
Proof. intros _. apply dec_any_ok. Qed.

Ltac ff_open H :=
  cbn in H;
  repeat match type of H with
  | context [field_fold ?a ?b ?c ?d ?e] =>
      let E := fresh "E" in destruct (field_fold a b c d e) eqn:E; cbn in H; try discriminate H
  end; simplify_eq.
Ltac ff_field Hkv lem :=
  match goal with
  | E : field_fold _ _ _ _ _ = Some ?x |- ?Q ?x =>
      refine (field_fold_inv Q _ _ _ _ _ _ lem _ Hkv E)
  end.

Lemma str_ok_empty : str_ok "".
Proof. exact utf8_nil. Qed.

Lemma f64_zero_ok : f64_ok f64_zero.
Proof. unfold f64_ok; cbn [f_mant f_exp f64_zero]; lia. Qed.

Lemma dec_ToolCallFunction_ok c v c' :
  tcf_ok c -> jv_ok v -> dec_ToolCallFunction c v = Some c' -> tcf_ok c'.
Proof.
  intros Hc Hv H. destruct v; try discriminate; [injection H as <-; exact Hc|].
  apply jv_ok_obj in Hv. destruct Hc as [H1 H2]. ff_open H.
  split; cbn [tf_Name tf_Arguments]; ff_field Hv dec_str_ok; assumption.
Qed.

Lemma dec_ToolCall_ok c v c' : tc_ok c -> jv_ok v -> dec_ToolCall c v = Some c' -> tc_ok c'.
Proof.
  intros Hc Hv H. destruct v; try discriminate; [injection H as <-; exact Hc|].
  apply jv_ok_obj in Hv. destruct Hc as (H1 & H2 & H3). ff_open H.
  split; [|split]; cbn [tc_ID tc_Type tc_Function]; [ff_field Hv dec_str_ok; assumption..|].
  ff_field Hv (fun c (raw : list ascii) jv c' => dec_ToolCallFunction_ok c jv c'). assumption.
Qed.

Lemma zeroToolCall_ok : tc_ok zeroToolCall.
Proof. repeat split; exact str_ok_empty. Qed.

Lemma dec_OpenAIMessage_ok c v c' :
  omsg_ok c -> jv_ok v -> dec_OpenAIMessage c v = Some c' -> omsg_ok c'.
Proof.
  intros Hc Hv H. destruct v; try discriminate; [injection H as <-; exact Hc|].
  apply jv_ok_obj in Hv. destruct Hc as (H1 & H2 & H3 & H4 & H5). ff_open H.
  unfold omsg_ok; cbn [om_Role om_Content om_Name om_ToolCalls om_ToolCallID].
  repeat split; [ff_field Hv dec_str_ok; assumption
                |ff_field Hv (dec_any_ok' : forall c raw jv c', _); assumption
                |ff_field Hv dec_str_ok; assumption
                | |ff_field Hv dec_str_ok; assumption].
  ff_field Hv (fun c (raw : list ascii) jv c' => dec_slice_inv tc_ok dec_ToolCall zeroToolCall c jv c'
                                     dec_ToolCall_ok zeroToolCall_ok).
  assumption.
Qed.

Lemma zeroOpenAIMessage_ok : omsg_ok zeroOpenAIMessage.
Proof. repeat split; try exact str_ok_empty. Qed.

Lemma dec_AnthropicMessage_ok c v c' :
  amsg_ok c -> jv_ok v -> dec_AnthropicMessage c v = Some c' -> amsg_ok c'.
Proof.
  intros Hc Hv H. destruct v; try discriminate; [injection H as <-; exact Hc|].
  apply jv_ok_obj in Hv. destruct Hc as (H1 & H2). ff_open H.
  unfold amsg_ok; cbn [am_Role am_Content].
  split; [ff_field Hv dec_str_ok; assumption
         |ff_field Hv (dec_any_ok' : forall c raw jv c', _); assumption].
Qed.

Lemma zeroAnthropicMessage_ok : amsg_ok zeroAnthropicMessage.
Proof. split; [exact str_ok_empty|exact I]. Qed.

Lemma Unmarshal_OpenAIRequest_ok l r : Unmarshal_OpenAIRequest l = Some r -> oreq_ok r.
Proof.
  unfold Unmarshal_OpenAIRequest. destruct (parse l) as [v|] eqn:Ep; [|discriminate].
  cbn [mbind option_bind]. intros H. apply parse_ok in Ep.
  destruct v; try discriminate;
    [injection H as <-; split; [exact str_ok_empty|split; [exact I|exact f64_zero_ok]]|].
  apply jv_ok_obj in Ep. ff_open H.
  unfold oreq_ok; cbn [or_Model or_Messages or_Temperature].
  split; [|split]; [ff_field Ep dec_str_ok; exact str_ok_empty| |
                    ff_field Ep dec_f_ok; exact f64_zero_ok].
  ff_field Ep (fun c (raw : list ascii) jv c' => dec_slice_inv omsg_ok dec_OpenAIMessage zeroOpenAIMessage c jv c'
                                     dec_OpenAIMessage_ok zeroOpenAIMessage_ok).
  exact I.
Qed.

Lemma Unmarshal_AnthropicRequest_ok l r : Unmarshal_AnthropicRequest l = Some r -> areq_ok r.
Proof.
  unfold Unmarshal_AnthropicRequest. destruct (parse l) as [v|] eqn:Ep; [|discriminate].
  cbn [mbind option_bind]. intros H. apply parse_ok in Ep.
  destruct v; try discriminate;
    [injection H as <-; split; [exact str_ok_empty|split; exact I]|].
  apply jv_ok_obj in Ep. ff_open H.
  unfold areq_ok; cbn [ar_Model ar_Messages ar_System].
  split; [|split]; [ff_field Ep dec_str_ok; exact str_ok_empty| |
                    ff_field Ep (dec_any_ok' : forall c raw jv c', _); exact I].
  ff_field Ep (fun c (raw : list ascii) jv c' => dec_slice_inv amsg_ok dec_AnthropicMessage zeroAnthropicMessage
                                     c jv c' dec_AnthropicMessage_ok zeroAnthropicMessage_ok).
  exact I.
Qed.

(** ** [strconv.Itoa] is injective *)

Lemma digits_value_app l1 l2 acc :
  digits_value acc (l1 ++ l2) = digits_value (digits_value acc l1) l2.
Proof. revert acc. induction l1; intros; cbn; auto. Qed.

Lemma Z_digits_go_value k : forall n acc, 0 <= n < 10 ^ Z.of_nat k ->
  digits_value 0 (Z_digits_go k n acc) = digits_value n acc.
Proof.
  induction k as [|k IH]; intros n acc Hn; cbn [Z_digits_go].
  - cbn in Hn. assert (n = 0) as -> by lia. reflexivity.
  - assert (digit_val (ascii_of_nat (Z.to_nat (48 + n mod 10))) = n mod 10) as Hd.
    { unfold digit_val. rewrite nat_ascii_embedding; [|pose proof (Z.mod_pos_bound n 10); lia].
      pose proof (Z.mod_pos_bound n 10). lia. }
    destruct (n <? 10) eqn:E.
    + cbn [digits_value]. rewrite Hd. f_equal. apply Z.ltb_lt in E. rewrite Z.mod_small; lia.
    + apply Z.ltb_ge in E. rewrite IH.
      * cbn [digits_value]. rewrite Hd. f_equal. pose proof (Z.div_mod n 10). lia.
      * rewrite Nat2Z.inj_succ, Z.pow_succ_r in Hn by lia. split; [apply Z.div_pos; lia|].
        apply Z.div_lt_upper_bound; lia.
Qed.

Lemma Z_digits_value n : 0 <= n -> digits_value 0 (Z_digits n) = n.
Proof.
  intros Hn. unfold Z_digits. rewrite Z_digits_go_value; [reflexivity|].
  destruct (Z.eq_dec n 0) as [->|Hn0]; [vm_compute; split; congruence|].
  pose proof (ndigits_spec n ltac:(lia)) as [[_ H] [H1 _]].
  rewrite Z2Nat.id by lia. lia.
Qed.

Lemma Itoa_inj a b : Itoa a = Itoa b -> a = b.
Proof.
  unfold Itoa.
  assert (forall n, digitc (hd "0"%char (Z_digits n))) as Hh.
  { intros n. destruct (Z_digits_digits n) as [H1 H2].
    destruct (Z_digits n); [congruence|]. inversion H1; assumption. }
  assert (~ digitc "-"%char) as Hm by (unfold digitc; fine_const).
  destruct (a <? 0) eqn:Ea, (b <? 0) eqn:Eb; rewrite ?Z.ltb_lt, ?Z.ltb_ge in Ea, Eb; intros H.
  - injection H as H. apply (f_equal (digits_value 0)) in H.
    rewrite !Z_digits_value in H by lia. lia.
  - specialize (Hh b). rewrite <- H in Hh. contradiction.
  - specialize (Hh a). rewrite H in Hh. contradiction.
  - apply (f_equal (digits_value 0)) in H. rewrite !Z_digits_value in H by lia. exact H.
Qed.

(** ** Documents of the encoded values *)

Lemma insert_by_map {A B} (less : A -> A -> bool) (less' : B -> B -> bool) (f : A -> B) x l :
  (forall a b, less' (f a) (f b) = less a b) ->
  insert_by less' (f x) (map f l) = map f (insert_by less x l).
Proof.
  intros Hf. induction l as [|y r IH]; cbn; [reflexivity|].
  rewrite Hf. destruct (less x y); cbn; [reflexivity|]. f_equal. exact IH.
Qed.

Lemma sort_by_map {A B} (less : A -> A -> bool) (less' : B -> B -> bool) (f : A -> B) l :
  (forall a b, less' (f a) (f b) = less a b) ->
  sort_by less' (map f l) = map f (sort_by less l).
Proof.
  intros Hf. unfold sort_by.
  change (@nil B) with (map f []). generalize (@nil A) as acc.
  induction l as [|x r IH]; intros acc; cbn; [reflexivity|].
  rewrite (insert_by_map less less' f) by exact Hf. apply IH.
Qed.

Lemma render_doc_any a : render (doc_any a) = encodeAny a.
Proof.
  induction a as [| | | |l IH|kv IH] using GoAny_ind'; try reflexivity.
  - cbn [doc_any render encodeAny]. rewrite map_map. do 3 f_equal.
    apply map_ext_Forall. exact IH.
  - cbn [doc_any render encodeAny].
    set (lt := fun x y : string * _ => String.ltb (fst x) (fst y)).
    transitivity ("{"%char :: join [","%char]
      (map (fun '(k, v) => encodeString k ++ ":"%char :: v)
         (map (fun '(k, d) => (k, render d))
            (sort_by lt (map (fun '(k, v) => (k, doc_any v)) kv)))) ++ ["}"%char]).
    { rewrite map_map. do 3 f_equal. apply map_ext. intros [k d]. reflexivity. }
    rewrite <- (sort_by_map lt (fun x y : string * list ascii => String.ltb (fst x) (fst y))
                  (fun '(k, d) => (k, render d))) by (intros [] []; reflexivity).
    rewrite map_map. do 5 f_equal.
    apply map_ext_Forall. eapply Forall_impl; [exact IH|]. intros [k v] H. cbn in H |- *.
    rewrite H. reflexivity.
Qed.

Lemma ascii_valid l : forallb (fun c => byte_val c <? 128) l = true -> utf8_valid l.
Proof.
  induction l as [|c r IH]; intros H; [exact utf8_nil|].
  cbn in H. apply andb_prop in H as [H1 H2]. apply Z.ltb_lt in H1.
  apply (utf8_valid_app [c] r); [apply utf8_valid_ascii; exact H1|exact (IH H2)].
Qed.

Lemma doc_ok_doc_any a : any_ok a -> doc_ok (doc_any a).
Proof.
  induction a as [| | f | s |l IH|kv IH] using GoAny_ind'; intros Ha.
  - exact null_atom.
  - exact (encodeBool_atom b).
  - exact (encodeFloat_atom f Ha).
  - exact Ha.
  - apply any_ok_slice in Ha. cbn [doc_any]. apply doc_ok_arr.
    induction l as [|x r IHl]; cbn; constructor; inversion IH; inversion Ha; subst; auto.
  - apply any_ok_map in Ha. cbn [doc_any]. apply doc_ok_obj.
    apply List.Forall_forall. intros kd Hin. apply sort_by_In in Hin.
    apply in_map_iff in Hin as [[k v] [<- Hin]].
    rewrite List.Forall_forall in IH, Ha. specialize (IH _ Hin). specialize (Ha _ Hin).
    cbn in IH, Ha |- *. destruct Ha as [Hk Hv]. split; [exact Hk|exact (IH Hv)].
Qed.

Lemma render_doc_struct fields : Forall key_plain fields ->
  render (doc_struct fields) = encodeStruct (map (option_map (fun '(k, d) => (k, render d))) fields).
Proof.
  intros Hf. unfold doc_struct, encodeStruct. cbn [render]. do 3 f_equal.
  induction fields as [|[[k d]|] r IH]; [reflexivity| |]; inversion Hf; subst;
    cbn -[jkey encodeString].
  - f_equal; [|exact (IH ltac:(assumption))].
    match goal with H : key_plain _ |- _ => unfold key_plain in H; rewrite H end.
    rewrite <- app_assoc. reflexivity.
  - exact (IH ltac:(assumption)).
Qed.

Lemma render_doc_slice {A} (d : A -> JDoc) (enc : A -> list ascii) s :
  (forall x, render (d x) = enc x) -> render (doc_slice d s) = encodeSlice enc s.
Proof.
  intros H. destruct s as [l|]; [|reflexivity]. cbn. rewrite map_map. do 3 f_equal.
  apply map_ext. exact H.
Qed.

Ltac keys_plain := repeat constructor; cbn; reflexivity.

Lemma render_doc_ToolCall t : render (doc_ToolCall t) = encodeToolCall t.
Proof.
  unfold doc_ToolCall, encodeToolCall.
  destruct (tc_Index t =? 0);
    (rewrite render_doc_struct by keys_plain; cbn [map option_map];
     rewrite render_doc_struct by keys_plain; reflexivity).
Qed.

Lemma render_doc_OpenAIMessage m : render (doc_OpenAIMessage m) = encodeOpenAIMessage m.
Proof.
  unfold doc_OpenAIMessage, encodeOpenAIMessage.
  rewrite render_doc_struct
    by (destruct (String.eqb (om_Name m) ""), (om_ToolCalls m) as [[|]|],
          (String.eqb (om_ToolCallID m) ""); keys_plain).
  destruct (String.eqb (om_Name m) ""), (om_ToolCalls m) as [[|t l]|],
    (String.eqb (om_ToolCallID m) ""); cbn [map option_map]; rewrite render_doc_any;
    try reflexivity;
    (rewrite (render_doc_slice doc_ToolCall encodeToolCall) by exact render_doc_ToolCall;
     reflexivity).
Qed.

Lemma render_doc_AnthropicMessage m : render (doc_AnthropicMessage m) = encodeAnthropicMessage m.
Proof.
  unfold doc_AnthropicMessage, encodeAnthropicMessage.
  rewrite render_doc_struct by keys_plain. cbn [map option_map]. rewrite render_doc_any.
  reflexivity.
Qed.

Lemma marshal_anthropic_doc req :
  marshal_anthropic_normalized req =
  render (doc_nreq (NAnthropic (ar_Model req) (ar_Messages req) (ar_System req)
                      (ar_MaxTokens req) (ar_Stream req))).
Proof.
  unfold marshal_anthropic_normalized. cbn [doc_nreq].
  rewrite render_doc_struct by (destruct (ar_System req); keys_plain).
  destruct (ar_System req); cbn [map option_map]; rewrite ?render_doc_any;
    (rewrite (render_doc_slice doc_AnthropicMessage encodeAnthropicMessage)
       by exact render_doc_AnthropicMessage); reflexivity.
Qed.

Lemma marshal_openai_doc req :
  marshal_openai_normalized req =
  render (doc_nreq (NOpenAI (or_Model req) (or_Messages req) (or_Temperature req)
                      (or_MaxTokens req) (or_Stream req))).
Proof.
  unfold marshal_openai_normalized. cbn [doc_nreq].
  rewrite render_doc_struct by keys_plain. cbn [map option_map].
  rewrite (render_doc_slice doc_OpenAIMessage encodeOpenAIMessage)
    by exact render_doc_OpenAIMessage. reflexivity.
Qed.

Lemma doc_ok_struct fields : Forall field_ok fields -> doc_ok (doc_struct fields).
Proof.
  intros Hf. unfold doc_struct. apply doc_ok_obj.
  induction fields as [|[[k d]|] r IH]; inversion Hf; subst; cbn; [constructor| |auto].
  constructor; [assumption|auto].
Qed.

Lemma doc_ok_slice {A} (d : A -> JDoc) (Q : A -> Prop) s :
  (forall x, Q x -> doc_ok (d x)) -> opt_all Q s -> doc_ok (doc_slice d s).
Proof.
  intros Hd Hs. destruct s as [l|]; [|exact null_atom]. cbn [doc_slice]. apply doc_ok_arr.
  induction l as [|x r IH]; inversion Hs; subst; constructor; auto.
Qed.

Ltac fields_ok :=
  apply doc_ok_struct;
  repeat (first [apply List.Forall_nil
                |apply List.Forall_cons;
                 [first [exact I | split; [apply ascii_valid; reflexivity|] ] |]]).

Lemma doc_ok_ToolCall t : tc_ok t -> doc_ok (doc_ToolCall t).
Proof.
  intros (H1 & H2 & H3 & H4). unfold doc_ToolCall.
  destruct (tc_Index t =? 0); fields_ok;
    first [assumption | apply Itoa_atom | fields_ok; assumption].
Qed.

Lemma doc_ok_OpenAIMessage m : omsg_ok m -> doc_ok (doc_OpenAIMessage m).
Proof.
  intros (H1 & H2 & H3 & H4 & H5). unfold doc_OpenAIMessage.
  destruct (String.eqb (om_Name m) ""), (om_ToolCalls m) as [[|t l]|] eqn:Et,
    (String.eqb (om_ToolCallID m) ""); fields_ok;
    first [assumption | apply doc_ok_doc_any; assumption
          | apply (doc_ok_slice _ tc_ok); [exact doc_ok_ToolCall|]; first [exact H4 | rewrite <- Et; exact H4]].
Qed.

Lemma doc_ok_AnthropicMessage m : amsg_ok m -> doc_ok (doc_AnthropicMessage m).
Proof.
  intros (H1 & H2). unfold doc_AnthropicMessage. fields_ok;
    first [assumption | apply doc_ok_doc_any; assumption].
Qed.

Lemma doc_ok_nreq n : nreq_ok n -> doc_ok (doc_nreq n).
Proof.
  destruct n as [mo ms sy mt st|mo ms te mt st]; intros (H1 & H2 & H3); cbn [doc_nreq].
  - destruct sy; fields_ok;
      first [assumption | apply Itoa_atom | apply encodeBool_atom
            | apply doc_ok_doc_any; assumption
            | apply (doc_ok_slice _ amsg_ok); [exact doc_ok_AnthropicMessage|exact H2]].
  - fields_ok;
      first [assumption | apply Itoa_atom | apply encodeBool_atom
            | apply encodeFloat_atom; assumption
            | apply (doc_ok_slice _ omsg_ok); [exact doc_ok_OpenAIMessage|exact H2]].
Qed.

Lemma normalize_ok path b n : normalize path b = Some n -> nreq_ok n.
Proof.
  unfold normalize. destruct (isAnthropicEndpoint path).
  - destruct (Unmarshal_AnthropicRequest _) as [r|] eqn:E; [|discriminate].
    intros [= <-]. apply Unmarshal_AnthropicRequest_ok in E. exact E.
  - destruct (Unmarshal_OpenAIRequest _) as [r|] eqn:E; [|discriminate].
    intros [= <-]. apply Unmarshal_OpenAIRequest_ok in E. exact E.
Qed.

Lemma omap_key_In ks os k d : Forall2 key_is ks os -> In (k, d) (omap (fun x => x) os) -> In k ks.
Proof.
  induction 1 as [|k' [[k0 d0]|] ks' os' Hk _ IH]; cbn; [tauto| |].
  - intros [E|H]; [injection E as -> ->; left; cbn in Hk; congruence|right; auto].
  - intros H; right; auto.
Qed.

Lemma omap_keys_inj ks : NoDup ks -> forall os ps, Forall2 key_is ks os -> Forall2 key_is ks ps ->
  omap (fun x => x) os = omap (fun x => x) ps -> os = ps.
Proof.
  induction ks as [|k ks IH]; intros Hnd os ps Ho Hp E.
  - inversion Ho; inversion Hp; reflexivity.
  - inversion Ho as [|? o ? os' Hko Ho']; inversion Hp as [|? p ? ps' Hkp Hp']; subst.
    inversion Hnd as [|? ? Hk Hnd']; subst.
    destruct o as [[ko x]|], p as [[kp y]|]; cbn in Hko, Hkp; subst; cbn in E.
    + injection E as -> E. f_equal. exact (IH Hnd' _ _ Ho' Hp' E).
    + exfalso. apply Hk, list_elem_of_In. apply (omap_key_In ks ps' k x Hp'). rewrite <- E. left. reflexivity.
    + exfalso. apply Hk, list_elem_of_In. apply (omap_key_In ks os' k y Ho'). rewrite E. left. reflexivity.
    + f_equal. exact (IH Hnd' _ _ Ho' Hp' E).
Qed.

Ltac keys_is :=
  repeat (apply List.Forall2_cons; [repeat case_match; cbn; first [exact I | reflexivity]|]);
  apply List.Forall2_nil.
Ltac obj_eq E :=
  apply (f_equal (fun d => match d with JDObj kv => kv | _ => [] end)) in E; cbv beta iota in E.
Ltac nth_eq E i H :=
  pose proof (f_equal (fun l => nth i%nat l None) E) as H; cbn [nth] in H.
Ltac keys_nodup := apply (bool_decide_unpack _); vm_compute; reflexivity.

Lemma map_inj_eq {A B} (f : A -> B) l1 l2 : (forall x y, f x = f y -> x = y) ->
  map f l1 = map f l2 -> l1 = l2.
Proof.
  intros Hf. revert l2. induction l1 as [|x r IH]; intros [|y r2]; cbn; try discriminate; auto.
  intros E. injection E as E1 E2. f_equal; auto.
Qed.

Lemma map_iff_eq {A B C} (f : A -> B) (g : A -> C) l1 l2 :
  (forall x y, f x = f y <-> g x = g y) -> map f l1 = map f l2 <-> map g l1 = map g l2.
Proof.
  intros Hfg. revert l2. induction l1 as [|x r IH]; intros [|y r2]; cbn; try (split; discriminate);
    [tauto|].
  split; intros E; injection E as E1 E2; f_equal; try apply Hfg; try apply IH; assumption.
Qed.

Lemma encodeBool_inj a b : encodeBool a = encodeBool b -> a = b.
Proof. destruct a, b; cbn; congruence. Qed.

Lemma opt_name_inj (k : string) (mk : string -> JDoc) s1 s2 :
  (forall a b, mk a = mk b -> a = b) ->
  (if String.eqb s1 "" then None else Some (k, mk s1)) =
  (if String.eqb s2 "" then None else Some (k, mk s2)) -> s1 = s2.
Proof.
  intros Hmk. destruct (String.eqb s1 "") eqn:E1, (String.eqb s2 "") eqn:E2;
    rewrite ?String.eqb_eq in E1, E2; try congruence.
  intros E. injection E as E. auto.
Qed.

Lemma doc_ToolCall_inj t1 t2 : doc_ToolCall t1 = doc_ToolCall t2 -> t1 = t2.
Proof.
  destruct t1 as [i1 ty1 x1 [n1 a1]], t2 as [i2 ty2 x2 [n2 a2]].
  unfold doc_ToolCall, doc_struct. cbn [tc_ID tc_Type tc_Index tc_Function tf_Name tf_Arguments].
  intros E. obj_eq E.
  apply (omap_keys_inj ["id"; "type"; "index"; "function"]) in E; [|keys_nodup|keys_is|keys_is].
  nth_eq E 0%nat E1. nth_eq E 1%nat E2. nth_eq E 2%nat E3. nth_eq E 3%nat E4. clear E.
  injection E1 as ->. injection E2 as ->. injection E4; intros -> ->.
  destruct (x1 =? 0) eqn:Ex1, (x2 =? 0) eqn:Ex2; rewrite ?Z.eqb_eq in Ex1, Ex2; try congruence.
  injection E3 as E3. apply Itoa_inj in E3. congruence.
Qed.

Lemma doc_OpenAIMessage_iff m1 m2 :
  doc_OpenAIMessage m1 = doc_OpenAIMessage m2 <-> omsg_view m1 = omsg_view m2.
Proof.
  destruct m1 as [r1 c1 n1 tc1 i1], m2 as [r2 c2 n2 tc2 i2].
  unfold doc_OpenAIMessage, omsg_view, doc_struct.
  cbn [om_Role om_Content om_Name om_ToolCalls om_ToolCallID].
  split.
  - intros E. obj_eq E.
    apply (omap_keys_inj ["role"; "content"; "name"; "tool_calls"; "tool_call_id"]) in E;
      [|keys_nodup|keys_is|keys_is].
    nth_eq E 0%nat E1. nth_eq E 1%nat E2. nth_eq E 2%nat E3. nth_eq E 3%nat E4.
    nth_eq E 4%nat E5. clear E.
    injection E1 as ->. injection E2 as E2. rewrite E2.
    apply opt_name_inj in E3; [|intros ? ? H; injection H; auto]. subst n2.
    apply opt_name_inj in E5; [|intros ? ? H; injection H; auto]. subst i2.
    do 2 f_equal.
    destruct tc1 as [[|t1 l1]|], tc2 as [[|t2 l2]|]; try discriminate; try reflexivity.
    apply (f_equal (fun o => match o with Some (_, JDArr l) => l | _ => [] end)) in E4.
    cbv beta iota delta [doc_slice] in E4.
    exact (map_inj_eq _ _ _ doc_ToolCall_inj E4).
  - intros E. injection E as -> E2 -> E4 ->. rewrite E2.
    destruct tc1 as [[|t1 l1]|], tc2 as [[|t2 l2]|]; cbn in E4; try discriminate; subst;
      try rewrite E4; reflexivity.
Qed.

Lemma doc_AnthropicMessage_iff m1 m2 :
  doc_AnthropicMessage m1 = doc_AnthropicMessage m2 <-> amsg_view m1 = amsg_view m2.
Proof.
  destruct m1 as [r1 c1], m2 as [r2 c2].
  unfold doc_AnthropicMessage, amsg_view, doc_struct. cbn [am_Role am_Content omap list_omap].
  split.
  - intros E. injection E as -> E. rewrite E. reflexivity.
  - intros E. injection E as -> E. rewrite E. reflexivity.
Qed.

Lemma doc_slice_iff {A V} (d : A -> JDoc) (view : A -> V) s1 s2 :
  (forall x y, d x = d y <-> view x = view y) ->
  doc_slice d s1 = doc_slice d s2 <-> option_map (map view) s1 = option_map (map view) s2.
Proof.
  intros Hd. destruct s1 as [l1|], s2 as [l2|]; cbn; try (split; discriminate); [|tauto].
  split; intros E; injection E as E; f_equal; apply (map_iff_eq d view l1 l2 Hd); assumption.
Qed.

Lemma system_field_iff sy1 sy2 :
  (match sy1 with ANil => None | s => Some ("system"%string, doc_any s) end) =
  (match sy2 with ANil => None | s => Some ("system"%string, doc_any s) end) <->
  system_view sy1 = system_view sy2.
Proof.
  split; intros H.
  - apply (f_equal (option_map snd)) in H.
    destruct sy1, sy2; cbn -[doc_any] in H |- *; exact H.
  - apply (f_equal (option_map (pair "system"%string))) in H.
    destruct sy1, sy2; cbn -[doc_any] in H |- *; exact H.
Qed.

Ltac some_doc H :=
  apply (f_equal (fun o => match o with Some (_, d) => d | None => JDAtom [] end)) in H;
  cbv beta iota in H.
Ltac atom_eq H :=
  apply (f_equal (fun d => match d with JDAtom a => a | _ => [] end)) in H;
  cbv beta iota in H.

Lemma doc_nreq_iff n1 n2 : doc_nreq n1 = doc_nreq n2 <-> nreq_equiv n1 n2.
Proof.
  destruct n1 as [mo1 ms1 sy1 mt1 st1|mo1 ms1 te1 mt1 st1],
           n2 as [mo2 ms2 sy2 mt2 st2|mo2 ms2 te2 mt2 st2]; cbn [doc_nreq nreq_equiv];
    unfold doc_struct.
  - split.
    + intros E. obj_eq E.
      apply (omap_keys_inj ["model"; "messages"; "system"; "max_tokens"; "stream"]) in E;
        [|keys_nodup|keys_is|keys_is].
      nth_eq E 0%nat E1. nth_eq E 1%nat E2. nth_eq E 2%nat E3. nth_eq E 3%nat E4.
      nth_eq E 4%nat E5. clear E.
      some_doc E1. some_doc E2. some_doc E4. some_doc E5. atom_eq E4. atom_eq E5.
      injection E1 as ->.
      split; [reflexivity|]. split; [apply (doc_slice_iff _ _ _ _ doc_AnthropicMessage_iff); exact E2|].
      split; [apply system_field_iff; exact E3|].
      split; [apply Itoa_inj; exact E4|apply encodeBool_inj; exact E5].
    + intros (-> & E2 & E3 & -> & ->).
      apply (doc_slice_iff _ _ _ _ doc_AnthropicMessage_iff) in E2. rewrite E2.
      apply system_field_iff in E3. rewrite E3. reflexivity.
  - split; [|tauto]. destruct sy1; cbn; discriminate.
  - split; [|tauto]. destruct sy2; cbn; discriminate.
  - split.
    + intros E. obj_eq E.
      apply (omap_keys_inj ["model"; "messages"; "temperature"; "max_tokens"; "stream"]) in E;
        [|keys_nodup|keys_is|keys_is].
      nth_eq E 0%nat E1. nth_eq E 1%nat E2. nth_eq E 2%nat E3. nth_eq E 3%nat E4.
      nth_eq E 4%nat E5. clear E.
      some_doc E1. some_doc E2. some_doc E3. some_doc E4. some_doc E5.
      atom_eq E3. atom_eq E4. atom_eq E5. injection E1 as ->.
      split; [reflexivity|]. split; [apply (doc_slice_iff _ _ _ _ doc_OpenAIMessage_iff); exact E2|].
      split; [exact E3|]. split; [apply Itoa_inj; exact E4|apply encodeBool_inj; exact E5].
    + intros (-> & E2 & E3 & -> & ->).
      apply (doc_slice_iff _ _ _ _ doc_OpenAIMessage_iff) in E2. rewrite E2, E3. reflexivity.
Qed.

Lemma GenerateCacheKey_hashed_data path b :
  GenerateCacheKey path b = key_of path (hashed_data path b).
Proof.
  unfold GenerateCacheKey, hashed_data. destruct (isAnthropicEndpoint path).
  - destruct (Unmarshal_AnthropicRequest _); reflexivity.
  - destruct (Unmarshal_OpenAIRequest _); reflexivity.
Qed.

Lemma hashed_data_doc path b n : normalize path b = Some n ->
  hashed_data path b = bytes_of (render (doc_nreq n)).
Proof.
  unfold normalize, hashed_data. destruct (isAnthropicEndpoint path).
  - destruct (Unmarshal_AnthropicRequest _) as [r|]; [|discriminate].
    intros [= <-]. rewrite marshal_anthropic_doc. reflexivity.
  - destruct (Unmarshal_OpenAIRequest _) as [r|]; [|discriminate].
    intros [= <-]. rewrite marshal_openai_doc. reflexivity.
Qed.

Lemma bytes_of_inj l1 l2 : bytes_of l1 = bytes_of l2 -> l1 = l2.
Proof.
  apply map_inj_eq. intros x y E. apply (f_equal ascii_of_byte) in E.
  rewrite !ascii_of_byte_of_ascii in E. exact E.
Qed.

(** C3, as amended: [GenerateCacheKey] hashes [hashed_data], and for two
    bodies that decode on the same path, the hashed bytes are equal exactly
    when the normalized requests agree field by field ([nreq_equiv]). *)
Theorem GenerateCacheKey_hashed_iff (path : string) (b1 b2 : list byte)
    (n1 n2 : NormalizedRequest) :
  normalize path b1 = Some n1 -> normalize path b2 = Some n2 ->
  GenerateCacheKey path b1 = key_of path (hashed_data path b1) /\
  (hashed_data path b1 = hashed_data path b2 <-> nreq_equiv n1 n2).
Proof.
  intros H1 H2. split; [apply GenerateCacheKey_hashed_data|].
  rewrite (hashed_data_doc _ _ _ H1), (hashed_data_doc _ _ _ H2), <- doc_nreq_iff.
  pose proof (doc_ok_nreq _ (normalize_ok _ _ _ H1)) as Ok1.
  pose proof (doc_ok_nreq _ (normalize_ok _ _ _ H2)) as Ok2.
  split; [|intros ->; reflexivity].
  intros E. apply bytes_of_inj in E.
  rewrite <- (app_nil_r (render (doc_nreq n1))), <- (app_nil_r (render (doc_nreq n2))) in E.
  exact (proj1 (render_inj _ Ok1 _ [] [] Ok2 I I E)).
Qed.

Lemma GenerateCacheKey_hashed_iff_witness :
  normalize "/v1/messages" anthropic_body_plain <> None /\
  normalize "/v1/messages" anthropic_body_system <> None /\
  hashed_data "/v1/messages" anthropic_body_plain <>
  hashed_data "/v1/messages" anthropic_body_system.
Proof.
  destruct (normalize "/v1/messages" anthropic_body_plain) as [n1|] eqn:E1;
    [|vm_compute in E1; discriminate].
  destruct (normalize "/v1/messages" anthropic_body_system) as [n2|] eqn:E2;
    [|vm_compute in E2; discriminate].
  split; [discriminate|]. split; [discriminate|].
  intros H. apply (GenerateCacheKey_hashed_iff _ _ _ _ _ E1 E2) in H.
  vm_compute in E1, E2. injection E1 as <-. injection E2 as <-.
  destruct H as (_ & _ & H & _). vm_compute in H. discriminate.
Defined.
